(** * Bit-packed integer encodings of canu (src/AS_UTL/bitEncodings.H)

    A shallow embedding of the five coders of [bitEncodings.H] -- unary,
    generalized unary, Elias gamma, Elias delta and Fibonacci -- over a
    bit-addressable array of 64-bit words, and the properties the design
    document states about them. *)

From Stdlib Require Import ZArith Lia Bool List.
From stdpp Require Import base option list.

Local Open Scope Z_scope.

(** ** Unsigned 64-bit arithmetic

    [uint64] values are integers in [0, 2^64); the arithmetic of the source
    wraps around. *)

Definition wrap64 (x : Z) : Z := x mod 2 ^ 64.

Definition uint64ZERO : Z := 0.
Definition uint64ONE : Z := 1.

(** [x << k] on [uint64].  A shift count of 64 or more is undefined in C++:
    [None]. *)
Definition shl64 (x k : Z) : option Z :=
  if k <? 64 then Some (wrap64 (Z.shiftl x k)) else None.

(** ** The bit array

    [uint64 *ptr] is an array of 64-bit words owned by the caller.  Bit [i]
    of the array is bit [63 - i mod 64] of word [i / 64] (most significant
    bit first).  An access to a word that is not in the array is undefined
    behaviour: [None]. *)

Definition getBit (ptr : list Z) (i : Z) : option bool :=
  w ← ptr !! Z.to_nat (i / 64);
  Some (Z.testbit w (63 - i mod 64)).

Definition setBit (ptr : list Z) (i : Z) (b : bool) : option (list Z) :=
  w ← ptr !! Z.to_nat (i / 64);
  Some (<[Z.to_nat (i / 64) :=
            if b then Z.setbit w (63 - i mod 64)
            else Z.clearbit w (63 - i mod 64)]> ptr).

(** Number of bits of the array. *)
Definition bitLength (ptr : list Z) : Z := 64 * Z.of_nat (length ptr).

(** Modelled from the spec: [getDecodedValue] and [setDecodedValue] of
    bitPacking.H, which is not among the sources.  The design document gives
    their contract: [getField(words, bitPos, width<=64)] reads [width]
    most-significant-bit-first bits starting at [bitPos] as an unsigned
    integer, and [setField(words, bitPos, width<=64, value)] writes [value]
    as [width] most-significant-bit-first bits starting at [bitPos], under
    the constraint [value < 2^width].  A field of width 0 has no bits:
    reading it gives 0, and writing the value 0 into it changes nothing.  A
    width above 64 is outside the contract: [None].

    For a value of [2^width] or more the design document says nothing.  The
    write of the model returns there as well and keeps the low [width] bits
    of the value.  The mantissa write of the delta encoder ([b-1] bits of a
    value of [b] bits) is such a call, and the only one in bitEncodings.H:
    of the delta encoder the results below say that it returns and which
    size it reports, and not which bits it stores. *)
Fixpoint getField (ptr : list Z) (pos : Z) (n : nat) (acc : Z) : option Z :=
  match n with
  | O => Some acc
  | S n' => b ← getBit ptr pos; getField ptr (pos + 1) n' (2 * acc + Z.b2z b)
  end.

Definition getDecodedValue (ptr : list Z) (pos siz : Z) : option Z :=
  if siz <=? 64 then getField ptr pos (Z.to_nat siz) 0 else None.

Fixpoint setField (ptr : list Z) (pos : Z) (n : nat) (val : Z) : option (list Z) :=
  match n with
  | O => Some ptr
  | S n' => ptr' ← setBit ptr pos (Z.testbit val (Z.of_nat n'));
            setField ptr' (pos + 1) n' val
  end.

Definition setDecodedValue (ptr : list Z) (pos siz val : Z) : option (list Z) :=
  if siz <=? 64 then setField ptr pos (Z.to_nat siz) val else None.

(** Modelled from the spec: [logBaseTwo64] of bitOperations.H, which is not
    among the sources.  The design document calls it the position of the
    highest set bit, or integer log2, of a nonzero 64-bit word, and fixes
    how the position is counted in one place: the unary decoder obtains
    from it the number of zero bits in front of the first one bit of a
    64-bit field.  The decoder in bitEncodings.H computes that number as
    [64 - logBaseTwo64(enc)] ("Count how many bits are zero"), so a field
    whose first bit is set has position 64: the position is counted from 1
    at the least significant bit.  It is the number of bits needed to write
    the word, [floor(log2 x) + 1].  For the word 0 the design document gives
    no value; the model takes 0 there, the number of bits of 0. *)
Definition logBaseTwo64 (x : Z) : Z :=
  if x =? 0 then 0 else Z.log2 x + 1.

(** The bits of the array from [pos] on, [n] of them, as a list. *)
Fixpoint bitsAt (ptr : list Z) (pos : Z) (n : nat) : option (list bool) :=
  match n with
  | O => Some []
  | S n' => b ← getBit ptr pos; bs ← bitsAt ptr (pos + 1) n'; Some (b :: bs)
  end.

(** ** Unary encoding

    [n] is stored as [n] zero bits followed by a single one bit. *)

(** The loop of [setUnaryEncodedNumber]:
    [while (val >= 64) { setDecodedValue(ptr, pos, 64, 0); pos += 64;
    val -= 64; siz += 64; }].  The last statement advances the local pointer
    [siz], which is not used again; the size stored through it before the
    loop stays.  The loop runs [val / 64] times. *)
Fixpoint setUnary_loop (fuel : nat) (ptr : list Z) (pos val : Z)
  : option (list Z * Z * Z) :=
  if 64 <=? val then
    match fuel with
    | O => None
    | S fuel' =>
        ptr' ← setDecodedValue ptr pos 64 uint64ZERO;
        setUnary_loop fuel' ptr' (wrap64 (pos + 64)) (val - 64)
    end
  else Some (ptr, pos, val).

(** Returns the array and the size stored in [*siz]. *)
Definition setUnaryEncodedNumber (ptr : list Z) (pos val : Z)
  : option (list Z * Z) :=
  let siz := wrap64 (val + 1) in
  '(ptr1, pos1, val1) ← setUnary_loop (Z.to_nat (val / 64)) ptr pos val;
  ptr2 ← setDecodedValue ptr1 pos1 (wrap64 (val1 + 1)) uint64ONE;
  Some (ptr2, siz).

(** The loop of [getUnaryEncodedNumber]:
    [while (enc == 0) { val += 64; pos += 64; enc = getDecodedValue(ptr, pos, 64); }].
    Every round fetches a further 64-bit field, so on an array of [n] words
    it ends, with a value or with an access outside the array, within [n]
    rounds. *)
Fixpoint getUnary_loop (fuel : nat) (ptr : list Z) (pos val enc : Z)
  : option (Z * Z) :=
  if enc =? uint64ZERO then
    match fuel with
    | O => None
    | S fuel' =>
        let val := wrap64 (val + 64) in
        let pos := wrap64 (pos + 64) in
        enc' ← getDecodedValue ptr pos 64;
        getUnary_loop fuel' ptr pos val enc'
    end
  else Some (val, enc).

(** Returns the decoded value and the size stored in [*siz]. *)
Definition getUnaryEncodedNumber (ptr : list Z) (pos : Z) : option (Z * Z) :=
  enc ← getDecodedValue ptr pos 64;
  '(val, enc) ← getUnary_loop (length ptr) ptr pos uint64ZERO enc;
  let val := wrap64 (val + wrap64 (64 - logBaseTwo64 enc)) in
  Some (val, wrap64 (val + 1)).

(** ** Generalized unary encoding *)

Definition _genunary_start : Z := 3.
Definition _genunary_step : Z := 2.

(** The search loop of the encoder:
    [while (n <= val) { val -= n; w += step; n = 1 << w; m++; }].
    The shift count starts at 3 and grows by 2, so it leaves the range of a
    defined shift within 31 rounds. *)
Fixpoint genunary_search (fuel : nat) (val w n m : Z) : option (Z * Z * Z) :=
  if n <=? val then
    match fuel with
    | O => None
    | S fuel' =>
        let val := wrap64 (val - n) in
        let w := wrap64 (w + _genunary_step) in
        n' ← shl64 uint64ONE w;
        genunary_search fuel' val w n' (wrap64 (m + 1))
    end
  else Some (val, w, m).

Definition setGeneralizedUnaryEncodedNumber (ptr : list Z) (pos val : Z)
  : option (list Z * Z) :=
  let m := uint64ZERO in
  let w := _genunary_start in
  n ← shl64 uint64ONE w;
  '(val, w, m) ← genunary_search 32 val w n m;
  '(ptr1, siz) ← setUnaryEncodedNumber ptr pos m;
  ptr2 ← setDecodedValue ptr1 (wrap64 (pos + siz)) w val;
  Some (ptr2, wrap64 (wrap64 (m + 1) + w)).

(** The loop of the decoder: [while (m--) { w -= step; val += 1 << w; }]. *)
Fixpoint genunary_restore (m : nat) (w val : Z) : option Z :=
  match m with
  | O => Some val
  | S m' =>
      let w := wrap64 (w - _genunary_step) in
      s ← shl64 uint64ONE w;
      genunary_restore m' w (wrap64 (val + s))
  end.

Definition getGeneralizedUnaryEncodedNumber (ptr : list Z) (pos : Z)
  : option (Z * Z) :=
  '(m, siz) ← getUnaryEncodedNumber ptr pos;
  let w := wrap64 (_genunary_start + wrap64 (m * _genunary_step)) in
  val ← getDecodedValue ptr (wrap64 (pos + siz)) w;
  let siz := wrap64 (wrap64 (m + 1) + w) in
  val ← genunary_restore (Z.to_nat m) w val;
  Some (val, siz).

(** ** Elias gamma encoding *)

Definition setEliasGammaEncodedNumber (ptr : list Z) (pos val : Z)
  : option (list Z * Z) :=
  let b := logBaseTwo64 val in
  '(ptr1, siz) ← setUnaryEncodedNumber ptr pos b;
  let pos := wrap64 (pos + siz) in
  ptr2 ← setDecodedValue ptr1 pos b val;
  Some (ptr2, wrap64 (siz + b)).

Definition getEliasGammaEncodedNumber (ptr : list Z) (pos : Z)
  : option (Z * Z) :=
  '(b, siz) ← getUnaryEncodedNumber ptr pos;
  let pos := wrap64 (pos + siz) in
  let siz := wrap64 (siz + b) in
  val ← getDecodedValue ptr pos b;
  Some (val, siz).

(** ** Elias delta encoding *)

Definition setEliasDeltaEncodedNumber (ptr : list Z) (pos val : Z)
  : option (list Z * Z) :=
  let b := logBaseTwo64 val in
  '(ptr1, siz) ← setEliasGammaEncodedNumber ptr pos b;
  let pos := wrap64 (pos + siz) in
  ptr2 ← setDecodedValue ptr1 pos (wrap64 (b - 1)) val;
  Some (ptr2, wrap64 (siz + wrap64 (b - 1))).

Definition getEliasDeltaEncodedNumber (ptr : list Z) (pos : Z)
  : option (Z * Z) :=
  '(g, siz) ← getEliasGammaEncodedNumber ptr pos;
  let b := wrap64 (g - 1) in
  let pos := wrap64 (pos + siz) in
  let siz := wrap64 (siz + b) in
  s ← shl64 uint64ONE b;
  val ← getDecodedValue ptr pos b;
  Some (Z.lor s val, siz).

(** ** Fibonacci encoding *)

Definition wrap32 (x : Z) : Z := x mod 2 ^ 32.

Fixpoint fibonacciSequence (n : nat) (a b : Z) : list Z :=
  match n with
  | O => []
  | S n' => a :: fibonacciSequence n' b (a + b)
  end.

Definition fibonacciValuesLen : Z := 92.

(** Modelled from the spec: the table [fibonacciValues[92]], which the header
    declares [extern] and which is defined outside the sources.  The design
    document has [table[0] = 1], [table[i] < table[i+1]] and
    [table[i] = table[i-1] + table[i-2]]; the sizes the header lists (2 bits
    for 0, 3 bits for 1, 4 bits for 2 and 3) make [table[1] = 2].  The 92
    entries run up to 12200160415121876738, the largest Fibonacci number
    below 2^64. *)
Definition fibonacciValues : list Z :=
  Eval vm_compute in fibonacciSequence 92 1 2.

(** The state of the encoder's loop: [val], [out1], [out2], [fibmax]. *)
Record fibState : Type := FibState {
  fs_val : Z;
  fs_out1 : Z;
  fs_out2 : Z;
  fs_fibmax : Z
}.

(** [if (i >= 64) out2 |= 1 << (127 - i); else out1 |= 1 << (63 - i);]
    for an index [i] of at most 92: the shift counts stay below 64. *)
Definition fib_mark (i : Z) (st : fibState) : fibState :=
  if 64 <=? i then
    FibState (fs_val st) (fs_out1 st)
             (Z.lor (fs_out2 st) (wrap64 (Z.shiftl uint64ONE (127 - i))))
             (fs_fibmax st)
  else
    FibState (fs_val st)
             (Z.lor (fs_out1 st) (wrap64 (Z.shiftl uint64ONE (63 - i))))
             (fs_out2 st) (fs_fibmax st).

(** The body of [while (fib-- > 0)], for the decremented [fib]. *)
Definition fib_step (fib : Z) (st : fibState) : option fibState :=
  f ← fibonacciValues !! Z.to_nat fib;
  if f <=? fs_val st then
    let st := fib_mark fib st in
    let st := FibState (wrap64 (fs_val st - f)) (fs_out1 st) (fs_out2 st)
                       (fs_fibmax st) in
    if fs_fibmax st =? uint64ZERO then
      let fibmax := wrap32 (fib + 1) in
      Some (fib_mark fibmax
              (FibState (fs_val st) (fs_out1 st) (fs_out2 st) fibmax))
    else Some st
  else Some st.

Fixpoint fib_loop (fib : nat) (st : fibState) : option fibState :=
  match fib with
  | O => Some st
  | S fib' => st' ← fib_step (Z.of_nat fib') st; fib_loop fib' st'
  end.

Definition setFibonacciEncodedNumber (ptr : list Z) (pos val : Z)
  : option (list Z * Z) :=
  let val := wrap64 (val + 1) in
  st ← fib_loop (Z.to_nat fibonacciValuesLen)
                (FibState val uint64ZERO uint64ZERO 0);
  let fibmax := wrap32 (fs_fibmax st + 1) in
  if 64 <? fibmax then
    ptr1 ← setDecodedValue ptr pos 64 (fs_out1 st);
    let pos := wrap64 (pos + 64) in
    let out2 := Z.shiftr (fs_out2 st) (128 - fibmax) in
    ptr2 ← setDecodedValue ptr1 pos (fibmax - 64) out2;
    Some (ptr2, fibmax)
  else
    let out1 := Z.shiftr (fs_out1 st) (64 - fibmax) in
    ptr1 ← setDecodedValue ptr pos fibmax out1;
    Some (ptr1, fibmax).

(** [x = ptr[wrd] & sft; sft >>= 1; if (sft == 0) { wrd++; sft = 1 << 63; }] *)
Definition fib_fetch (ptr : list Z) (wrd sft : Z) : option (Z * Z * Z) :=
  w ← ptr !! Z.to_nat wrd;
  let x := Z.land w sft in
  let sft := Z.shiftr sft 1 in
  if sft =? uint64ZERO then Some (x, wrap64 (wrd + 1), 0x8000000000000000)
  else Some (x, wrd, sft).

(** The loop of the decoder, [while (!oldbit || !newbit)].  Every round
    fetches a further bit of the array. *)
Fixpoint getFib_loop (fuel : nat) (ptr : list Z)
    (wrd sft val fib oldbit newbit : Z) : option (Z * Z) :=
  if (oldbit =? 0) || (newbit =? 0) then
    match fuel with
    | O => None
    | S fuel' =>
        val ← (if oldbit =? 0 then Some val
               else f ← fibonacciValues !! Z.to_nat fib; Some (wrap64 (val + f)));
        let fib := wrap32 (fib + 1) in
        let oldbit := newbit in
        '(newbit, wrd, sft) ← fib_fetch ptr wrd sft;
        getFib_loop fuel' ptr wrd sft val fib oldbit newbit
    end
  else Some (val, fib).

Definition getFibonacciEncodedNumber (ptr : list Z) (pos : Z)
  : option (Z * Z) :=
  let wrd := Z.land (Z.shiftr pos 6) 0x0000cfffffffffff in
  let sft := Z.shiftr 0x8000000000000000 (Z.land pos 0x000000000000003f) in
  '(oldbit, wrd, sft) ← fib_fetch ptr wrd sft;
  '(newbit, wrd, sft) ← fib_fetch ptr wrd sft;
  '(val, fib) ← getFib_loop (64 * length ptr) ptr wrd sft 0 0 oldbit newbit;
  f ← fibonacciValues !! Z.to_nat fib;
  let val := wrap64 (val + f) in
  Some (wrap64 (val - 1), wrap32 (fib + 2)).

(** ** Describing the contents of the array *)

(** The unary code of [n] stands at [pos]: [n] zero bits, then a one bit. *)
Definition unaryAt (ptr : list Z) (pos n : Z) : Prop :=
  (forall j, pos <= j < pos + n -> getBit ptr j = Some false)
  /\ getBit ptr (pos + n) = Some true.

(** The bits outside [pos, pos + siz) are the same in both arrays. *)
Definition sameOutside (ptr ptr' : list Z) (pos siz : Z) : Prop :=
  length ptr' = length ptr
  /\ forall j, 0 <= j -> ~ (pos <= j < pos + siz) -> getBit ptr' j = getBit ptr j.

(** The bits inside [pos, pos + siz) are the same in both arrays. *)
Definition sameInside (ptr ptr' : list Z) (pos siz : Z) : Prop :=
  forall j, pos <= j < pos + siz -> getBit ptr' j = getBit ptr j.

(** The field of [siz] bits at [pos] holds the low [siz] bits of [val], most
    significant bit first. *)
Definition fieldAt (ptr : list Z) (pos siz val : Z) : Prop :=
  forall j, pos <= j < pos + siz ->
            getBit ptr j = Some (Z.testbit val (pos + siz - 1 - j)).

(** The buckets of the generalized unary code, in the words of the design
    document: bucket [m] has the residual width [w(m) = 3 + 2 m] and covers
    the values from [sum_{i<m} 2^w(i)] up to, not including,
    [sum_{i<=m} 2^w(i)]. *)
Definition genunary_width (m : nat) : Z := 3 + 2 * Z.of_nat m.

Fixpoint genunary_base (m : nat) : Z :=
  match m with
  | O => 0
  | S m' => genunary_base m' + 2 ^ genunary_width m'
  end.

(** The Fibonacci numbers 1, 2, 3, 5, 8, ... as a function: [fibZ i] is
    entry [i] of the table, and the sequence goes on beyond the table. *)
Fixpoint fibPair (i : nat) : Z * Z :=
  match i with
  | O => (1, 2)
  | S i' => let '(a, b) := fibPair i' in (b, a + b)
  end.

Definition fibZ (i : nat) : Z := fst (fibPair i).

(** The greedy (Zeckendorf) decomposition of [v] over the entries below [k],
    largest first: [zdigit k v j] tells whether entry [j] is selected, and
    [ztop k v] is the index of the largest selected entry plus one, 0 when
    none is selected. *)
Fixpoint zdigit (k : nat) (v : Z) (j : Z) : bool :=
  match k with
  | O => false
  | S k' =>
      if fibZ k' <=? v then (j =? Z.of_nat k') || zdigit k' (v - fibZ k') j
      else zdigit k' v j
  end.

Fixpoint ztop (k : nat) (v : Z) : Z :=
  match k with
  | O => 0
  | S k' => if fibZ k' <=? v then Z.of_nat k' + 1 else ztop k' v
  end.

(** The value of a digit sequence: the sum of the entries [i < k] whose
    digit is set. *)
Fixpoint fibValue (d : Z -> bool) (k : nat) : Z :=
  match k with
  | O => 0
  | S k' => fibValue d k' + (if d (Z.of_nat k') then fibZ k' else 0)
  end.

(** No two neighbouring digits below [k] are both set. *)
Definition noAdjacent (d : Z -> bool) (k : Z) : Prop :=
  forall j, 0 <= j -> j + 1 < k -> d j && d (j + 1) = false.

(** Bit [j] of the 128-bit pattern the encoder builds in [out1], [out2]. *)
Definition codeBit (st : fibState) (j : Z) : bool :=
  if j <? 64 then Z.testbit (fs_out1 st) (63 - j)
  else Z.testbit (fs_out2 st) (127 - j).

(** The bits of the array at [pos + j], for [0 <= j < k], are the digits
    [d j]. *)
Definition digitsAt (ptr : list Z) (pos : Z) (d : Z -> bool) (k : Z) : Prop :=
  forall j, 0 <= j < k -> getBit ptr (pos + j) = Some (d j).

(** The number of entries of the table, as a natural number. *)
Abbreviation fibEntries := (Z.to_nat fibonacciValuesLen) (only parsing).

(** The Fibonacci code of [v]: the digits of the greedy decomposition of [v]
    over the entries of the table and, when [v] is not 0, a one bit above
    the largest selected entry.  It has [fibCodeSize v] bits. *)
Abbreviation fibCode v :=
  (fun j : Z => zdigit fibEntries v j
                || ((0 <? ztop fibEntries v) && (j =? ztop fibEntries v)))
  (only parsing).

Abbreviation fibCodeSize v := (ztop fibEntries v + 1) (only parsing).

(** The size an encoder reports and the bits it has written: the [siz] bits
    of the array from [pos] on, read back after the call. *)
Definition encodedBits (enc : list Z -> Z -> Z -> option (list Z * Z))
    (ptr : list Z) (pos val : Z) : option (list bool * Z) :=
  '(ptr', siz) ← enc ptr pos val;
  bs ← bitsAt ptr' pos (Z.to_nat siz);
  Some (bs, siz).

(** The decoder [dec] finds the value [val] in [siz] bits at [pos] in every
    array that has the bits of [ptr] in [pos, pos + siz) and at least [slack]
    further bits after them: what it returns depends on the bits of the code
    only, and it reads no bit from [pos + siz + slack] on. *)
Definition decodesWithin (dec : list Z -> Z -> option (Z * Z))
    (ptr : list Z) (pos val siz slack : Z) : Prop :=
  forall ptr2,
    sameInside ptr ptr2 pos siz ->
    pos + siz + slack <= bitLength ptr2 -> bitLength ptr2 < 2 ^ 64 ->
    dec ptr2 pos = Some (val, siz).


(** * Properties *)

(** ** The bit array *)

Ltac divmod := Z.div_mod_to_equations; lia.

Lemma bind_Some {A B : Type} (f : A -> option B) (x : A) : Some x ≫= f = f x.
Proof. reflexivity. Qed.

(** One step of a computation in the option monad whose first action has
    returned. *)
Ltac bind_step := rewrite bind_Some; cbv beta iota.

Lemma wrap64_small x : 0 <= x < 2 ^ 64 -> wrap64 x = x.
Proof. intros H. unfold wrap64. now apply Z.mod_small. Qed.

Lemma wrap32_small x : 0 <= x < 2 ^ 32 -> wrap32 x = x.
Proof. intros H. unfold wrap32. now apply Z.mod_small. Qed.

Lemma lookup_word (ptr : list Z) (i : Z) :
  0 <= i < bitLength ptr -> exists w, ptr !! Z.to_nat (i / 64) = Some w.
Proof.
  unfold bitLength. intros H.
  destruct (lookup_lt_is_Some_2 ptr (Z.to_nat (i / 64))) as [w Hw]; [|eauto].
  assert (0 <= i / 64 < Z.of_nat (length ptr)) by divmod. lia.
Qed.

Lemma getBit_inside (ptr : list Z) (i : Z) :
  0 <= i < bitLength ptr -> exists b, getBit ptr i = Some b.
Proof.
  intros H. destruct (lookup_word ptr i H) as [w Hw].
  unfold getBit. rewrite Hw. simpl. eauto.
Qed.

Lemma getBit_outside (ptr : list Z) (i : Z) :
  bitLength ptr <= i -> getBit ptr i = None.
Proof.
  unfold bitLength, getBit. intros H.
  rewrite (lookup_ge_None_2 ptr); [reflexivity|].
  assert (Z.of_nat (length ptr) <= i / 64) by divmod. lia.
Qed.

Lemma getBit_Some_inside (ptr : list Z) (i : Z) (b : bool) :
  0 <= i -> getBit ptr i = Some b -> i < bitLength ptr.
Proof.
  intros Hi H. destruct (Z.lt_ge_cases i (bitLength ptr)) as [|Hge]; [assumption|].
  rewrite (getBit_outside _ _ Hge) in H. discriminate.
Qed.

Lemma setBit_length (ptr ptr' : list Z) (i : Z) (b : bool) :
  setBit ptr i b = Some ptr' -> length ptr' = length ptr.
Proof.
  unfold setBit. destruct (ptr !! Z.to_nat (i / 64)); simpl; [|discriminate].
  intros H. injection H as <-. apply length_insert.
Qed.

Lemma setBit_inside (ptr : list Z) (i : Z) (b : bool) :
  0 <= i < bitLength ptr -> exists ptr', setBit ptr i b = Some ptr'.
Proof.
  intros H. destruct (lookup_word ptr i H) as [w Hw].
  unfold setBit. rewrite Hw. simpl. eauto.
Qed.

Lemma getBit_setBit_same (ptr ptr' : list Z) (i : Z) (b : bool) :
  0 <= i -> setBit ptr i b = Some ptr' -> getBit ptr' i = Some b.
Proof.
  unfold setBit, getBit. intros Hi.
  destruct (ptr !! Z.to_nat (i / 64)) as [w|] eqn:Hw; simpl; [|discriminate].
  intros H. injection H as <-.
  rewrite list_lookup_insert_eq by (eapply lookup_lt_Some; eassumption).
  simpl. f_equal.
  assert (0 <= 63 - i mod 64) by divmod.
  destruct b.
  - rewrite Z.setbit_eqb by assumption. now rewrite Z.eqb_refl.
  - rewrite Z.clearbit_eqb. rewrite Z.eqb_refl. apply andb_false_r.
Qed.

Lemma getBit_setBit_other (ptr ptr' : list Z) (i j : Z) (b : bool) :
  0 <= i -> 0 <= j -> i <> j ->
  setBit ptr i b = Some ptr' -> getBit ptr' j = getBit ptr j.
Proof.
  unfold setBit, getBit. intros Hi Hj Hne.
  destruct (ptr !! Z.to_nat (i / 64)) as [w|] eqn:Hw; simpl; [|discriminate].
  intros H. injection H as <-.
  destruct (Z.eq_dec (i / 64) (j / 64)) as [Heq|Hd].
  - rewrite <- Heq.
    rewrite list_lookup_insert_eq by (eapply lookup_lt_Some; eassumption).
    rewrite Hw. simpl. f_equal.
    assert (0 <= 63 - i mod 64) by divmod.
    assert (63 - i mod 64 <> 63 - j mod 64) by divmod.
    destruct b.
    + rewrite Z.setbit_eqb by assumption.
      replace (63 - i mod 64 =? 63 - j mod 64) with false; [reflexivity|].
      symmetry. now apply Z.eqb_neq.
    + rewrite Z.clearbit_eqb.
      replace (63 - i mod 64 =? 63 - j mod 64) with false; [apply andb_true_r|].
      symmetry. now apply Z.eqb_neq.
  - rewrite list_lookup_insert_ne; [reflexivity|].
    assert (0 <= i / 64) by divmod. assert (0 <= j / 64) by divmod. lia.
Qed.

Lemma setField_length (n : nat) : forall (ptr ptr' : list Z) (pos val : Z),
  setField ptr pos n val = Some ptr' -> length ptr' = length ptr.
Proof.
  induction n as [|n IH]; simpl; intros ptr ptr' pos val H.
  - now injection H as <-.
  - destruct (setBit ptr pos (Z.testbit val (Z.of_nat n))) as [p1|] eqn:E;
      simpl in H; [|discriminate].
    rewrite (IH _ _ _ _ H). eapply setBit_length; eassumption.
Qed.

Lemma setField_inside (n : nat) : forall (ptr : list Z) (pos val : Z),
  0 <= pos -> pos + Z.of_nat n <= bitLength ptr ->
  exists ptr', setField ptr pos n val = Some ptr'.
Proof.
  induction n as [|n IH]; simpl; intros ptr pos val Hp Hb; [eauto|].
  destruct (setBit_inside ptr pos (Z.testbit val (Z.of_nat n))) as [p1 E]; [lia|].
  rewrite E. simpl. apply IH; [lia|].
  unfold bitLength in *. rewrite (setBit_length _ _ _ _ E). lia.
Qed.

Lemma setField_bits (n : nat) : forall (ptr ptr' : list Z) (pos val : Z),
  0 <= pos -> setField ptr pos n val = Some ptr' ->
  (forall j, pos <= j < pos + Z.of_nat n ->
             getBit ptr' j = Some (Z.testbit val (pos + Z.of_nat n - 1 - j)))
  /\ (forall j, 0 <= j -> ~ (pos <= j < pos + Z.of_nat n) ->
                getBit ptr' j = getBit ptr j).
Proof.
  induction n as [|n IH]; simpl; intros ptr ptr' pos val Hp H.
  - injection H as <-. split; [lia|reflexivity].
  - destruct (setBit ptr pos (Z.testbit val (Z.of_nat n))) as [p1|] eqn:E;
      simpl in H; [|discriminate].
    destruct (IH p1 ptr' (pos + 1) val ltac:(lia) H) as [Hin Hout]. split.
    + intros j Hj. destruct (Z.eq_dec j pos) as [->|Hne].
      * rewrite Hout by lia.
        rewrite (getBit_setBit_same _ _ _ _ Hp E). do 2 f_equal. lia.
      * rewrite Hin by lia. do 2 f_equal. lia.
    + intros j Hj Hn. rewrite Hout by lia.
      eapply getBit_setBit_other; [exact Hp|exact Hj| |exact E]. lia.
Qed.

Lemma testbit_join_low (b : bool) (n u k : Z) :
  0 <= u < 2 ^ n -> 0 <= k < n ->
  Z.testbit (Z.b2z b * 2 ^ n + u) k = Z.testbit u k.
Proof.
  intros Hu Hk.
  rewrite <- (Z.mod_pow2_bits_low (Z.b2z b * 2 ^ n + u) n k) by lia.
  rewrite Z.add_comm, Z.mod_add by lia. now rewrite Z.mod_small.
Qed.

Lemma testbit_join_high (b : bool) (n u : Z) :
  0 <= n -> 0 <= u < 2 ^ n ->
  Z.testbit (Z.b2z b * 2 ^ n + u) n = b.
Proof.
  intros Hn Hu.
  replace n with (0 + n) at 2 by lia.
  rewrite <- Z.div_pow2_bits by lia.
  rewrite Z.add_comm, Z.div_add by lia.
  rewrite Z.div_small by lia. simpl. apply Z.b2z_bit0.
Qed.

(** What a field read returns: a number below [2^n] whose bit [k] is the
    bit of the array at [pos + n - 1 - k]. *)
Lemma getField_spec (n : nat) : forall (ptr : list Z) (pos acc v : Z),
  getField ptr pos n acc = Some v ->
  exists u, v = acc * 2 ^ Z.of_nat n + u /\ 0 <= u < 2 ^ Z.of_nat n
    /\ forall k, 0 <= k < Z.of_nat n ->
                 getBit ptr (pos + Z.of_nat n - 1 - k) = Some (Z.testbit u k).
Proof.
  induction n as [|n IH]; intros ptr pos acc v H.
  - simpl in H. injection H as <-. exists 0. simpl. split; [lia|]. split; lia.
  - simpl in H. destruct (getBit ptr pos) as [b|] eqn:E; simpl in H; [|discriminate].
    destruct (IH _ _ _ _ H) as (u & Hv & Hu & Hbits).
    assert (Hpow : 2 ^ Z.of_nat (S n) = 2 * 2 ^ Z.of_nat n).
    { rewrite Nat2Z.inj_succ, Z.pow_succ_r; lia. }
    exists (Z.b2z b * 2 ^ Z.of_nat n + u). split; [|split].
    + rewrite Hv, Hpow. ring.
    + rewrite Hpow. destruct b; simpl; lia.
    + intros k Hk. destruct (Z.eq_dec k (Z.of_nat n)) as [->|Hne].
      * rewrite testbit_join_high by lia.
        rewrite <- E. f_equal. lia.
      * rewrite testbit_join_low by lia.
        rewrite <- Hbits by lia. f_equal. lia.
Qed.

Lemma getField_inside (n : nat) : forall (ptr : list Z) (pos acc : Z),
  0 <= pos -> pos + Z.of_nat n <= bitLength ptr ->
  exists v, getField ptr pos n acc = Some v.
Proof.
  induction n as [|n IH]; simpl; intros ptr pos acc Hp Hb; [eauto|].
  destruct (getBit_inside ptr pos) as [b E]; [lia|].
  rewrite E. simpl. apply IH; lia.
Qed.

Lemma getField_outside (n : nat) : forall (ptr : list Z) (pos acc : Z),
  0 <= pos -> (0 < n)%nat -> bitLength ptr < pos + Z.of_nat n ->
  getField ptr pos n acc = None.
Proof.
  induction n as [|n IH]; simpl; intros ptr pos acc Hp Hn Hb; [lia|].
  destruct (getBit ptr pos) as [b|] eqn:E; simpl; [|reflexivity].
  apply getBit_Some_inside in E; [|assumption].
  apply IH; lia.
Qed.

(** Two arrays with the same bits in the range of a field give the same
    field. *)
Lemma getField_agree (n : nat) : forall (ptr1 ptr2 : list Z) (pos acc : Z),
  (forall j, pos <= j < pos + Z.of_nat n -> getBit ptr2 j = getBit ptr1 j) ->
  getField ptr2 pos n acc = getField ptr1 pos n acc.
Proof.
  induction n as [|n IH]; simpl; intros ptr1 ptr2 pos acc H; [reflexivity|].
  rewrite H by lia. destruct (getBit ptr1 pos); simpl; [|reflexivity].
  apply IH. intros j Hj. apply H. lia.
Qed.

Lemma testbit_small (v n k : Z) :
  0 <= v < 2 ^ n -> n <= k -> Z.testbit v k = false.
Proof.
  intros Hv Hk. assert (0 <= n).
  { destruct (Z.lt_ge_cases n 0) as [Hn|]; [|assumption].
    rewrite Z.pow_neg_r in Hv by assumption. lia. }
  rewrite <- (Z.mod_small v (2 ^ n)) by assumption.
  apply Z.mod_pow2_bits_high. lia.
Qed.

Lemma low_bits_eq (v val n : Z) :
  0 <= v < 2 ^ n ->
  (forall k, 0 <= k < n -> Z.testbit v k = Z.testbit val k) ->
  v = val mod 2 ^ n.
Proof.
  intros Hv H. apply Z.bits_inj'. intros k Hk.
  destruct (Z.lt_ge_cases k n) as [Hlt|Hge].
  - rewrite Z.mod_pow2_bits_low by lia. apply H. lia.
  - rewrite (testbit_small v n k) by lia.
    symmetry. apply Z.mod_pow2_bits_high. split; [|assumption].
    destruct (Z.lt_ge_cases n 0) as [Hn|]; [|assumption].
    rewrite Z.pow_neg_r in Hv by assumption. lia.
Qed.

Lemma testbit_true_ge (v t : Z) :
  0 <= v -> 0 <= t -> Z.testbit v t = true -> 2 ^ t <= v.
Proof.
  intros Hv Ht H. destruct (Z.lt_ge_cases v (2 ^ t)) as [Hlt|]; [|assumption].
  rewrite (testbit_small v t t) in H by lia. discriminate.
Qed.

Lemma log2_top_bit (v n t : Z) :
  0 <= v < 2 ^ n -> 0 <= t < n -> Z.testbit v t = true ->
  (forall k, t < k < n -> Z.testbit v k = false) ->
  Z.log2 v = t.
Proof.
  intros Hv Ht Hone Hzero. apply Z.log2_unique; [lia|]. split.
  - apply testbit_true_ge; [lia|lia|assumption].
  - replace (Z.succ t) with (t + 1) by lia.
    assert (E : v = v mod 2 ^ (t + 1)).
    { apply Z.bits_inj'. intros k Hk. destruct (Z.lt_ge_cases k (t + 1)).
      - now rewrite Z.mod_pow2_bits_low by lia.
      - rewrite Z.mod_pow2_bits_high by lia.
        destruct (Z.lt_ge_cases k n); [apply Hzero; lia|].
        apply testbit_small with (n := n); assumption. }
    rewrite E. apply Z.mod_pos_bound. apply Z.pow_pos_nonneg; lia.
Qed.

Lemma setDecodedValue_length (ptr ptr' : list Z) (pos siz val : Z) :
  setDecodedValue ptr pos siz val = Some ptr' -> length ptr' = length ptr.
Proof.
  unfold setDecodedValue. destruct (siz <=? 64); [|discriminate].
  apply setField_length.
Qed.

Lemma setDecodedValue_bitLength (ptr ptr' : list Z) (pos siz val : Z) :
  setDecodedValue ptr pos siz val = Some ptr' -> bitLength ptr' = bitLength ptr.
Proof.
  intros H. unfold bitLength. now rewrite (setDecodedValue_length _ _ _ _ _ H).
Qed.

Lemma setDecodedValue_inside (ptr : list Z) (pos siz val : Z) :
  0 <= pos -> 0 <= siz <= 64 -> pos + siz <= bitLength ptr ->
  exists ptr', setDecodedValue ptr pos siz val = Some ptr'.
Proof.
  intros Hp Hs Hb. unfold setDecodedValue.
  destruct (Z.leb_spec siz 64); [|lia].
  apply setField_inside; lia.
Qed.

(** A field write sets the bits of the field, most significant bit first,
    and leaves every other bit of the array as it was. *)
Lemma setDecodedValue_bits (ptr ptr' : list Z) (pos siz val : Z) :
  0 <= pos -> 0 <= siz -> setDecodedValue ptr pos siz val = Some ptr' ->
  (forall j, pos <= j < pos + siz ->
             getBit ptr' j = Some (Z.testbit val (pos + siz - 1 - j)))
  /\ (forall j, 0 <= j -> ~ (pos <= j < pos + siz) ->
                getBit ptr' j = getBit ptr j).
Proof.
  intros Hp Hs. unfold setDecodedValue. destruct (siz <=? 64); [|discriminate].
  intros H. apply setField_bits in H; [|assumption].
  rewrite Z2Nat.id in H by assumption. exact H.
Qed.

Lemma getDecodedValue_inside (ptr : list Z) (pos siz : Z) :
  0 <= pos -> 0 <= siz <= 64 -> pos + siz <= bitLength ptr ->
  exists v, getDecodedValue ptr pos siz = Some v.
Proof.
  intros Hp Hs Hb. unfold getDecodedValue.
  destruct (Z.leb_spec siz 64); [|lia].
  apply getField_inside; lia.
Qed.

Lemma getDecodedValue_outside (ptr : list Z) (pos siz : Z) :
  0 <= pos -> 0 < siz -> bitLength ptr < pos + siz ->
  getDecodedValue ptr pos siz = None.
Proof.
  intros Hp Hs Hb. unfold getDecodedValue.
  destruct (siz <=? 64); [|reflexivity].
  apply getField_outside; lia.
Qed.

Lemma getDecodedValue_Some_inside (ptr : list Z) (pos siz v : Z) :
  0 <= pos -> 0 < siz -> getDecodedValue ptr pos siz = Some v ->
  pos + siz <= bitLength ptr /\ siz <= 64.
Proof.
  intros Hp Hs H. split.
  - destruct (Z.lt_ge_cases (bitLength ptr) (pos + siz)) as [Hlt|]; [|lia].
    rewrite getDecodedValue_outside in H by assumption. discriminate.
  - unfold getDecodedValue in H. destruct (Z.leb_spec siz 64); [lia|discriminate].
Qed.

Lemma getDecodedValue_spec (ptr : list Z) (pos siz v : Z) :
  0 <= siz -> getDecodedValue ptr pos siz = Some v ->
  0 <= v < 2 ^ siz
  /\ forall k, 0 <= k < siz ->
               getBit ptr (pos + siz - 1 - k) = Some (Z.testbit v k).
Proof.
  intros Hs. unfold getDecodedValue. destruct (siz <=? 64); [|discriminate].
  intros H. destruct (getField_spec _ _ _ _ _ H) as (u & Hv & Hu & Hbits).
  rewrite Z2Nat.id in * by assumption.
  assert (v = u) as -> by lia. split; assumption.
Qed.

Lemma getDecodedValue_agree (ptr1 ptr2 : list Z) (pos siz : Z) :
  0 <= siz ->
  (forall j, pos <= j < pos + siz -> getBit ptr2 j = getBit ptr1 j) ->
  getDecodedValue ptr2 pos siz = getDecodedValue ptr1 pos siz.
Proof.
  intros Hs H. unfold getDecodedValue. destruct (siz <=? 64); [|reflexivity].
  apply getField_agree. now rewrite Z2Nat.id.
Qed.

(** Reading back a field whose bits are those of [val]: the low [siz] bits of
    [val]. *)
Lemma getDecodedValue_of_bits (ptr : list Z) (pos siz val : Z) :
  0 <= pos -> 0 <= siz <= 64 ->
  (forall j, pos <= j < pos + siz ->
             getBit ptr j = Some (Z.testbit val (pos + siz - 1 - j))) ->
  getDecodedValue ptr pos siz = Some (val mod 2 ^ siz).
Proof.
  intros Hp Hs Hbits.
  assert (Hin : siz = 0 \/ pos + siz <= bitLength ptr).
  { destruct (Z.eq_dec siz 0); [now left|right].
    specialize (Hbits (pos + siz - 1) ltac:(lia)).
    apply getBit_Some_inside in Hbits; lia. }
  assert (Hv : exists v, getDecodedValue ptr pos siz = Some v).
  { destruct Hin as [->|Hin]; [now exists 0|].
    now apply getDecodedValue_inside. }
  destruct Hv as [v Hv]. rewrite Hv. f_equal.
  destruct (getDecodedValue_spec _ _ _ _ (proj1 Hs) Hv) as [Hr Hb].
  apply low_bits_eq; [assumption|]. intros k Hk.
  specialize (Hb k Hk). rewrite Hbits in Hb by lia.
  injection Hb as Hb. rewrite <- Hb. f_equal. lia.
Qed.

Lemma setField_outside (n : nat) : forall (ptr : list Z) (pos val : Z),
  0 <= pos -> (0 < n)%nat -> bitLength ptr < pos + Z.of_nat n ->
  setField ptr pos n val = None.
Proof.
  induction n as [|n IH]; simpl; intros ptr pos val Hp Hn Hb; [lia|].
  destruct (setBit ptr pos (Z.testbit val (Z.of_nat n))) as [p1|] eqn:E;
    simpl; [|reflexivity].
  assert (Hin : pos < bitLength ptr).
  { pose proof (getBit_setBit_same _ _ _ _ Hp E) as G.
    apply getBit_Some_inside in G; [|assumption].
    unfold bitLength in *. now rewrite <- (setBit_length _ _ _ _ E). }
  apply IH; [lia|lia|].
  unfold bitLength in *. rewrite (setBit_length _ _ _ _ E). lia.
Qed.

Lemma setDecodedValue_Some_inside (ptr ptr' : list Z) (pos siz val : Z) :
  0 <= pos -> 0 < siz -> setDecodedValue ptr pos siz val = Some ptr' ->
  pos + siz <= bitLength ptr /\ siz <= 64.
Proof.
  intros Hp Hs H. unfold setDecodedValue in H.
  destruct (Z.leb_spec siz 64); [|discriminate]. split; [|assumption].
  destruct (Z.lt_ge_cases (bitLength ptr) (pos + siz)) as [Hlt|]; [|lia].
  rewrite setField_outside in H by lia. discriminate.
Qed.

Lemma testbit_one (k : Z) : Z.testbit 1 k = (k =? 0).
Proof.
  destruct (Z.eqb_spec k 0) as [->|Hne]; [reflexivity|].
  destruct (Z.lt_ge_cases k 0); [now apply Z.testbit_neg_r|].
  apply testbit_small with (n := 1); lia.
Qed.

Lemma testbit_zero (k : Z) : Z.testbit 0 k = false.
Proof. apply Z.testbit_0_l. Qed.

(** ** Unary encoding *)

Lemma sameOutside_bitLength (ptr ptr' : list Z) (pos siz : Z) :
  sameOutside ptr ptr' pos siz -> bitLength ptr' = bitLength ptr.
Proof. intros [H _]. unfold bitLength. now rewrite H. Qed.

Lemma setUnary_loop_spec (fuel : nat) :
  forall (ptr ptr1 : list Z) (pos val pos1 val1 : Z),
  0 <= pos -> 0 <= val -> bitLength ptr < 2 ^ 64 ->
  setUnary_loop fuel ptr pos val = Some (ptr1, pos1, val1) ->
  pos1 = pos + 64 * (val / 64) /\ val1 = val mod 64
  /\ (forall j, pos <= j < pos1 -> getBit ptr1 j = Some false)
  /\ sameOutside ptr ptr1 pos (pos1 - pos).
Proof.
  induction fuel as [|fuel IH]; intros ptr ptr1 pos val pos1 val1 Hp Hv Hb H.
  - simpl in H. destruct (Z.leb_spec 64 val); [discriminate|].
    injection H as <- <- <-.
    rewrite Z.div_small, Z.mod_small by lia.
    split; [lia|]. split; [reflexivity|]. split; [lia|]. now split.
  - simpl in H. destruct (Z.leb_spec 64 val) as [Hge|Hlt].
    + destruct (setDecodedValue ptr pos 64 uint64ZERO) as [p1|] eqn:E;
        simpl in H; [|discriminate].
      destruct (setDecodedValue_Some_inside ptr p1 pos 64 _ Hp ltac:(lia) E) as [Hin _].
      destruct (setDecodedValue_bits ptr p1 pos 64 _ Hp ltac:(lia) E) as [Hbits Hframe].
      pose proof (setDecodedValue_length _ _ _ _ _ E) as Hlen.
      pose proof (setDecodedValue_bitLength _ _ _ _ _ E) as Hbl.
      rewrite wrap64_small in H by lia.
      apply IH in H; [|lia|lia|lia].
      destruct H as (-> & -> & Hz & Hlen1 & Hout).
      assert (Hd : val / 64 = (val - 64) / 64 + 1) by divmod.
      assert (Hq : 0 <= (val - 64) / 64) by divmod.
      split; [lia|]. split; [divmod|]. split; [|split].
      * intros j Hj. destruct (Z.lt_ge_cases j (pos + 64)).
        -- rewrite Hout by lia. rewrite Hbits by lia.
           unfold uint64ZERO. now rewrite testbit_zero.
        -- apply Hz. lia.
      * congruence.
      * intros j Hj Hn. destruct (Z.lt_ge_cases j (pos + 64)).
        -- rewrite Hout by lia. apply Hframe; lia.
        -- rewrite Hout by lia. apply Hframe; lia.
    + injection H as <- <- <-.
      rewrite Z.div_small, Z.mod_small by lia.
      split; [lia|]. split; [reflexivity|]. split; [lia|]. now split.
Qed.

Lemma setUnary_loop_inside (fuel : nat) :
  forall (ptr : list Z) (pos val : Z),
  0 <= pos -> 0 <= val -> val / 64 <= Z.of_nat fuel ->
  pos + 64 * (val / 64) <= bitLength ptr ->
  exists r, setUnary_loop fuel ptr pos val = Some r.
Proof.
  induction fuel as [|fuel IH]; intros ptr pos val Hp Hv Hf Hb.
  - simpl. destruct (Z.leb_spec 64 val); [divmod|eauto].
  - simpl. destruct (Z.leb_spec 64 val) as [Hge|Hlt]; [|eauto].
    assert (Hd : val / 64 = (val - 64) / 64 + 1) by divmod.
    assert (Hq : 0 <= (val - 64) / 64) by divmod.
    destruct (setDecodedValue_inside ptr pos 64 uint64ZERO) as [p1 E]; [lia..|].
    rewrite E. simpl.
    pose proof (setDecodedValue_bitLength _ _ _ _ _ E) as Hbl.
    assert (Hw : 0 <= wrap64 (pos + 64) <= pos + 64).
    { unfold wrap64. pose proof (Z.mod_pos_bound (pos + 64) (2 ^ 64) ltac:(lia)).
      pose proof (Z.mod_le (pos + 64) (2 ^ 64) ltac:(lia) ltac:(lia)). lia. }
    apply IH; lia.
Qed.

Lemma setUnaryEncodedNumber_spec (ptr ptr' : list Z) (pos val siz : Z) :
  0 <= pos -> 0 <= val -> bitLength ptr < 2 ^ 64 ->
  setUnaryEncodedNumber ptr pos val = Some (ptr', siz) ->
  siz = val + 1 /\ pos + val + 1 <= bitLength ptr
  /\ unaryAt ptr' pos val /\ sameOutside ptr ptr' pos (val + 1).
Proof.
  intros Hp Hv Hb H. unfold setUnaryEncodedNumber in H.
  destruct (setUnary_loop (Z.to_nat (val / 64)) ptr pos val)
    as [[[p1 pos1] val1]|] eqn:E; simpl in H; [|discriminate].
  apply setUnary_loop_spec in E; [|assumption..].
  destruct E as (-> & -> & Hz & Hlen1 & Hout).
  assert (Hm : 0 <= val mod 64 < 64) by divmod.
  assert (Hq : 0 <= val / 64) by divmod.
  assert (Hs : pos + 64 * (val / 64) + val mod 64 = pos + val) by divmod.
  rewrite (wrap64_small (val mod 64 + 1)) in H by lia.
  destruct (setDecodedValue p1 (pos + 64 * (val / 64)) (val mod 64 + 1) uint64ONE)
    as [p2|] eqn:E2; simpl in H; [|discriminate].
  injection H as <- <-.
  pose proof (setDecodedValue_length _ _ _ _ _ E2) as Hlen2.
  apply setDecodedValue_Some_inside in E2 as Hin; [|lia..].
  apply setDecodedValue_bits in E2 as [Hbits Hframe]; [|lia..].
  destruct Hin as [Hin _].
  assert (Hbl : bitLength p1 = bitLength ptr) by (unfold bitLength; congruence).
  split; [apply wrap64_small; lia|]. split; [lia|]. split; [split|split].
  - intros j Hj. destruct (Z.lt_ge_cases j (pos + 64 * (val / 64))).
    + rewrite Hframe by lia. apply Hz. lia.
    + rewrite Hbits by lia. unfold uint64ONE. rewrite testbit_one.
      f_equal. apply Z.eqb_neq. lia.
  - rewrite Hbits by lia. unfold uint64ONE. rewrite testbit_one.
    f_equal. apply Z.eqb_eq. lia.
  - congruence.
  - intros j Hj Hn. rewrite Hframe by lia. apply Hout; lia.
Qed.

Lemma setUnary_loop_bounds (fuel : nat) :
  forall (ptr p1 : list Z) (pos val pos1 val1 : Z),
  0 <= pos -> 0 <= val -> pos + val + 1 <= bitLength ptr ->
  setUnary_loop fuel ptr pos val = Some (p1, pos1, val1) ->
  pos1 + val1 + 1 <= bitLength p1 /\ 0 <= pos1 /\ 0 <= val1 < 64.
Proof.
  induction fuel as [|fuel IH]; intros ptr p1 pos val pos1 val1 Hp Hv Hb E;
    simpl in E.
  - destruct (Z.leb_spec 64 val); [discriminate|]. injection E as <- <- <-. lia.
  - destruct (Z.leb_spec 64 val); [|injection E as <- <- <-; lia].
    destruct (setDecodedValue ptr pos 64 uint64ZERO) as [q|] eqn:Eq;
      simpl in E; [|discriminate].
    pose proof (setDecodedValue_bitLength _ _ _ _ _ Eq) as Hbl.
    assert (Hw : 0 <= wrap64 (pos + 64) <= pos + 64).
    { unfold wrap64.
      pose proof (Z.mod_pos_bound (pos + 64) (2 ^ 64) ltac:(lia)).
      pose proof (Z.mod_le (pos + 64) (2 ^ 64) ltac:(lia) ltac:(lia)). lia. }
    apply IH in E; lia.
Qed.

Lemma setUnaryEncodedNumber_inside (ptr : list Z) (pos val : Z) :
  0 <= pos -> 0 <= val -> pos + val + 1 <= bitLength ptr ->
  exists r, setUnaryEncodedNumber ptr pos val = Some r.
Proof.
  intros Hp Hv Hb. unfold setUnaryEncodedNumber.
  assert (Hq : 0 <= val / 64) by divmod.
  assert (Hs : 64 * (val / 64) <= val) by divmod.
  destruct (setUnary_loop_inside (Z.to_nat (val / 64)) ptr pos val)
    as [[[p1 pos1] val1] E]; [lia..|].
  rewrite E. simpl.
  destruct (setUnary_loop_bounds _ _ _ _ _ _ _ Hp Hv Hb E) as (G1 & G2 & G3).
  rewrite (wrap64_small (val1 + 1)) by lia.
  destruct (setDecodedValue_inside p1 pos1 (val1 + 1) uint64ONE) as [p2 E2]; [lia..|].
  rewrite E2. simpl. eauto.
Qed.

Lemma unary_field_zero (ptr : list Z) (pos n enc : Z) :
  unaryAt ptr pos n -> 64 <= n ->
  getDecodedValue ptr pos 64 = Some enc -> enc = 0.
Proof.
  intros [Hz _] Hn H.
  apply getDecodedValue_spec in H as [Hr Hbits]; [|lia].
  rewrite <- (Z.mod_0_l (2 ^ 64)) by lia.
  apply low_bits_eq; [assumption|]. intros k Hk.
  specialize (Hbits k Hk). rewrite Hz in Hbits by lia.
  injection Hbits as <-. now rewrite testbit_zero.
Qed.

Lemma unary_field_one (ptr : list Z) (pos n enc : Z) :
  unaryAt ptr pos n -> 0 <= n < 64 ->
  getDecodedValue ptr pos 64 = Some enc ->
  enc <> 0 /\ logBaseTwo64 enc = 64 - n.
Proof.
  intros [Hz Ho] Hn H.
  apply getDecodedValue_spec in H as [Hr Hbits]; [|lia].
  assert (Hone : Z.testbit enc (63 - n) = true).
  { specialize (Hbits (63 - n) ltac:(lia)).
    replace (pos + 64 - 1 - (63 - n)) with (pos + n) in Hbits by lia.
    rewrite Ho in Hbits. now injection Hbits as <-. }
  assert (Hzero : forall k, 63 - n < k < 64 -> Z.testbit enc k = false).
  { intros k Hk. specialize (Hbits k ltac:(lia)).
    rewrite Hz in Hbits by lia. now injection Hbits as <-. }
  assert (Hne : enc <> 0).
  { intros ->. rewrite testbit_zero in Hone. discriminate. }
  split; [assumption|]. unfold logBaseTwo64.
  destruct (Z.eqb_spec enc 0); [contradiction|].
  rewrite (log2_top_bit enc 64 (63 - n)); [lia|assumption|lia|assumption..].
Qed.

Lemma unaryAt_shift (ptr : list Z) (pos n : Z) :
  unaryAt ptr pos n -> 64 <= n -> unaryAt ptr (pos + 64) (n - 64).
Proof.
  intros [Hz Ho] Hn. split.
  - intros j Hj. apply Hz. lia.
  - rewrite <- Ho. f_equal. lia.
Qed.

Lemma getUnary_loop_unaryAt (fuel : nat) :
  forall (ptr : list Z) (pos val enc n : Z),
  0 <= pos -> 0 <= n -> 0 <= val -> val + n < 2 ^ 64 ->
  unaryAt ptr pos n ->
  pos + 64 * (n / 64 + 1) <= bitLength ptr -> bitLength ptr < 2 ^ 64 ->
  n / 64 <= Z.of_nat fuel ->
  getDecodedValue ptr pos 64 = Some enc ->
  exists enc', getUnary_loop fuel ptr pos val enc = Some (val + 64 * (n / 64), enc')
               /\ logBaseTwo64 enc' = 64 - n mod 64.
Proof.
  induction fuel as [|fuel IH];
    intros ptr pos val enc n Hp Hn Hv Hvn Hu Hb Hb64 Hf He.
  - assert (n < 64) by divmod.
    destruct (unary_field_one _ _ _ _ Hu ltac:(lia) He) as [Hne Hlog].
    exists enc. simpl. unfold uint64ZERO.
    destruct (Z.eqb_spec enc 0); [contradiction|].
    rewrite Z.div_small, Z.mod_small by lia. split; [f_equal; f_equal; lia|assumption].
  - destruct (Z.lt_ge_cases n 64) as [Hlt|Hge].
    + destruct (unary_field_one _ _ _ _ Hu ltac:(lia) He) as [Hne Hlog].
      exists enc. simpl. unfold uint64ZERO.
      destruct (Z.eqb_spec enc 0); [contradiction|].
      rewrite Z.div_small, Z.mod_small by lia.
      split; [f_equal; f_equal; lia|assumption].
    + pose proof (unary_field_zero _ _ _ _ Hu Hge He) as ->.
      assert (Hd : n / 64 = (n - 64) / 64 + 1) by divmod.
      assert (Hq : 0 <= (n - 64) / 64) by divmod.
      assert (Hm : n mod 64 = (n - 64) mod 64) by divmod.
      simpl. rewrite !wrap64_small by lia.
      destruct (getDecodedValue_inside ptr (pos + 64) 64) as [enc1 E1]; [lia..|].
      rewrite E1. simpl.
      destruct (IH ptr (pos + 64) (val + 64) enc1 (n - 64)) as (enc' & Hl & Hlog);
        [lia..|now apply unaryAt_shift|lia|lia|lia|assumption|].
      exists enc'. rewrite Hl. split; [f_equal; f_equal; lia|]. now rewrite Hm.
Qed.

(** The decoder returns [n] for the unary code of [n], when the array holds
    the 64-bit fields it fetches. *)
Lemma getUnaryEncodedNumber_unaryAt (ptr : list Z) (pos n : Z) :
  0 <= pos -> 0 <= n -> unaryAt ptr pos n ->
  pos + 64 * (n / 64 + 1) <= bitLength ptr -> bitLength ptr < 2 ^ 64 ->
  getUnaryEncodedNumber ptr pos = Some (n, n + 1).
Proof.
  intros Hp Hn Hu Hb Hb64. unfold getUnaryEncodedNumber.
  assert (Hq : 0 <= n / 64) by divmod.
  assert (Hm : 0 <= n mod 64 < 64) by divmod.
  assert (Hs : 64 * (n / 64) + n mod 64 = n) by divmod.
  assert (Hnb : n + 64 < 2 ^ 64) by lia.
  destruct (getDecodedValue_inside ptr pos 64) as [enc E]; [lia..|].
  rewrite E. simpl.
  destruct (getUnary_loop_unaryAt (length ptr) ptr pos uint64ZERO enc n)
    as (enc' & Hl & Hlog); unfold uint64ZERO; try assumption; try lia.
  { unfold bitLength in Hb. lia. }
  unfold uint64ZERO in Hl. rewrite Z.add_0_l in Hl. rewrite Hl. simpl. rewrite Hlog.
  rewrite (wrap64_small (64 - (64 - n mod 64))) by lia.
  rewrite (wrap64_small (64 * (n / 64) + (64 - (64 - n mod 64)))) by lia.
  replace (64 * (n / 64) + (64 - (64 - n mod 64))) with n by lia.
  now rewrite wrap64_small by lia.
Qed.

Lemma unaryAt_same (ptr ptr' : list Z) (pos n siz : Z) :
  unaryAt ptr pos n -> 0 <= n < siz -> sameInside ptr ptr' pos siz ->
  unaryAt ptr' pos n.
Proof.
  intros [Hz Ho] Hn Hs. split.
  - intros j Hj. rewrite Hs by lia. now apply Hz.
  - rewrite Hs by lia. assumption.
Qed.

(** Encoding and then decoding, on any array that has the bits of the code
    and holds the 64-bit fields the decoder fetches. *)
Lemma unary_encode_decode (ptr : list Z) (pos n : Z) :
  0 <= pos -> 0 <= n ->
  pos + n + 1 <= bitLength ptr -> bitLength ptr < 2 ^ 64 ->
  exists ptr',
    setUnaryEncodedNumber ptr pos n = Some (ptr', n + 1)
    /\ unaryAt ptr' pos n
    /\ sameOutside ptr ptr' pos (n + 1)
    /\ forall ptr2,
         sameInside ptr' ptr2 pos (n + 1) ->
         pos + 64 * (n / 64 + 1) <= bitLength ptr2 -> bitLength ptr2 < 2 ^ 64 ->
         getUnaryEncodedNumber ptr2 pos = Some (n, n + 1).
Proof.
  intros Hp Hn Hb Hb64.
  destruct (setUnaryEncodedNumber_inside ptr pos n Hp Hn Hb) as [[ptr' siz] E].
  destruct (setUnaryEncodedNumber_spec _ _ _ _ _ Hp Hn Hb64 E)
    as (-> & _ & Hu & Hout).
  exists ptr'. split; [assumption|]. split; [assumption|].
  split; [assumption|]. intros ptr2 Hs Hd Hd64.
  apply getUnaryEncodedNumber_unaryAt; try assumption.
  apply (unaryAt_same ptr' ptr2 pos n (n + 1)); [assumption|lia|assumption].
Qed.

(** C1: for every n >= 0, on an array that is large enough,
    [setUnaryEncodedNumber] writes n zero bits and then a one bit from bit
    [pos] on, leaves the other bits alone and reports the size n + 1; when
    the array also holds the 64-bit fields the decoder fetches,
    [getUnaryEncodedNumber] at the same offset returns n and the size n + 1.
    The code of 0 is the single bit 1 (size 1), the code of 4 is 00001
    (size 5). *)
Theorem C1_unary_encode_decode (ptr : list Z) (pos n : Z) :
  0 <= pos -> 0 <= n ->
  pos + n + 1 <= bitLength ptr -> bitLength ptr < 2 ^ 64 ->
  (exists ptr',
      setUnaryEncodedNumber ptr pos n = Some (ptr', n + 1)
      /\ (forall j, pos <= j < pos + n -> getBit ptr' j = Some false)
      /\ getBit ptr' (pos + n) = Some true
      /\ sameOutside ptr ptr' pos (n + 1)
      /\ (pos + 64 * (n / 64 + 1) <= bitLength ptr ->
          getUnaryEncodedNumber ptr' pos = Some (n, n + 1)))
  /\ encodedBits setUnaryEncodedNumber [0] 0 0 = Some ([true], 1)
  /\ encodedBits setUnaryEncodedNumber [2 ^ 64 - 1] 0 4
     = Some ([false; false; false; false; true], 5).
Proof.
  intros Hp Hn Hb Hb64. split; [|split; reflexivity].
  destruct (unary_encode_decode ptr pos n Hp Hn Hb Hb64)
    as (ptr' & E & Hu & Hout & D).
  exists ptr'. split; [assumption|]. split; [apply Hu|]. split; [apply Hu|].
  split; [assumption|]. intros Hd.
  pose proof (sameOutside_bitLength _ _ _ _ Hout) as Hbl.
  apply D; [intros j Hj; reflexivity|lia..].
Qed.

Lemma C1_unary_encode_decode_witness :
  (exists ptr',
      setUnaryEncodedNumber [0; 2 ^ 64 - 1; 5] 60 70 = Some (ptr', 70 + 1)
      /\ (forall j, 60 <= j < 60 + 70 -> getBit ptr' j = Some false)
      /\ getBit ptr' (60 + 70) = Some true
      /\ sameOutside [0; 2 ^ 64 - 1; 5] ptr' 60 (70 + 1)
      /\ (60 + 64 * (70 / 64 + 1) <= bitLength [0; 2 ^ 64 - 1; 5] ->
          getUnaryEncodedNumber ptr' 60 = Some (70, 70 + 1)))
  /\ encodedBits setUnaryEncodedNumber [0] 0 0 = Some ([true], 1)
  /\ encodedBits setUnaryEncodedNumber [2 ^ 64 - 1] 0 4
     = Some ([false; false; false; false; true], 5).
Proof.
  apply (C1_unary_encode_decode [0; 2 ^ 64 - 1; 5] 60 70).
  - lia.
  - lia.
  - vm_compute. discriminate.
  - vm_compute. reflexivity.
Defined.

(** ** Elias gamma encoding *)

Lemma logBaseTwo64_pos (x : Z) : 0 < x -> logBaseTwo64 x = Z.log2 x + 1.
Proof. intros H. unfold logBaseTwo64. destruct (Z.eqb_spec x 0); lia. Qed.

Lemma logBaseTwo64_range (x : Z) : 0 <= x < 2 ^ 64 -> 0 <= logBaseTwo64 x <= 64.
Proof.
  intros H. unfold logBaseTwo64. destruct (Z.eqb_spec x 0); [lia|].
  pose proof (Z.log2_nonneg x).
  assert (Z.log2 x < 64) by (apply Z.log2_lt_pow2; lia). lia.
Qed.

Lemma logBaseTwo64_above (x : Z) : 0 <= x -> x < 2 ^ logBaseTwo64 x.
Proof.
  intros H. unfold logBaseTwo64. destruct (Z.eqb_spec x 0) as [->|]; [reflexivity|].
  apply Z.log2_spec. lia.
Qed.

Lemma setDecodedValue_fieldAt (ptr ptr' : list Z) (pos siz val : Z) :
  0 <= pos -> 0 <= siz -> setDecodedValue ptr pos siz val = Some ptr' ->
  fieldAt ptr' pos siz val /\ sameOutside ptr ptr' pos siz.
Proof.
  intros Hp Hs H. pose proof (setDecodedValue_length _ _ _ _ _ H) as Hlen.
  apply setDecodedValue_bits in H as [Hin Hout]; [|assumption..].
  split; [exact Hin|]. now split.
Qed.

Lemma getDecodedValue_fieldAt (ptr : list Z) (pos siz val : Z) :
  0 <= pos -> 0 <= siz <= 64 -> fieldAt ptr pos siz val ->
  getDecodedValue ptr pos siz = Some (val mod 2 ^ siz).
Proof. intros Hp Hs H. now apply getDecodedValue_of_bits. Qed.

Lemma fieldAt_same (ptr ptr' : list Z) (pos siz val p0 s0 : Z) :
  fieldAt ptr pos siz val -> p0 <= pos -> pos + siz <= p0 + s0 ->
  sameInside ptr ptr' p0 s0 -> fieldAt ptr' pos siz val.
Proof.
  intros Hf H1 H2 Hs j Hj. rewrite Hs by lia. now apply Hf.
Qed.

(** What the gamma encoder writes, with [b = logBaseTwo64 val]: the unary
    code of [b], then the low [b] bits of [val]. *)
Lemma setEliasGammaEncodedNumber_spec (ptr ptr' : list Z) (pos val siz : Z) :
  0 <= pos -> 0 <= val < 2 ^ 64 -> bitLength ptr < 2 ^ 64 ->
  setEliasGammaEncodedNumber ptr pos val = Some (ptr', siz) ->
  siz = 2 * logBaseTwo64 val + 1 /\ pos + siz <= bitLength ptr
  /\ unaryAt ptr' pos (logBaseTwo64 val)
  /\ fieldAt ptr' (pos + logBaseTwo64 val + 1) (logBaseTwo64 val) val
  /\ sameOutside ptr ptr' pos siz.
Proof.
  intros Hp Hv Hb H. unfold setEliasGammaEncodedNumber in H.
  pose proof (logBaseTwo64_range val Hv) as Hl.
  remember (logBaseTwo64 val) as b eqn:Eb.
  destruct (setUnaryEncodedNumber ptr pos b) as [[p1 siz1]|] eqn:E1;
    simpl in H; [|discriminate].
  apply setUnaryEncodedNumber_spec in E1 as (-> & Hin1 & Hu & Hlen1 & Hout1);
    [|lia..].
  rewrite (wrap64_small (pos + (b + 1))) in H by lia.
  destruct (setDecodedValue p1 (pos + (b + 1)) b val) as [p2|] eqn:E2;
    simpl in H; [|discriminate].
  injection H as <- <-.
  assert (Hbl : bitLength p1 = bitLength ptr) by (unfold bitLength; congruence).
  assert (Hin2 : pos + (b + 1) + b <= bitLength ptr).
  { destruct (Z.eq_dec b 0) as [->|]; [lia|].
    apply setDecodedValue_Some_inside in E2; lia. }
  apply setDecodedValue_fieldAt in E2 as (Hf & Hlen2 & Hout2); [|lia..].
  rewrite wrap64_small by lia.
  split; [lia|]. split; [lia|]. split; [|split; [|split]].
  - destruct Hu as [Hz Ho]. split.
    + intros j Hj. rewrite Hout2 by lia. now apply Hz.
    + rewrite Hout2 by lia. assumption.
  - replace (pos + b + 1) with (pos + (b + 1)) by lia. exact Hf.
  - congruence.
  - intros j Hj Hn. rewrite Hout2 by lia. apply Hout1; lia.
Qed.

Lemma setEliasGammaEncodedNumber_inside (ptr : list Z) (pos val : Z) :
  0 <= pos -> 0 <= val < 2 ^ 64 ->
  pos + (2 * logBaseTwo64 val + 1) <= bitLength ptr -> bitLength ptr < 2 ^ 64 ->
  exists r, setEliasGammaEncodedNumber ptr pos val = Some r.
Proof.
  intros Hp Hv Hin Hb. unfold setEliasGammaEncodedNumber.
  pose proof (logBaseTwo64_range val Hv) as Hl.
  remember (logBaseTwo64 val) as b eqn:Eb.
  destruct (setUnaryEncodedNumber_inside ptr pos b) as [[p1 siz1] E1]; [lia..|].
  rewrite E1. simpl.
  apply setUnaryEncodedNumber_spec in E1 as (-> & Hin1 & Hu & Hlen1 & Hout1);
    [|lia..].
  rewrite (wrap64_small (pos + (b + 1))) by lia.
  assert (Hbl : bitLength p1 = bitLength ptr) by (unfold bitLength; congruence).
  destruct (setDecodedValue_inside p1 (pos + (b + 1)) b val) as [p2 E2]; [lia..|].
  rewrite E2. simpl. eauto.
Qed.

(** The gamma decoder on the unary code of [b] followed by a [b]-bit field. *)
Lemma getEliasGammaEncodedNumber_of (ptr : list Z) (pos b val : Z) :
  0 <= pos -> 0 <= b <= 64 ->
  unaryAt ptr pos b -> fieldAt ptr (pos + b + 1) b val ->
  pos + 64 * (b / 64 + 1) <= bitLength ptr -> bitLength ptr < 2 ^ 64 ->
  getEliasGammaEncodedNumber ptr pos = Some (val mod 2 ^ b, 2 * b + 1).
Proof.
  intros Hp Hb Hu Hf Hin Hb64. unfold getEliasGammaEncodedNumber.
  rewrite (getUnaryEncodedNumber_unaryAt ptr pos b) by (assumption || lia).
  simpl.
  assert (Hq : b < 64 * (b / 64 + 1)) by divmod.
  rewrite (wrap64_small (pos + (b + 1))) by lia.
  replace (pos + (b + 1)) with (pos + b + 1) by lia.
  rewrite (getDecodedValue_fieldAt ptr (pos + b + 1) b val) by (assumption || lia).
  simpl. rewrite wrap64_small by lia. do 2 f_equal. lia.
Qed.

Lemma gamma_encode_decode (ptr : list Z) (pos n : Z) :
  0 <= pos -> 0 <= n < 2 ^ 64 ->
  pos + (2 * logBaseTwo64 n + 1) <= bitLength ptr ->
  bitLength ptr < 2 ^ 64 ->
  exists ptr',
    setEliasGammaEncodedNumber ptr pos n = Some (ptr', 2 * logBaseTwo64 n + 1)
    /\ unaryAt ptr' pos (logBaseTwo64 n)
    /\ fieldAt ptr' (pos + logBaseTwo64 n + 1) (logBaseTwo64 n) n
    /\ sameOutside ptr ptr' pos (2 * logBaseTwo64 n + 1)
    /\ forall ptr2,
         sameInside ptr' ptr2 pos (2 * logBaseTwo64 n + 1) ->
         pos + 64 * (logBaseTwo64 n / 64 + 1) <= bitLength ptr2 ->
         bitLength ptr2 < 2 ^ 64 ->
         getEliasGammaEncodedNumber ptr2 pos
         = Some (n, 2 * logBaseTwo64 n + 1).
Proof.
  intros Hp Hn Hin Hb64.
  destruct (setEliasGammaEncodedNumber_inside ptr pos n) as [[ptr' siz] E];
    [assumption..|].
  destruct (setEliasGammaEncodedNumber_spec _ _ _ _ _ Hp Hn Hb64 E)
    as (-> & _ & Hu & Hf & Hout).
  exists ptr'. split; [assumption|]. split; [assumption|]. split; [assumption|].
  split; [assumption|]. intros ptr2 Hs Hd Hd64.
  pose proof (logBaseTwo64_range n Hn) as Hl.
  rewrite (getEliasGammaEncodedNumber_of ptr2 pos (logBaseTwo64 n) n);
    try assumption; try lia.
  - do 2 f_equal. apply Z.mod_small. split; [lia|].
    apply logBaseTwo64_above. lia.
  - apply (unaryAt_same ptr' ptr2 pos _ (2 * logBaseTwo64 n + 1));
      [assumption|lia|assumption].
  - apply (fieldAt_same ptr' ptr2 _ _ _ pos (2 * logBaseTwo64 n + 1));
      [assumption|lia|lia|assumption].
Qed.

(** C3: for every n with 1 <= n < 2^64, on an array that holds the code and
    the 64-bit fields the decoder fetches, [getEliasGammaEncodedNumber] at
    the offset where [setEliasGammaEncodedNumber] wrote the code of n returns
    n and the size the encoder reported. *)
Theorem C3_gamma_roundtrip (ptr : list Z) (pos n : Z) :
  0 <= pos -> 1 <= n < 2 ^ 64 ->
  pos + (2 * logBaseTwo64 n + 1) <= bitLength ptr ->
  pos + 64 * (logBaseTwo64 n / 64 + 1) <= bitLength ptr ->
  bitLength ptr < 2 ^ 64 ->
  exists ptr' siz,
    setEliasGammaEncodedNumber ptr pos n = Some (ptr', siz)
    /\ getEliasGammaEncodedNumber ptr' pos = Some (n, siz).
Proof.
  intros Hp Hn Hin Hd Hb64.
  destruct (gamma_encode_decode ptr pos n) as (ptr' & E & _ & _ & Hout & D);
    [assumption|lia|assumption..|].
  pose proof (sameOutside_bitLength _ _ _ _ Hout) as Hbl.
  exists ptr', (2 * logBaseTwo64 n + 1). split; [exact E|].
  apply D; [intros j Hj; reflexivity|lia..].
Qed.

Lemma C3_gamma_roundtrip_witness :
  exists ptr' siz,
    setEliasGammaEncodedNumber [0; 2 ^ 64 - 1; 5] 60 1000 = Some (ptr', siz)
    /\ getEliasGammaEncodedNumber ptr' 60 = Some (1000, siz).
Proof.
  apply (C3_gamma_roundtrip [0; 2 ^ 64 - 1; 5] 60 1000).
  - lia.
  - lia.
  - vm_compute. discriminate.
  - vm_compute. discriminate.
  - vm_compute. reflexivity.
Defined.

(** C6, as the code has it: for every n with 1 <= n < 2^64,
    [setEliasGammaEncodedNumber] writes the unary code of the bit length
    b = floor(log2 n) + 1 of n, then all b bits of n, the leading one bit
    included, and reports the size 2 b + 1 = 2 floor(log2 n) + 3.  The code
    of 1 is 01 followed by 1 (size 3), the code of 4 is 0001 followed by 100
    (size 7). *)
Theorem C6_gamma_layout (ptr : list Z) (pos n : Z) :
  0 <= pos -> 1 <= n < 2 ^ 64 ->
  pos + (2 * Z.log2 n + 3) <= bitLength ptr -> bitLength ptr < 2 ^ 64 ->
  (exists ptr',
      setEliasGammaEncodedNumber ptr pos n = Some (ptr', 2 * Z.log2 n + 3)
      /\ unaryAt ptr' pos (Z.log2 n + 1)
      /\ fieldAt ptr' (pos + Z.log2 n + 2) (Z.log2 n + 1) n
      /\ getBit ptr' (pos + Z.log2 n + 2) = Some true
      /\ sameOutside ptr ptr' pos (2 * Z.log2 n + 3))
  /\ encodedBits setEliasGammaEncodedNumber [0] 0 1 = Some ([false; true; true], 3)
  /\ encodedBits setEliasGammaEncodedNumber [0] 0 4
     = Some ([false; false; false; true; true; false; false], 7).
Proof.
  intros Hp Hn Hin Hb64. split; [|split; reflexivity].
  pose proof (logBaseTwo64_pos n ltac:(lia)) as Hl.
  destruct (gamma_encode_decode ptr pos n) as (ptr' & E & Hu & Hf & Hout & _);
    [assumption|lia|lia|assumption|].
  rewrite Hl in *.
  replace (2 * (Z.log2 n + 1) + 1) with (2 * Z.log2 n + 3) in * by lia.
  replace (pos + (Z.log2 n + 1) + 1) with (pos + Z.log2 n + 2) in * by lia.
  exists ptr'. split; [assumption|]. split; [assumption|]. split; [assumption|].
  split; [|assumption].
  pose proof (Z.log2_nonneg n).
  rewrite Hf by lia.
  replace (pos + Z.log2 n + 2 + (Z.log2 n + 1) - 1 - (pos + Z.log2 n + 2))
    with (Z.log2 n) by lia.
  f_equal. apply Z.bit_log2. lia.
Qed.

Lemma C6_gamma_layout_witness :
  (exists ptr',
      setEliasGammaEncodedNumber [0; 2 ^ 64 - 1] 60 1000
      = Some (ptr', 2 * Z.log2 1000 + 3)
      /\ unaryAt ptr' 60 (Z.log2 1000 + 1)
      /\ fieldAt ptr' (60 + Z.log2 1000 + 2) (Z.log2 1000 + 1) 1000
      /\ getBit ptr' (60 + Z.log2 1000 + 2) = Some true
      /\ sameOutside [0; 2 ^ 64 - 1] ptr' 60 (2 * Z.log2 1000 + 3))
  /\ encodedBits setEliasGammaEncodedNumber [0] 0 1 = Some ([false; true; true], 3)
  /\ encodedBits setEliasGammaEncodedNumber [0] 0 4
     = Some ([false; false; false; true; true; false; false], 7).
Proof.
  apply (C6_gamma_layout [0; 2 ^ 64 - 1] 60 1000).
  - lia.
  - lia.
  - vm_compute. discriminate.
  - vm_compute. reflexivity.
Defined.

(** C6 as stated fails: for n = 1 the encoder reports the size 3, not
    2 floor(log2 1) + 1 = 1, and writes 011, not the single bit 1. *)
Lemma C6_gamma_layout_counterexample :
  encodedBits setEliasGammaEncodedNumber [0] 0 1 = Some ([false; true; true], 3)
  /\ ~ (forall ptr' siz,
          setEliasGammaEncodedNumber [0] 0 1 = Some (ptr', siz) ->
          siz = 2 * Z.log2 1 + 1).
Proof.
  split; [reflexivity|]. intros H.
  specialize (H [0x6000000000000000] 3 eq_refl). discriminate H.
Qed.

(** ** Elias delta encoding *)

Lemma shl64_one (k : Z) : 0 <= k < 64 -> shl64 uint64ONE k = Some (2 ^ k).
Proof.
  intros H. unfold shl64, uint64ONE. destruct (Z.ltb_spec k 64); [|lia].
  rewrite Z.shiftl_1_l. f_equal. apply wrap64_small. split; [lia|].
  apply Z.pow_lt_mono_r; lia.
Qed.

Lemma lor_leading_bit (val : Z) :
  0 < val -> Z.lor (2 ^ Z.log2 val) (val mod 2 ^ Z.log2 val) = val.
Proof.
  intros H. pose proof (Z.log2_nonneg val) as Hl.
  apply Z.bits_inj'. intros k Hk. rewrite Z.lor_spec.
  rewrite Z.pow2_bits_eqb by assumption.
  destruct (Z.eqb_spec (Z.log2 val) k) as [<-|Hne].
  - simpl. symmetry. apply Z.bit_log2. assumption.
  - simpl. destruct (Z.lt_ge_cases k (Z.log2 val)).
    + apply Z.mod_pow2_bits_low. lia.
    + rewrite Z.mod_pow2_bits_high by lia.
      symmetry. apply Z.bits_above_log2; lia.
Qed.

(** The delta encoder returns when the array holds the code, and reports
    the size [2 g + b], with [b = logBaseTwo64 val] and
    [g = logBaseTwo64 b]: the size of the gamma code of [b] and [b - 1]
    bits of mantissa. *)
Lemma setEliasDeltaEncodedNumber_inside (ptr : list Z) (pos val : Z) :
  0 <= pos -> 1 <= val < 2 ^ 64 ->
  let b := logBaseTwo64 val in
  let g := logBaseTwo64 b in
  pos + (2 * g + b) <= bitLength ptr -> bitLength ptr < 2 ^ 64 ->
  exists ptr', setEliasDeltaEncodedNumber ptr pos val = Some (ptr', 2 * g + b).
Proof.
  intros Hp Hv b g Hin Hb64.
  assert (Eb : logBaseTwo64 val = b) by reflexivity.
  assert (Eg : logBaseTwo64 b = g) by reflexivity.
  clearbody g. clearbody b.
  assert (Hb : 1 <= b <= 64).
  { subst b. pose proof (logBaseTwo64_range val ltac:(lia)).
    rewrite logBaseTwo64_pos in * by lia. pose proof (Z.log2_nonneg val). lia. }
  assert (Hg : 1 <= g <= 7).
  { subst g. rewrite logBaseTwo64_pos by lia.
    pose proof (Z.log2_nonneg b).
    assert (Z.log2 b < 7) by (apply Z.log2_lt_pow2; lia). lia. }
  unfold setEliasDeltaEncodedNumber. rewrite Eb.
  destruct (gamma_encode_decode ptr pos b) as (p1 & E1 & _ & _ & Hout1 & _);
    rewrite ?Eg; [assumption|lia|lia|assumption|].
  rewrite Eg in *.
  rewrite E1. simpl.
  rewrite (wrap64_small (b - 1)) by lia.
  rewrite (wrap64_small (pos + (2 * g + 1))) by lia.
  pose proof (sameOutside_bitLength _ _ _ _ Hout1) as Hbl1.
  destruct (setDecodedValue_inside p1 (pos + (2 * g + 1)) (b - 1) val)
    as [p2 E2]; [lia..|].
  rewrite E2. simpl.
  rewrite (wrap64_small (2 * g + 1 + (b - 1))) by lia.
  replace (2 * g + 1 + (b - 1)) with (2 * g + b) by lia.
  now exists p2.
Qed.

Lemma length_field_cost (b : Z) :
  5 <= b <= 64 -> 2 * logBaseTwo64 b + b <= 2 * b + 1.
Proof.
  intros Hb. rewrite logBaseTwo64_pos by lia.
  assert (H8 : b < 2 ^ 3 -> Z.log2 b < 3) by (intros; apply Z.log2_lt_pow2; lia).
  assert (H16 : b < 2 ^ 4 -> Z.log2 b < 4) by (intros; apply Z.log2_lt_pow2; lia).
  assert (H128 : b < 2 ^ 7 -> Z.log2 b < 7) by (intros; apply Z.log2_lt_pow2; lia).
  destruct (Z.lt_ge_cases b 8); [lia|].
  destruct (Z.lt_ge_cases b 16); lia.
Qed.

(** C8: from the value 16 on, the delta code is never longer than the gamma
    code: for every n with 16 <= n < 2^64 both encoders return, and the size
    [setEliasDeltaEncodedNumber] reports is at most the size
    [setEliasGammaEncodedNumber] reports.  At 15 the delta code (10 bits) is
    still longer than the gamma code (9 bits). *)
Theorem C8_delta_beats_gamma :
  exists C, C = 16 /\
    (forall (ptr : list Z) (pos n : Z),
        0 <= pos -> C <= n < 2 ^ 64 ->
        pos + (2 * logBaseTwo64 n + 1) <= bitLength ptr ->
        bitLength ptr < 2 ^ 64 ->
        exists ptrD sizD ptrG sizG,
          setEliasDeltaEncodedNumber ptr pos n = Some (ptrD, sizD)
          /\ setEliasGammaEncodedNumber ptr pos n = Some (ptrG, sizG)
          /\ sizD <= sizG)
    /\ (snd <$> setEliasDeltaEncodedNumber [0] 0 (C - 1)) = Some 10
    /\ (snd <$> setEliasGammaEncodedNumber [0] 0 (C - 1)) = Some 9.
Proof.
  exists 16. split; [reflexivity|]. split; [|split; reflexivity].
  intros ptr pos n Hp Hn Hin Hb64.
  assert (Hb : 5 <= logBaseTwo64 n <= 64).
  { pose proof (logBaseTwo64_range n ltac:(lia)).
    rewrite logBaseTwo64_pos in * by lia.
    assert (4 <= Z.log2 n) by (apply Z.log2_le_pow2; lia). lia. }
  pose proof (length_field_cost _ Hb) as Hc.
  destruct (setEliasDeltaEncodedNumber_inside ptr pos n Hp ltac:(lia)
              ltac:(lia) Hb64) as (ptrD & ED).
  destruct (gamma_encode_decode ptr pos n Hp ltac:(lia) Hin Hb64)
    as (ptrG & EG & _).
  eexists ptrD, _, ptrG, _. split; [exact ED|]. split; [exact EG|]. exact Hc.
Qed.

Lemma C8_delta_beats_gamma_witness :
  exists ptrD sizD ptrG sizG,
    setEliasDeltaEncodedNumber [0; 0] 7 1000 = Some (ptrD, sizD)
    /\ setEliasGammaEncodedNumber [0; 0] 7 1000 = Some (ptrG, sizG)
    /\ sizD <= sizG.
Proof.
  destruct C8_delta_beats_gamma as (C & -> & H & _).
  apply (H [0; 0] 7 1000).
  - lia.
  - lia.
  - vm_compute. discriminate.
  - vm_compute. reflexivity.
Defined.

(** ** Generalized unary encoding *)

Lemma genunary_width_succ (m : nat) :
  genunary_width (S m) = genunary_width m + 2.
Proof. unfold genunary_width. lia. Qed.

Lemma genunary_base_closed (m : nat) :
  3 * genunary_base m = 2 ^ genunary_width m - 8.
Proof.
  induction m as [|m IH]; [reflexivity|].
  cbn [genunary_base]. rewrite genunary_width_succ.
  rewrite Z.pow_add_r by (unfold genunary_width; lia).
  change (2 ^ 2) with 4. lia.
Qed.

Lemma genunary_base_nonneg (m : nat) : 0 <= genunary_base m.
Proof.
  pose proof (genunary_base_closed m).
  assert (2 ^ 3 <= 2 ^ genunary_width m).
  { apply Z.pow_le_mono_r; unfold genunary_width; lia. }
  change (2 ^ 3) with 8 in *. lia.
Qed.

Lemma genunary_base_bound (m : nat) :
  genunary_width m <= 64 -> genunary_base (S m) < 2 ^ 64.
Proof.
  intros Hw. pose proof (genunary_base_closed (S m)) as Hc.
  rewrite genunary_width_succ in Hc.
  assert (2 ^ (genunary_width m + 2) <= 2 ^ 65).
  { apply Z.pow_le_mono_r; unfold genunary_width in *; lia. }
  change (2 ^ 65) with (2 * 2 ^ 64) in *. lia.
Qed.

Lemma genunary_search_spec (d : nat) :
  forall (fuel m0 : nat) (val0 : Z),
  (d <= fuel)%nat ->
  genunary_width (m0 + d) <= 64 ->
  genunary_base (m0 + d) <= val0 < genunary_base (S (m0 + d)) ->
  genunary_search fuel (val0 - genunary_base m0) (genunary_width m0)
                  (2 ^ genunary_width m0) (Z.of_nat m0)
  = Some (val0 - genunary_base (m0 + d), genunary_width (m0 + d),
          Z.of_nat (m0 + d)).
Proof.
  induction d as [|d IH]; intros fuel m0 val0 Hf Hw Hv.
  - rewrite Nat.add_0_r in *. cbn [genunary_base] in Hv.
    destruct fuel; simpl;
      (destruct (Z.leb_spec (2 ^ genunary_width m0) (val0 - genunary_base m0));
       [lia|reflexivity]).
  - destruct fuel as [|fuel]; [lia|].
    replace (m0 + S d)%nat with (S m0 + d)%nat in * by lia.
    pose proof (genunary_base_bound _ Hw) as Hb64.
    pose proof (genunary_base_nonneg m0) as Hb0.
    assert (Hmono : genunary_base (S m0) <= genunary_base (S m0 + d)).
    { clear. induction d as [|d IHd]; [rewrite Nat.add_0_r; lia|].
      replace (S m0 + S d)%nat with (S (S m0 + d)) by lia.
      cbn [genunary_base] in *.
      assert (0 < 2 ^ genunary_width (m0 + d)).
      { apply Z.pow_pos_nonneg; unfold genunary_width; lia. }
      lia. }
    assert (Hpos : 0 < 2 ^ genunary_width m0).
    { apply Z.pow_pos_nonneg; unfold genunary_width; lia. }
    cbn [genunary_base] in Hmono.
    simpl genunary_search.
    destruct (Z.leb_spec (2 ^ genunary_width m0) (val0 - genunary_base m0));
      [|lia].
    assert (Hw2 : genunary_width m0 + 2 < 64).
    { unfold genunary_width in *. lia. }
    unfold _genunary_step.
    rewrite (wrap64_small (genunary_width m0 + 2))
      by (unfold genunary_width in *; lia).
    rewrite shl64_one by (unfold genunary_width in *; lia). simpl.
    rewrite (wrap64_small (val0 - genunary_base m0 - 2 ^ genunary_width m0))
      by lia.
    rewrite (wrap64_small (Z.of_nat m0 + 1)) by (unfold genunary_width in *; lia).
    specialize (IH fuel (S m0) val0 ltac:(lia) Hw Hv).
    cbn [genunary_base] in IH. rewrite genunary_width_succ in IH.
    replace (Z.of_nat (S m0)) with (Z.of_nat m0 + 1) in IH by lia.
    replace (val0 - (genunary_base m0 + 2 ^ genunary_width m0))
      with (val0 - genunary_base m0 - 2 ^ genunary_width m0) in IH by lia.
    exact IH.
Qed.

Lemma genunary_restore_spec (m : nat) : forall (val : Z),
  genunary_width m <= 65 -> 0 <= val -> val + genunary_base m < 2 ^ 64 ->
  genunary_restore m (genunary_width m) val = Some (val + genunary_base m).
Proof.
  induction m as [|m IH]; intros val Hw Hv Hb.
  - simpl. f_equal. lia.
  - cbn [genunary_restore genunary_base] in *.
    rewrite genunary_width_succ in *. unfold _genunary_step.
    replace (genunary_width m + 2 - 2) with (genunary_width m) by lia.
    assert (Hpos : 0 < 2 ^ genunary_width m).
    { apply Z.pow_pos_nonneg; unfold genunary_width; lia. }
    pose proof (genunary_base_nonneg m) as Hb0.
    rewrite (wrap64_small (genunary_width m))
      by (unfold genunary_width in *; lia).
    rewrite shl64_one by (unfold genunary_width in *; lia). simpl.
    rewrite wrap64_small by lia.
    rewrite IH by lia. f_equal. lia.
Qed.

(** Encoding and then decoding a value of bucket [m]. *)
Lemma genunary_encode_decode (ptr : list Z) (pos val : Z) (m : nat) :
  0 <= pos ->
  genunary_width m <= 64 ->
  genunary_base m <= val < genunary_base (S m) ->
  pos + (Z.of_nat m + 1 + genunary_width m) <= bitLength ptr ->
  bitLength ptr < 2 ^ 64 ->
  exists ptr',
    setGeneralizedUnaryEncodedNumber ptr pos val
    = Some (ptr', (Z.of_nat m + 1) + genunary_width m)
    /\ unaryAt ptr' pos (Z.of_nat m)
    /\ fieldAt ptr' (pos + Z.of_nat m + 1) (genunary_width m)
               (val - genunary_base m)
    /\ 0 <= val - genunary_base m < 2 ^ genunary_width m
    /\ sameOutside ptr ptr' pos (Z.of_nat m + 1 + genunary_width m)
    /\ forall ptr2,
         sameInside ptr' ptr2 pos (Z.of_nat m + 1 + genunary_width m) ->
         pos + 64 <= bitLength ptr2 -> bitLength ptr2 < 2 ^ 64 ->
         getGeneralizedUnaryEncodedNumber ptr2 pos
         = Some (val, (Z.of_nat m + 1) + genunary_width m).
Proof.
  intros Hp Hw Hv Hin Hb64.
  pose proof (genunary_base_bound m Hw) as Hvb.
  pose proof (genunary_base_nonneg m) as Hb0.
  assert (Hm : Z.of_nat m <= 30) by (unfold genunary_width in Hw; lia).
  assert (Hww : 3 <= genunary_width m <= 63) by (unfold genunary_width in *; lia).
  assert (Hr : 0 <= val - genunary_base m < 2 ^ genunary_width m)
    by (cbn [genunary_base] in Hv; lia).
  set (w := genunary_width m) in *.
  set (r := val - genunary_base m) in *.
  unfold setGeneralizedUnaryEncodedNumber.
  assert (Hfuel : (m <= 32)%nat) by lia.
  revert Hfuel. generalize 32%nat. intros fuel Hfuel.
  unfold _genunary_start, uint64ZERO. rewrite shl64_one by lia. simpl mbind.
  pose proof (genunary_search_spec m fuel 0 val Hfuel) as Hs.
  cbn [genunary_base Nat.add] in Hs.
  rewrite Z.sub_0_r in Hs. change (genunary_width 0) with 3 in Hs.
  change (Z.of_nat 0) with 0 in Hs.
  rewrite Hs by (try assumption; lia). clear Hs. simpl mbind.
  fold w r.
  destruct (setUnaryEncodedNumber_inside ptr pos (Z.of_nat m))
    as [[p1 siz1] E1]; [lia..|].
  rewrite E1. simpl mbind.
  apply setUnaryEncodedNumber_spec in E1 as (-> & Hin1 & Hu & Hlen1 & Hout1);
    [|lia..].
  assert (Hbl1 : bitLength p1 = bitLength ptr) by (unfold bitLength; congruence).
  rewrite (wrap64_small (pos + (Z.of_nat m + 1))) by lia.
  destruct (setDecodedValue_inside p1 (pos + (Z.of_nat m + 1)) w r)
    as [p2 E2]; [lia..|].
  rewrite E2. simpl mbind.
  rewrite (wrap64_small (Z.of_nat m + 1)) by lia.
  rewrite (wrap64_small (Z.of_nat m + 1 + w)) by lia.
  apply setDecodedValue_fieldAt in E2 as (Hf2 & Hlen2 & Hout2); [|lia..].
  replace (pos + (Z.of_nat m + 1)) with (pos + Z.of_nat m + 1) in * by lia.
  assert (Hu2 : unaryAt p2 pos (Z.of_nat m)).
  { destruct Hu as [Hz Ho]. split.
    - intros j Hj. rewrite Hout2 by lia. now apply Hz.
    - rewrite Hout2 by lia. assumption. }
  exists p2. split; [reflexivity|]. split; [assumption|]. split; [assumption|].
  split; [assumption|]. split.
  - split; [congruence|]. intros j Hj Hn.
    rewrite Hout2 by lia. apply Hout1; lia.
  - intros ptr2 Hs Hd Hd64. unfold getGeneralizedUnaryEncodedNumber.
    assert (Hu3 : unaryAt ptr2 pos (Z.of_nat m))
      by (apply (unaryAt_same p2 ptr2 pos _ (Z.of_nat m + 1 + w));
          [assumption|lia|assumption]).
    assert (Hf3 : fieldAt ptr2 (pos + Z.of_nat m + 1) w r)
      by (apply (fieldAt_same p2 ptr2 _ _ _ pos (Z.of_nat m + 1 + w));
          [assumption|lia|lia|assumption]).
    rewrite (getUnaryEncodedNumber_unaryAt ptr2 pos (Z.of_nat m));
      try assumption; try lia.
    2:{ rewrite Z.div_small by lia. lia. }
    simpl mbind. unfold _genunary_start, _genunary_step.
    rewrite (wrap64_small (Z.of_nat m * 2)) by lia.
    rewrite (wrap64_small (3 + Z.of_nat m * 2)) by lia.
    replace (3 + Z.of_nat m * 2) with w by (subst w; unfold genunary_width; lia).
    rewrite (wrap64_small (pos + (Z.of_nat m + 1))) by lia.
    replace (pos + (Z.of_nat m + 1)) with (pos + Z.of_nat m + 1) by lia.
    rewrite (getDecodedValue_fieldAt ptr2 (pos + Z.of_nat m + 1) w r);
      try assumption; try lia.
    simpl mbind. rewrite (Z.mod_small r) by assumption.
    rewrite Nat2Z.id. subst w.
    rewrite genunary_restore_spec by (subst r; lia).
    simpl mbind. rewrite (wrap64_small (Z.of_nat m + 1)) by lia.
    rewrite wrap64_small by lia. subst r. do 2 f_equal. lia.
Qed.

(** C2: for every value val in a bucket m whose residual width
    w(m) = 3 + 2 m is at most 64, [setGeneralizedUnaryEncodedNumber] writes
    the unary code of m, then the residual of val -- val less the thresholds
    2^w(i) of the buckets i < m -- in a field of w(m) bits, most significant
    bit first, and reports the size (m + 1) + w(m);
    [getGeneralizedUnaryEncodedNumber] at the same offset returns val and
    the same size. *)
Theorem C2_generalized_unary (ptr : list Z) (pos val : Z) (m : nat) :
  0 <= pos ->
  genunary_width m <= 64 ->
  genunary_base m <= val < genunary_base (S m) ->
  pos + (Z.of_nat m + 1 + genunary_width m) <= bitLength ptr ->
  bitLength ptr < 2 ^ 64 ->
  exists ptr',
    setGeneralizedUnaryEncodedNumber ptr pos val
    = Some (ptr', (Z.of_nat m + 1) + genunary_width m)
    /\ unaryAt ptr' pos (Z.of_nat m)
    /\ fieldAt ptr' (pos + Z.of_nat m + 1) (genunary_width m)
               (val - genunary_base m)
    /\ 0 <= val - genunary_base m < 2 ^ genunary_width m
    /\ sameOutside ptr ptr' pos (Z.of_nat m + 1 + genunary_width m)
    /\ (pos + 64 <= bitLength ptr ->
        getGeneralizedUnaryEncodedNumber ptr' pos
        = Some (val, (Z.of_nat m + 1) + genunary_width m)).
Proof.
  intros Hp Hw Hv Hin Hb64.
  destruct (genunary_encode_decode ptr pos val m Hp Hw Hv Hin Hb64)
    as (ptr' & E & Hu & Hf & Hr & Hout & D).
  pose proof (sameOutside_bitLength _ _ _ _ Hout) as Hbl.
  exists ptr'. split; [exact E|]. split; [assumption|]. split; [assumption|].
  split; [assumption|]. split; [assumption|]. intros Hd.
  apply D; [intros j Hj; reflexivity|lia..].
Qed.

Lemma C2_generalized_unary_witness :
  exists ptr',
    setGeneralizedUnaryEncodedNumber [0; 2 ^ 64 - 1; 5] 60 100
    = Some (ptr', (Z.of_nat 2 + 1) + genunary_width 2)
    /\ unaryAt ptr' 60 (Z.of_nat 2)
    /\ fieldAt ptr' (60 + Z.of_nat 2 + 1) (genunary_width 2)
               (100 - genunary_base 2)
    /\ 0 <= 100 - genunary_base 2 < 2 ^ genunary_width 2
    /\ sameOutside [0; 2 ^ 64 - 1; 5] ptr' 60 (Z.of_nat 2 + 1 + genunary_width 2)
    /\ (60 + 64 <= bitLength [0; 2 ^ 64 - 1; 5] ->
        getGeneralizedUnaryEncodedNumber ptr' 60
        = Some (100, (Z.of_nat 2 + 1) + genunary_width 2)).
Proof.
  apply (C2_generalized_unary [0; 2 ^ 64 - 1; 5] 60 100 2).
  - lia.
  - vm_compute. discriminate.
  - vm_compute. split; [discriminate|reflexivity].
  - vm_compute. discriminate.
  - vm_compute. reflexivity.
Defined.

(** ** Fibonacci encoding *)

Lemma fibZ_0 : fibZ 0 = 1.
Proof. reflexivity. Qed.

Lemma fibZ_SS (i : nat) : fibZ (S (S i)) = fibZ (S i) + fibZ i.
Proof.
  unfold fibZ. cbn [fibPair]. destruct (fibPair i) as [a b]. simpl. lia.
Qed.

Lemma fibZ_pos (i : nat) : 0 < fibZ i /\ 0 < fibZ (S i).
Proof.
  induction i as [|i [H1 H2]]; [split; reflexivity|].
  split; [assumption|]. rewrite fibZ_SS. lia.
Qed.

Lemma fibZ_mono (i : nat) : fibZ i < fibZ (S i).
Proof.
  destruct i as [|i]; [reflexivity|]. rewrite fibZ_SS.
  pose proof (fibZ_pos i). lia.
Qed.

Lemma fibonacciValues_fibZ : fibonacciValues = map fibZ (seq 0 92).
Proof. vm_compute. reflexivity. Qed.

Lemma fibonacciValues_lookup (i : nat) :
  (i < 92)%nat -> fibonacciValues !! i = Some (fibZ i).
Proof.
  intros H. rewrite fibonacciValues_fibZ.
  rewrite list_lookup_fmap. rewrite lookup_seq_lt by assumption. reflexivity.
Qed.

Lemma fibZ_le_mono (i j : nat) : (i <= j)%nat -> fibZ i <= fibZ j.
Proof.
  induction 1 as [|j _ IH]; [lia|]. pose proof (fibZ_mono j). lia.
Qed.

Lemma fibZ_table_bound (i : nat) : (i < 92)%nat -> 0 < fibZ i < 2 ^ 64.
Proof.
  intros H. split; [apply fibZ_pos|].
  assert (fibZ i <= fibZ 91) by (apply fibZ_le_mono; lia).
  assert (fibZ 91 < 2 ^ 64) by (vm_compute; reflexivity). lia.
Qed.

Lemma fibZ_double (k : nat) : fibZ (S k) <= 2 * fibZ k.
Proof.
  destruct k as [|k]; [vm_compute; discriminate|].
  rewrite fibZ_SS. pose proof (fibZ_mono k). lia.
Qed.

Lemma zdigit_above (k : nat) : forall (v j : Z),
  Z.of_nat k <= j -> zdigit k v j = false.
Proof.
  induction k as [|k IH]; intros v j Hj; [reflexivity|].
  cbn [zdigit]. destruct (fibZ k <=? v).
  - rewrite IH by lia. destruct (Z.eqb_spec j (Z.of_nat k)); [lia|reflexivity].
  - apply IH. lia.
Qed.

Lemma zdigit_small (k : nat) : forall (v : Z) (j : nat),
  v < fibZ j -> zdigit k v (Z.of_nat j) = false.
Proof.
  induction k as [|k IH]; intros v j Hv; [reflexivity|].
  cbn [zdigit]. destruct (Z.leb_spec (fibZ k) v) as [Hle|Hgt].
  - pose proof (fibZ_pos k) as [Hk _].
    rewrite IH by lia.
    destruct (Z.eqb_spec (Z.of_nat j) (Z.of_nat k)) as [E|]; [|reflexivity].
    apply Nat2Z.inj in E. subst j. lia.
  - now apply IH.
Qed.

Lemma fibValue_ext (d d' : Z -> bool) (k : nat) :
  (forall j, 0 <= j < Z.of_nat k -> d j = d' j) ->
  fibValue d k = fibValue d' k.
Proof.
  induction k as [|k IH]; intros H; [reflexivity|].
  cbn [fibValue]. rewrite IH by (intros j Hj; apply H; lia).
  now rewrite (H (Z.of_nat k)) by lia.
Qed.

Lemma zdigit_below (k : nat) (v j : Z) :
  0 <= j < Z.of_nat k ->
  zdigit (S k) v j = zdigit k (if fibZ k <=? v then v - fibZ k else v) j.
Proof.
  intros Hj. cbn [zdigit]. destruct (fibZ k <=? v); [|reflexivity].
  destruct (Z.eqb_spec j (Z.of_nat k)); [lia|reflexivity].
Qed.

(** The selected entries add up to the value. *)
Lemma zeckendorf_sum (k : nat) : forall (v : Z),
  0 <= v < fibZ k -> fibValue (zdigit k v) k = v.
Proof.
  induction k as [|k IH]; intros v Hv.
  - rewrite fibZ_0 in Hv. simpl. lia.
  - cbn [fibValue].
    rewrite (fibValue_ext _ (zdigit k (if fibZ k <=? v then v - fibZ k else v)))
      by (intros j Hj; now apply zdigit_below).
    pose proof (fibZ_double k).
    cbn [zdigit]. destruct (Z.leb_spec (fibZ k) v) as [Hle|Hgt].
    + rewrite Z.eqb_refl. simpl. rewrite IH by lia. lia.
    + rewrite zdigit_above by lia. rewrite IH by lia. lia.
Qed.

(** No two neighbouring entries are selected. *)
Lemma zeckendorf_noAdjacent (k : nat) : forall (v : Z),
  0 <= v < fibZ k -> noAdjacent (zdigit k v) (Z.of_nat k).
Proof.
  induction k as [|k IH]; intros v Hv j Hj0 Hj; [lia|].
  pose proof (fibZ_double k) as Hdbl.
  rewrite (zdigit_below k v j) by lia.
  destruct (Z.eq_dec (j + 1) (Z.of_nat k)) as [E|Hne].
  - destruct (Z.leb_spec (fibZ k) v) as [Hle|Hgt].
    + destruct k as [|k]; [lia|].
      replace j with (Z.of_nat k) by lia.
      rewrite zdigit_small; [reflexivity|].
      rewrite fibZ_SS in Hv. lia.
    + rewrite E. cbn [zdigit].
      destruct (Z.leb_spec (fibZ k) v); [lia|].
      rewrite (zdigit_above k v (Z.of_nat k)) by lia. apply andb_false_r.
  - rewrite (zdigit_below k v (j + 1)) by lia.
    apply IH; [|lia..].
    destruct (Z.leb_spec (fibZ k) v); lia.
Qed.

(** The largest selected entry is the largest entry that is at most the
    value. *)
Lemma ztop_spec (k : nat) : forall (v : Z),
  0 < v < fibZ k ->
  exists t : nat,
    ztop k v = Z.of_nat t + 1 /\ (t < k)%nat
    /\ fibZ t <= v < fibZ (S t) /\ zdigit k v (Z.of_nat t) = true.
Proof.
  induction k as [|k IH]; intros v Hv.
  - rewrite fibZ_0 in Hv. lia.
  - cbn [ztop zdigit]. destruct (Z.leb_spec (fibZ k) v) as [Hle|Hgt].
    + exists k. rewrite Z.eqb_refl. split; [reflexivity|]. split; [lia|].
      split; [lia|reflexivity].
    + destruct (IH v ltac:(lia)) as (t & Ht & Hlt & Hr & Hd).
      exists t. split; [assumption|]. split; [lia|]. split; assumption.
Qed.

Lemma ztop_range (k : nat) (v : Z) : 0 <= ztop k v <= Z.of_nat k.
Proof.
  induction k as [|k IH]; [simpl; lia|]. cbn [ztop].
  destruct (fibZ k <=? v); lia.
Qed.

Lemma zdigit_above_top (k : nat) : forall (v j : Z),
  ztop k v <= j -> zdigit k v j = false.
Proof.
  induction k as [|k IH]; intros v j Hj; [reflexivity|].
  cbn [ztop zdigit] in *. destruct (fibZ k <=? v).
  - rewrite zdigit_above by lia.
    destruct (Z.eqb_spec j (Z.of_nat k)); [lia|reflexivity].
  - now apply IH.
Qed.

Lemma codeBit_mark (i : Z) (st : fibState) (j : Z) :
  0 <= i <= 92 -> 0 <= j < 128 ->
  codeBit (fib_mark i st) j = codeBit st j || (j =? i).
Proof.
  intros Hi Hj. unfold fib_mark, codeBit, uint64ONE.
  destruct (Z.leb_spec 64 i) as [Hge|Hlt]; cbn [fs_out1 fs_out2].
  - destruct (Z.ltb_spec j 64) as [Hj64|Hj64].
    + destruct (Z.eqb_spec j i); [lia|]. now rewrite orb_false_r.
    + rewrite Z.shiftl_1_l.
      rewrite wrap64_small
        by (split; [apply Z.pow_nonneg; lia|apply Z.pow_lt_mono_r; lia]).
      rewrite Z.lor_spec, Z.pow2_bits_eqb by lia. f_equal.
      destruct (Z.eqb_spec (127 - i) (127 - j)), (Z.eqb_spec j i); lia || reflexivity.
  - destruct (Z.ltb_spec j 64) as [Hj64|Hj64].
    + rewrite Z.shiftl_1_l.
      rewrite wrap64_small
        by (split; [apply Z.pow_nonneg; lia|apply Z.pow_lt_mono_r; lia]).
      rewrite Z.lor_spec, Z.pow2_bits_eqb by lia. f_equal.
      destruct (Z.eqb_spec (63 - i) (63 - j)), (Z.eqb_spec j i); lia || reflexivity.
    + destruct (Z.eqb_spec j i); [lia|]. now rewrite orb_false_r.
Qed.

Lemma fib_mark_val (i : Z) (st : fibState) : fs_val (fib_mark i st) = fs_val st.
Proof. unfold fib_mark. now destruct (64 <=? i). Qed.

Lemma fib_mark_fibmax (i : Z) (st : fibState) :
  fs_fibmax (fib_mark i st) = fs_fibmax st.
Proof. unfold fib_mark. now destruct (64 <=? i). Qed.

(** One round of the encoder's loop, for the entry [k]. *)
Lemma fib_step_spec (k : nat) (st : fibState) :
  (k < 92)%nat -> 0 <= fs_val st < 2 ^ 64 ->
  exists st',
    fib_step (Z.of_nat k) st = Some st'
    /\ fs_val st' = (if fibZ k <=? fs_val st then fs_val st - fibZ k
                     else fs_val st)
    /\ fs_fibmax st' = (if (fibZ k <=? fs_val st) && (fs_fibmax st =? 0)
                        then Z.of_nat k + 1 else fs_fibmax st)
    /\ forall j, 0 <= j < 128 ->
         codeBit st' j
         = codeBit st j
           || ((fibZ k <=? fs_val st)
               && ((j =? Z.of_nat k)
                   || ((fs_fibmax st =? 0) && (j =? Z.of_nat k + 1)))).
Proof.
  intros Hk Hv. unfold fib_step. rewrite Nat2Z.id.
  rewrite fibonacciValues_lookup by assumption. simpl mbind.
  pose proof (fibZ_table_bound k Hk) as Hf.
  destruct (Z.leb_spec (fibZ k) (fs_val st)) as [Hle|Hgt].
  - cbn [fs_val fs_out1 fs_out2 fs_fibmax].
    rewrite fib_mark_val, fib_mark_fibmax.
    rewrite (wrap64_small (fs_val st - fibZ k)) by lia.
    unfold uint64ZERO. destruct (Z.eqb_spec (fs_fibmax st) 0) as [E0|Hn0].
    + rewrite (wrap32_small (Z.of_nat k + 1)) by lia.
      eexists. split; [reflexivity|].
      rewrite fib_mark_val, fib_mark_fibmax. cbn [fs_val fs_fibmax].
      split; [reflexivity|]. split; [reflexivity|].
      intros j Hj. rewrite codeBit_mark by lia.
      assert (E : codeBit
                    {| fs_val := fs_val st - fibZ k;
                       fs_out1 := fs_out1 (fib_mark (Z.of_nat k) st);
                       fs_out2 := fs_out2 (fib_mark (Z.of_nat k) st);
                       fs_fibmax := Z.of_nat k + 1 |} j
                  = codeBit (fib_mark (Z.of_nat k) st) j) by reflexivity.
      rewrite E, codeBit_mark by lia.
      simpl. now rewrite orb_assoc.
    + eexists. split; [reflexivity|]. cbn [fs_val fs_fibmax].
      split; [reflexivity|]. split; [reflexivity|].
      intros j Hj.
      assert (E : codeBit
                    {| fs_val := fs_val st - fibZ k;
                       fs_out1 := fs_out1 (fib_mark (Z.of_nat k) st);
                       fs_out2 := fs_out2 (fib_mark (Z.of_nat k) st);
                       fs_fibmax := fs_fibmax st |} j
                  = codeBit (fib_mark (Z.of_nat k) st) j) by reflexivity.
      rewrite E, codeBit_mark by lia. simpl. now rewrite orb_false_r.
  - exists st. split; [reflexivity|]. split; [reflexivity|].
    split; [reflexivity|]. intros j Hj. simpl. now rewrite orb_false_r.
Qed.

(** The encoder's loop over the entries below [k], largest first: it marks
    the digits of the greedy decomposition and, above the largest selected
    entry, the terminating one bit. *)
Lemma fib_loop_spec (k : nat) : forall (st : fibState),
  (k <= 92)%nat -> 0 <= fs_val st < 2 ^ 64 ->
  exists st',
    fib_loop k st = Some st'
    /\ fs_fibmax st' = (if fs_fibmax st =? 0 then ztop k (fs_val st)
                        else fs_fibmax st)
    /\ forall j, 0 <= j < 128 ->
         codeBit st' j
         = codeBit st j || zdigit k (fs_val st) j
           || ((fs_fibmax st =? 0) && (0 <? ztop k (fs_val st))
               && (j =? ztop k (fs_val st))).
Proof.
  induction k as [|k IH]; intros st Hk Hv.
  - exists st. split; [reflexivity|]. split.
    + simpl. now destruct (fs_fibmax st =? 0) eqn:E; [apply Z.eqb_eq in E|].
    + intros j Hj. simpl. rewrite andb_false_r. now rewrite !orb_false_r.
  - destruct (fib_step_spec k st ltac:(lia) Hv) as (st1 & E1 & Hv1 & Hm1 & Hc1).
    pose proof (fibZ_table_bound k ltac:(lia)) as Hf.
    destruct (IH st1 ltac:(lia)) as (st' & E' & Hm' & Hc').
    { rewrite Hv1. destruct (Z.leb_spec (fibZ k) (fs_val st)); lia. }
    exists st'. cbn [fib_loop]. rewrite E1. simpl mbind.
    split; [exact E'|]. cbn [ztop zdigit]. split.
    + rewrite Hm', Hm1, Hv1.
      destruct (Z.leb_spec (fibZ k) (fs_val st)), (Z.eqb_spec (fs_fibmax st) 0);
        simpl; try reflexivity.
      * destruct (Z.eqb_spec (Z.of_nat k + 1) 0); [lia|reflexivity].
      * destruct (Z.eqb_spec (fs_fibmax st) 0); [lia|reflexivity].
      * destruct (Z.eqb_spec (fs_fibmax st) 0); [reflexivity|lia].
      * destruct (Z.eqb_spec (fs_fibmax st) 0); [lia|reflexivity].
    + intros j Hj. rewrite Hc', Hc1, Hm1, Hv1 by assumption.
      destruct (Z.leb_spec (fibZ k) (fs_val st)), (Z.eqb_spec (fs_fibmax st) 0);
        simpl.
      * destruct (Z.eqb_spec (Z.of_nat k + 1) 0); [lia|].
        destruct (Z.ltb_spec 0 (Z.of_nat k + 1)); [|lia]. simpl.
        rewrite !orb_false_r.
        destruct (codeBit st j), (j =? Z.of_nat k), (j =? Z.of_nat k + 1),
          (zdigit k (fs_val st - fibZ k) j); reflexivity.
      * destruct (Z.eqb_spec (fs_fibmax st) 0); [lia|]. simpl.
        rewrite !orb_false_r.
        destruct (codeBit st j), (j =? Z.of_nat k),
          (zdigit k (fs_val st - fibZ k) j); reflexivity.
      * destruct (Z.eqb_spec (fs_fibmax st) 0); [|lia]. simpl.
        now rewrite !orb_false_r.
      * destruct (Z.eqb_spec (fs_fibmax st) 0); [lia|]. simpl.
        now rewrite !orb_false_r.
Qed.

Arguments zdigit : simpl never.
Arguments ztop : simpl never.
Arguments fib_loop : simpl never.

Lemma fibonacciValuesLen_nat : Z.to_nat fibonacciValuesLen = 92%nat.
Proof. reflexivity. Qed.

Lemma fibZ_beyond_table : 2 ^ 64 < fibZ (Z.to_nat fibonacciValuesLen).
Proof. vm_compute. reflexivity. Qed.

Lemma fib_loop_code (k : nat) (v : Z) :
  (k <= 92)%nat -> 0 <= v < 2 ^ 64 ->
  exists st',
    fib_loop k (FibState v uint64ZERO uint64ZERO 0) = Some st'
    /\ fs_fibmax st' = ztop k v
    /\ forall j, 0 <= j < 128 ->
         codeBit st' j = zdigit k v j || ((0 <? ztop k v) && (j =? ztop k v)).
Proof.
  intros Hk Hv.
  destruct (fib_loop_spec k (FibState v uint64ZERO uint64ZERO 0))
    as (st' & E & Hm & Hc); [exact Hk|exact Hv|].
  cbn [fs_val fs_fibmax] in Hm, Hc.
  change (0 =? 0) with true in Hm, Hc. cbv iota in Hm.
  exists st'. split; [exact E|]. split; [exact Hm|].
  intros j Hj. rewrite Hc by assumption.
  unfold codeBit, uint64ZERO. cbn [fs_out1 fs_out2].
  rewrite !testbit_zero. rewrite andb_true_l.
  destruct (j <? 64); rewrite orb_false_l; reflexivity.
Qed.

(** What the Fibonacci encoder writes for the biased value
    [v = val + 1 mod 2^64]: the bits of the code of [v]. *)
Lemma setFibonacciEncodedNumber_spec (ptr : list Z) (pos val : Z) :
  0 <= pos -> 0 <= val < 2 ^ 64 ->
  pos + fibCodeSize (wrap64 (val + 1)) <= bitLength ptr ->
  bitLength ptr < 2 ^ 64 ->
  exists ptr',
    setFibonacciEncodedNumber ptr pos val
    = Some (ptr', fibCodeSize (wrap64 (val + 1)))
    /\ digitsAt ptr' pos (fibCode (wrap64 (val + 1)))
                (fibCodeSize (wrap64 (val + 1)))
    /\ sameOutside ptr ptr' pos (fibCodeSize (wrap64 (val + 1))).
Proof.
  intros Hp Hval Hin Hb64. unfold setFibonacciEncodedNumber.
  assert (Hv : 0 <= wrap64 (val + 1) < 2 ^ 64)
    by (unfold wrap64; apply Z.mod_pos_bound; lia).
  set (v := wrap64 (val + 1)) in *.
  pose proof fibonacciValuesLen_nat as HN.
  destruct (fib_loop_code (Z.to_nat fibonacciValuesLen) v ltac:(lia) Hv)
    as (st' & E & Hm & Hc).
  rewrite E. bind_step. rewrite Hm.
  pose proof (ztop_range (Z.to_nat fibonacciValuesLen) v) as Ht.
  set (t := ztop (Z.to_nat fibonacciValuesLen) v) in *.
  assert (Ht93 : 0 <= t <= 92) by lia.
  clearbody t. clearbody v. clear Ht HN.
  rewrite (wrap32_small (t + 1)) by lia.
  destruct (Z.ltb_spec 64 (t + 1)) as [Hbig|Hsmall].
  - destruct (setDecodedValue_inside ptr pos 64 (fs_out1 st')) as [p1 E1];
      [lia..|].
    rewrite E1. bind_step.
    pose proof (setDecodedValue_bitLength _ _ _ _ _ E1) as Hbl1.
    rewrite (wrap64_small (pos + 64)) by lia.
    destruct (setDecodedValue_inside p1 (pos + 64) (t + 1 - 64)
                (Z.shiftr (fs_out2 st') (128 - (t + 1)))) as [p2 E2]; [lia..|].
    rewrite E2. bind_step.
    apply setDecodedValue_fieldAt in E1 as (Hf1 & Hlen1 & Hout1); [|lia..].
    apply setDecodedValue_fieldAt in E2 as (Hf2 & Hlen2 & Hout2); [|lia..].
    exists p2. split; [reflexivity|]. split; [|split].
    + intros j Hj. cbv beta. rewrite <- Hc by lia. unfold codeBit.
      destruct (Z.ltb_spec j 64) as [Hj64|Hj64].
      * rewrite Hout2 by lia. rewrite Hf1 by lia. do 2 f_equal. lia.
      * rewrite Hf2 by lia. rewrite Z.shiftr_spec by lia. do 2 f_equal. lia.
    + congruence.
    + intros j Hj Hn. rewrite Hout2 by lia. apply Hout1; lia.
  - destruct (setDecodedValue_inside ptr pos (t + 1)
                (Z.shiftr (fs_out1 st') (64 - (t + 1)))) as [p1 E1]; [lia..|].
    rewrite E1. bind_step.
    apply setDecodedValue_fieldAt in E1 as (Hf1 & Hlen1 & Hout1); [|lia..].
    exists p1. split; [reflexivity|]. split; [|split].
    + intros j Hj. cbv beta. rewrite <- Hc by lia. unfold codeBit.
      destruct (Z.ltb_spec j 64) as [Hj64|Hj64]; [|lia].
      rewrite Hf1 by lia. rewrite Z.shiftr_spec by lia. do 2 f_equal. lia.
    + assumption.
    + assumption.
Qed.

Lemma land_pow2 (w s : Z) :
  0 <= s -> Z.land w (2 ^ s) = if Z.testbit w s then 2 ^ s else 0.
Proof.
  intros Hs. apply Z.bits_inj'. intros k Hk.
  rewrite Z.land_spec, Z.pow2_bits_eqb by assumption.
  destruct (Z.eqb_spec s k) as [->|Hne].
  - destruct (Z.testbit w k); [|now rewrite testbit_zero].
    rewrite Z.pow2_bits_eqb by assumption. now rewrite Z.eqb_refl.
  - rewrite andb_false_r. destruct (Z.testbit w s); [|now rewrite testbit_zero].
    rewrite Z.pow2_bits_eqb by assumption. symmetry. now apply Z.eqb_neq.
Qed.

Lemma shiftr_pow2_one (s : Z) :
  0 <= s -> Z.shiftr (2 ^ s) 1 = if s =? 0 then 0 else 2 ^ (s - 1).
Proof.
  intros Hs. rewrite Z.shiftr_div_pow2 by lia. change (2 ^ 1) with 2.
  destruct (Z.eqb_spec s 0) as [->|Hne]; [reflexivity|].
  replace s with (s - 1 + 1) at 1 by lia.
  rewrite Z.pow_add_r by lia. change (2 ^ 1) with 2.
  now rewrite Z.div_mul by lia.
Qed.

(** The decoder's cursor [(wrd, sft)] stands at bit [i] of the array. *)
Lemma fib_fetch_spec (ptr : list Z) (i : Z) (b : bool) :
  0 <= i -> i < 2 ^ 62 -> getBit ptr i = Some b ->
  exists x,
    fib_fetch ptr (i / 64) (2 ^ (63 - i mod 64))
    = Some (x, (i + 1) / 64, 2 ^ (63 - (i + 1) mod 64))
    /\ (x =? 0) = negb b.
Proof.
  intros Hi Hb H. unfold getBit in H. unfold fib_fetch.
  destruct (ptr !! Z.to_nat (i / 64)) as [w|]; simpl in H; [|discriminate].
  injection H as <-. simpl mbind.
  assert (Hs : 0 <= 63 - i mod 64 <= 63) by divmod.
  assert (Hq : 0 <= i / 64 < 2 ^ 62) by divmod.
  rewrite shiftr_pow2_one by lia. unfold uint64ZERO.
  exists (Z.land w (2 ^ (63 - i mod 64))).
  assert (Hx : (Z.land w (2 ^ (63 - i mod 64)) =? 0)
               = negb (Z.testbit w (63 - i mod 64))).
  { rewrite land_pow2 by lia. destruct (Z.testbit w (63 - i mod 64)); [|reflexivity].
    apply Z.eqb_neq. assert (0 < 2 ^ (63 - i mod 64)) by (apply Z.pow_pos_nonneg; lia).
    lia. }
  split; [|exact Hx].
  destruct (Z.eqb_spec (63 - i mod 64) 0) as [E|Hne].
  - simpl. rewrite wrap64_small by lia.
    assert ((i + 1) / 64 = i / 64 + 1) as -> by divmod.
    assert ((i + 1) mod 64 = 0) as -> by divmod. reflexivity.
  - assert (Hp : 0 < 2 ^ (63 - i mod 64 - 1)) by (apply Z.pow_pos_nonneg; lia).
    destruct (Z.eqb_spec (2 ^ (63 - i mod 64 - 1)) 0); [lia|].
    assert ((i + 1) / 64 = i / 64) as -> by divmod.
    assert ((i + 1) mod 64 = i mod 64 + 1) as -> by divmod.
    do 3 f_equal. lia.
Qed.

Lemma fib_cursor_start (pos : Z) :
  0 <= pos < 2 ^ 50 ->
  Z.land (Z.shiftr pos 6) 0x0000cfffffffffff = pos / 64
  /\ Z.shiftr 0x8000000000000000 (Z.land pos 0x000000000000003f)
     = 2 ^ (63 - pos mod 64).
Proof.
  intros Hp. split.
  - rewrite Z.shiftr_div_pow2 by lia. change (2 ^ 6) with 64.
    assert (Hq : 0 <= pos / 64 < 2 ^ 44) by divmod.
    change 0x0000cfffffffffff with (Z.lor (Z.ones 44) (3 * 2 ^ 46)).
    apply Z.bits_inj'. intros k Hk.
    rewrite Z.land_spec, Z.lor_spec.
    destruct (Z.lt_ge_cases k 44).
    + rewrite Z.ones_spec_low by lia. simpl. apply andb_true_r.
    + rewrite (testbit_small (pos / 64) 44 k) by lia. reflexivity.
  - change 0x000000000000003f with (Z.ones 6). rewrite Z.land_ones by lia.
    change (2 ^ 6) with 64. change 0x8000000000000000 with (2 ^ 63).
    assert (Hm : 0 <= pos mod 64 < 64) by divmod.
    rewrite Z.shiftr_div_pow2 by lia.
    replace 63 with (63 - pos mod 64 + pos mod 64) at 1 by lia.
    rewrite Z.pow_add_r by lia. apply Z.div_mul.
    apply Z.pow_nonzero; lia.
Qed.

Lemma fibValue_nonneg (d : Z -> bool) (k : nat) : 0 <= fibValue d k.
Proof.
  induction k as [|k IH]; [simpl; lia|]. cbn [fibValue].
  pose proof (fibZ_pos k) as [H _]. destruct (d (Z.of_nat k)); lia.
Qed.

Lemma fibValue_mono (d : Z -> bool) (a b : nat) :
  (a <= b)%nat -> fibValue d a <= fibValue d b.
Proof.
  induction 1 as [|b _ IH]; [lia|]. cbn [fibValue].
  pose proof (fibZ_pos b) as [H _]. destruct (d (Z.of_nat b)); lia.
Qed.

Lemma fibValue_above (d : Z -> bool) (a b : nat) :
  (a <= b)%nat -> (forall j, Z.of_nat a <= j -> d j = false) ->
  fibValue d b = fibValue d a.
Proof.
  intros Hab Hd. induction Hab as [|b Hab IH]; [reflexivity|].
  cbn [fibValue]. rewrite Hd by lia. lia.
Qed.

(** The decoder's loop, [n] rounds before the terminator: the cursor stands
    at bit [pos + f + 2], [oldbit] and [newbit] hold the digits [f] and
    [f + 1], and [val] is the value of the digits below [f]. *)
Lemma getFib_loop_spec (n : nat) :
  forall (fuel : nat) (ptr : list Z) (pos : Z) (d : Z -> bool) (f top : nat)
         (ob nb : Z),
  top = (f + n)%nat -> (top < 92)%nat -> (n <= fuel)%nat ->
  0 <= pos -> pos + Z.of_nat top + 2 <= 2 ^ 50 ->
  digitsAt ptr pos d (Z.of_nat top + 2) ->
  d (Z.of_nat top) = true -> d (Z.of_nat top + 1) = true ->
  noAdjacent d (Z.of_nat top + 1) ->
  fibValue d (S top) < 2 ^ 64 ->
  (ob =? 0) = negb (d (Z.of_nat f)) ->
  (nb =? 0) = negb (d (Z.of_nat f + 1)) ->
  getFib_loop fuel ptr ((pos + Z.of_nat f + 2) / 64)
              (2 ^ (63 - (pos + Z.of_nat f + 2) mod 64))
              (fibValue d f) (Z.of_nat f) ob nb
  = Some (fibValue d top, Z.of_nat top).
Proof.
  induction n as [|n IH];
    intros fuel ptr pos d f top ob nb Ht Htop Hfuel Hp Hp50 Hd Hdt Hdt1 Hna Hv Hob Hnb.
  - assert (top = f) as -> by lia.
    rewrite Hdt in Hob. rewrite Hdt1 in Hnb. simpl in Hob, Hnb.
    destruct fuel; simpl; rewrite Hob, Hnb; reflexivity.
  - destruct fuel as [|fuel]; [lia|].
    assert (Hadj : d (Z.of_nat f) && d (Z.of_nat f + 1) = false)
      by (apply Hna; lia).
    cbn [getFib_loop].
    assert (Hc : (ob =? 0) || (nb =? 0) = true).
    { rewrite Hob, Hnb. destruct (d (Z.of_nat f)), (d (Z.of_nat f + 1));
        simpl in *; congruence. }
    rewrite Hc.
    pose proof (fibValue_nonneg d f) as Hv0.
    pose proof (fibValue_mono d (S f) (S top) ltac:(lia)) as Hvm.
    assert (Hval : (if ob =? 0 then Some (fibValue d f)
                    else f0 ← fibonacciValues !! Z.to_nat (Z.of_nat f);
                         Some (wrap64 (fibValue d f + f0)))
                   = Some (fibValue d (S f))).
    { cbn [fibValue] in *. rewrite Hob.
      destruct (d (Z.of_nat f)); simpl negb; cbv iota.
      - rewrite Nat2Z.id, fibonacciValues_lookup by lia. simpl mbind.
        pose proof (fibZ_pos f) as [Hf _]. now rewrite wrap64_small by lia.
      - f_equal. lia. }
    rewrite Hval. simpl mbind.
    rewrite (wrap32_small (Z.of_nat f + 1)) by lia.
    destruct (fib_fetch_spec ptr (pos + Z.of_nat f + 2) (d (Z.of_nat f + 2)))
      as (x & Ex & Hx); [lia|lia| |].
    { replace (pos + Z.of_nat f + 2) with (pos + (Z.of_nat f + 2)) by lia.
      apply Hd. lia. }
    rewrite Ex. simpl mbind.
    replace (pos + Z.of_nat f + 2 + 1) with (pos + Z.of_nat (S f) + 2) by lia.
    replace (Z.of_nat f + 1) with (Z.of_nat (S f)) by lia.
    apply (IH fuel ptr pos d (S f) top nb x); try assumption; try lia.
    + replace (Z.of_nat (S f)) with (Z.of_nat f + 1) by lia. exact Hnb.
    + replace (Z.of_nat (S f) + 1) with (Z.of_nat f + 2) by lia. exact Hx.
Qed.

(** The decoder on a well-formed code: digits without neighbouring ones,
    closed by the two one bits at [top] and [top + 1]. *)
Lemma getFibonacciEncodedNumber_of
    (ptr : list Z) (pos : Z) (d : Z -> bool) (top : nat) :
  (top < 92)%nat -> 0 <= pos -> pos + Z.of_nat top + 2 <= 2 ^ 50 ->
  digitsAt ptr pos d (Z.of_nat top + 2) ->
  d (Z.of_nat top) = true -> d (Z.of_nat top + 1) = true ->
  noAdjacent d (Z.of_nat top + 1) ->
  fibValue d (S top) < 2 ^ 64 ->
  getFibonacciEncodedNumber ptr pos
  = Some (fibValue d (S top) - 1, Z.of_nat top + 2).
Proof.
  intros Htop Hp Hp50 Hd Hdt Hdt1 Hna Hv.
  unfold getFibonacciEncodedNumber.
  destruct (fib_cursor_start pos ltac:(lia)) as [-> ->].
  destruct (fib_fetch_spec ptr pos (d 0)) as (ob & E0 & Hob); [lia|lia| |].
  { replace pos with (pos + 0) at 1 by lia. apply Hd. lia. }
  rewrite E0. bind_step.
  destruct (fib_fetch_spec ptr (pos + 1) (d 1)) as (nb & E1 & Hnb); [lia|lia| |].
  { apply Hd. lia. }
  rewrite E1. bind_step.
  assert (Hlen : Z.of_nat top <= 64 * Z.of_nat (length ptr)).
  { specialize (Hd (Z.of_nat top + 1) ltac:(lia)).
    apply getBit_Some_inside in Hd; [|lia]. unfold bitLength in Hd. lia. }
  pose proof (getFib_loop_spec top (64 * length ptr) ptr pos d 0 top ob nb) as L.
  cbn [fibValue] in L. change (Z.of_nat 0) with 0 in L.
  rewrite Z.add_0_r in L. replace (pos + 1 + 1) with (pos + 2) by lia.
  rewrite L; try assumption; try lia. clear L.
  bind_step. rewrite Nat2Z.id, fibonacciValues_lookup by assumption.
  bind_step. cbn [fibValue] in *. rewrite Hdt in *.
  pose proof (fibValue_nonneg d top) as Hv0.
  pose proof (fibZ_pos top) as [Hf _].
  rewrite (wrap64_small (fibValue d top + fibZ top)) by lia.
  rewrite wrap64_small by lia. rewrite wrap32_small by lia. reflexivity.
Qed.

Lemma fibCode_below_top (v j : Z) :
  j < ztop fibEntries v ->
  zdigit fibEntries v j
  || ((0 <? ztop fibEntries v) && (j =? ztop fibEntries v))
  = zdigit fibEntries v j.
Proof.
  intros Hj.
  destruct (Z.eqb_spec j (ztop fibEntries v)); [lia|].
  rewrite andb_false_r. apply orb_false_r.
Qed.

(** The code of a value [v] with [0 < v < 2^64]. *)
Lemma fibCode_spec (v : Z) :
  0 < v < 2 ^ 64 ->
  exists t : nat,
    fibCodeSize v = Z.of_nat t + 2 /\ (t < 92)%nat
    /\ fibZ t <= v < fibZ (S t)
    /\ fibCode v (Z.of_nat t) = true /\ fibCode v (Z.of_nat t + 1) = true
    /\ noAdjacent (fibCode v) (Z.of_nat t + 1)
    /\ fibValue (fibCode v) (S t) = v.
Proof.
  intros Hv. pose proof fibZ_beyond_table as H92.
  pose proof fibonacciValuesLen_nat as HN.
  destruct (ztop_spec fibEntries v ltac:(lia)) as (t & Ht & Hlt & Hr & Hd).
  exists t. split; [lia|]. split; [lia|].
  split; [assumption|]. split; [|split; [|split]].
  - rewrite fibCode_below_top by lia. assumption.
  - rewrite Ht.
    destruct (Z.ltb_spec 0 (Z.of_nat t + 1)); [|lia].
    rewrite Z.eqb_refl. apply orb_true_r.
  - intros j Hj0 Hj. cbv beta. rewrite !fibCode_below_top by lia.
    apply (zeckendorf_noAdjacent fibEntries v); lia.
  - rewrite (fibValue_ext _ (zdigit fibEntries v))
      by (intros j Hj; apply fibCode_below_top; lia).
    rewrite <- (fibValue_above (zdigit fibEntries v) (S t) fibEntries) by
      (try lia; intros j Hj; apply zdigit_above_top; lia).
    apply zeckendorf_sum. lia.
Qed.

Lemma fibonacci_encode_decode (ptr : list Z) (pos val : Z) :
  0 <= pos -> 0 <= val -> val + 1 < 2 ^ 64 ->
  pos + fibCodeSize (val + 1) <= bitLength ptr ->
  bitLength ptr <= 2 ^ 50 ->
  exists (ptr' : list Z) (top : nat),
    setFibonacciEncodedNumber ptr pos val = Some (ptr', Z.of_nat top + 2)
    /\ fibCodeSize (val + 1) = Z.of_nat top + 2
    /\ (top < 92)%nat
    /\ fibZ top <= val + 1 < fibZ (S top)
    /\ digitsAt ptr' pos (fibCode (val + 1)) (Z.of_nat top + 2)
    /\ fibValue (fibCode (val + 1)) (S top) = val + 1
    /\ noAdjacent (fibCode (val + 1)) (Z.of_nat top + 1)
    /\ fibCode (val + 1) (Z.of_nat top) = true
    /\ fibCode (val + 1) (Z.of_nat top + 1) = true
    /\ sameOutside ptr ptr' pos (Z.of_nat top + 2)
    /\ forall ptr2,
         sameInside ptr' ptr2 pos (Z.of_nat top + 2) ->
         getFibonacciEncodedNumber ptr2 pos = Some (val, Z.of_nat top + 2).
Proof.
  intros Hp Hv Hv64 Hin Hb50.
  assert (Hw : wrap64 (val + 1) = val + 1) by (apply wrap64_small; lia).
  destruct (setFibonacciEncodedNumber_spec ptr pos val) as (ptr' & E & Hd & Hout);
    rewrite ?Hw; [lia..|].
  rewrite Hw in *.
  destruct (fibCode_spec (val + 1) ltac:(lia))
    as (t & Ht & Hlt & Hr & Hdt & Hdt1 & Hna & Hsum).
  rewrite Ht in *.
  exists ptr', t. split; [exact E|]. split; [reflexivity|].
  split; [assumption|]. split; [assumption|].
  split; [assumption|]. split; [assumption|]. split; [assumption|].
  split; [assumption|]. split; [assumption|]. split; [assumption|].
  intros ptr2 Hs.
  rewrite (getFibonacciEncodedNumber_of ptr2 pos (fibCode (val + 1)) t);
    try assumption; try lia.
  - rewrite Hsum. do 2 f_equal. lia.
  - intros j Hj. rewrite Hs by lia. now apply Hd.
Qed.

(** C5: for every val >= 0 whose biased value val + 1 is below 2^64 (every
    such value is a sum of entries of the 92-entry table),
    [setFibonacciEncodedNumber] writes digits that select entries of the
    table adding up to val + 1, no two of them neighbours, the last digit
    being the largest entry [top] that is at most val + 1, and one more one
    bit after it; it reports the size top + 2.
    [getFibonacciEncodedNumber] at the same offset returns val and the same
    size.  The code of 0 is the two bits 11. *)
Theorem C5_fibonacci_encode_decode (ptr : list Z) (pos val : Z) :
  0 <= pos -> 0 <= val -> val + 1 < 2 ^ 64 ->
  pos + fibCodeSize (val + 1) <= bitLength ptr ->
  bitLength ptr <= 2 ^ 50 ->
  (exists (ptr' : list Z) (top : nat) (d : Z -> bool),
      setFibonacciEncodedNumber ptr pos val = Some (ptr', Z.of_nat top + 2)
      /\ fibonacciValues !! top = Some (fibZ top)
      /\ fibZ top <= val + 1 < fibZ (S top)
      /\ digitsAt ptr' pos d (Z.of_nat top + 2)
      /\ fibValue d (S top) = val + 1
      /\ noAdjacent d (Z.of_nat top + 1)
      /\ d (Z.of_nat top) = true /\ d (Z.of_nat top + 1) = true
      /\ sameOutside ptr ptr' pos (Z.of_nat top + 2)
      /\ getFibonacciEncodedNumber ptr' pos = Some (val, Z.of_nat top + 2))
  /\ encodedBits setFibonacciEncodedNumber [0] 0 0 = Some ([true; true], 2).
Proof.
  intros Hp Hv Hv64 Hin Hb50. split; [|vm_compute; reflexivity].
  destruct (fibonacci_encode_decode ptr pos val Hp Hv Hv64 Hin Hb50)
    as (ptr' & top & E & _ & Hlt & Hr & Hd & Hsum & Hna & Hdt & Hdt1 & Hout & D).
  exists ptr', top, (fibCode (val + 1)).
  split; [exact E|]. split; [now apply fibonacciValues_lookup|].
  split; [assumption|]. split; [assumption|]. split; [assumption|].
  split; [assumption|]. split; [assumption|]. split; [assumption|].
  split; [assumption|]. apply D. intros j Hj. reflexivity.
Qed.

Lemma C5_fibonacci_encode_decode_witness :
  (exists (ptr' : list Z) (top : nat) (d : Z -> bool),
      setFibonacciEncodedNumber [0; 2 ^ 64 - 1; 5] 60 1000
      = Some (ptr', Z.of_nat top + 2)
      /\ fibonacciValues !! top = Some (fibZ top)
      /\ fibZ top <= 1000 + 1 < fibZ (S top)
      /\ digitsAt ptr' 60 d (Z.of_nat top + 2)
      /\ fibValue d (S top) = 1000 + 1
      /\ noAdjacent d (Z.of_nat top + 1)
      /\ d (Z.of_nat top) = true /\ d (Z.of_nat top + 1) = true
      /\ sameOutside [0; 2 ^ 64 - 1; 5] ptr' 60 (Z.of_nat top + 2)
      /\ getFibonacciEncodedNumber ptr' 60 = Some (1000, Z.of_nat top + 2))
  /\ encodedBits setFibonacciEncodedNumber [0] 0 0 = Some ([true; true], 2).
Proof.
  apply (C5_fibonacci_encode_decode [0; 2 ^ 64 - 1; 5] 60 1000).
  - lia.
  - lia.
  - lia.
  - vm_compute. discriminate.
  - vm_compute. discriminate.
Defined.

(** C7: for every val with 0 <= val < 2^64, the bits
    [setFibonacciEncodedNumber] writes contain no two consecutive one bits
    before the last bit of the code; so there are none in the pattern without
    its two-bit terminator. *)
Theorem C7_fibonacci_no_adjacent_ones (ptr : list Z) (pos val : Z) :
  0 <= pos -> 0 <= val < 2 ^ 64 ->
  pos + fibCodeSize (wrap64 (val + 1)) <= bitLength ptr ->
  bitLength ptr < 2 ^ 64 ->
  exists ptr' siz,
    setFibonacciEncodedNumber ptr pos val = Some (ptr', siz)
    /\ (forall i, pos <= i -> i + 1 < pos + siz - 1 ->
                  ~ (getBit ptr' i = Some true /\ getBit ptr' (i + 1) = Some true))
    /\ (forall i, pos <= i -> i + 1 < pos + siz - 2 ->
                  ~ (getBit ptr' i = Some true /\ getBit ptr' (i + 1) = Some true)).
Proof.
  intros Hp Hv Hin Hb64.
  destruct (setFibonacciEncodedNumber_spec ptr pos val Hp Hv Hin Hb64)
    as (ptr' & E & Hd & Hout).
  assert (Hw : 0 <= wrap64 (val + 1) < 2 ^ 64)
    by (unfold wrap64; apply Z.mod_pos_bound; lia).
  set (v := wrap64 (val + 1)) in *.
  exists ptr', (fibCodeSize v). split; [exact E|].
  assert (G : forall i, pos <= i -> i + 1 < pos + fibCodeSize v - 1 ->
                ~ (getBit ptr' i = Some true /\ getBit ptr' (i + 1) = Some true)).
  { intros i Hi Hi1 [B1 B2].
    pose proof (Hd (i - pos) ltac:(lia)) as D1.
    pose proof (Hd (i + 1 - pos) ltac:(lia)) as D2.
    cbv beta in D1, D2.
    replace (pos + (i - pos)) with i in D1 by lia.
    replace (pos + (i + 1 - pos)) with (i + 1) in D2 by lia.
    rewrite B1 in D1. rewrite B2 in D2.
    rewrite fibCode_below_top in D1, D2 by lia.
    assert (D1' : zdigit fibEntries v (i - pos) = true) by congruence.
    assert (D2' : zdigit fibEntries v (i + 1 - pos) = true) by congruence.
    pose proof fibZ_beyond_table as H92.
    pose proof (zeckendorf_noAdjacent fibEntries v ltac:(lia) (i - pos)
                  ltac:(lia)) as Hna.
    pose proof (ztop_range fibEntries v) as Ht.
    replace (i - pos + 1) with (i + 1 - pos) in Hna by lia.
    rewrite D1', D2' in Hna. specialize (Hna ltac:(lia)). discriminate Hna. }
  split; [exact G|]. intros i Hi Hi1. apply G; lia.
Qed.

Lemma C7_fibonacci_no_adjacent_ones_witness :
  exists ptr' siz,
    setFibonacciEncodedNumber [0; 2 ^ 64 - 1; 5] 60 10000 = Some (ptr', siz)
    /\ (forall i, 60 <= i -> i + 1 < 60 + siz - 1 ->
                  ~ (getBit ptr' i = Some true /\ getBit ptr' (i + 1) = Some true))
    /\ (forall i, 60 <= i -> i + 1 < 60 + siz - 2 ->
                  ~ (getBit ptr' i = Some true /\ getBit ptr' (i + 1) = Some true)).
Proof.
  apply (C7_fibonacci_no_adjacent_ones [0; 2 ^ 64 - 1; 5] 60 10000).
  - lia.
  - lia.
  - vm_compute. discriminate.
  - vm_compute. reflexivity.
Defined.

(** ** The bit range of a code *)

(** The unary decoder fetches 64 bits whatever the code: within the last 63
    bits of the array it reads past the end. *)
Lemma getUnaryEncodedNumber_past_end (ptr : list Z) (pos : Z) :
  0 <= pos -> bitLength ptr < pos + 64 ->
  getUnaryEncodedNumber ptr pos = None.
Proof.
  intros Hp Hb. unfold getUnaryEncodedNumber.
  now rewrite getDecodedValue_outside by lia.
Qed.

(** * Further properties of the coders *)

(** ** What the unary decoder accepts *)

Lemma field_zero_bits (ptr : list Z) (pos : Z) :
  getDecodedValue ptr pos 64 = Some 0 ->
  forall j, pos <= j < pos + 64 -> getBit ptr j = Some false.
Proof.
  intros H j Hj. apply getDecodedValue_spec in H as [_ Hbits]; [|lia].
  specialize (Hbits (pos + 64 - 1 - j) ltac:(lia)).
  rewrite testbit_zero in Hbits. rewrite <- Hbits. f_equal. lia.
Qed.

(** The loop of the decoder has skipped whole fields of zero bits and stands
    on the first field that is not zero. *)
Lemma getUnary_loop_inv (fuel : nat) :
  forall (ptr : list Z) (pos val enc val' enc' : Z),
  0 <= pos -> 0 <= val <= pos -> bitLength ptr < 2 ^ 64 ->
  getDecodedValue ptr pos 64 = Some enc ->
  getUnary_loop fuel ptr pos val enc = Some (val', enc') ->
  exists k, 0 <= k /\ val' = val + 64 * k
    /\ (forall j, pos <= j < pos + 64 * k -> getBit ptr j = Some false)
    /\ getDecodedValue ptr (pos + 64 * k) 64 = Some enc' /\ enc' <> 0.
Proof.
  induction fuel as [|fuel IH]; intros ptr pos val enc val' enc' Hp Hv Hb He H.
  - simpl in H. unfold uint64ZERO in H.
    destruct (Z.eqb_spec enc 0); [discriminate|]. injection H as <- <-.
    exists 0. rewrite Z.mul_0_r, !Z.add_0_r.
    split; [lia|]. split; [reflexivity|]. split; [lia|]. now split.
  - simpl in H. unfold uint64ZERO in H.
    destruct (Z.eqb_spec enc 0) as [->|Hne].
    + destruct (getDecodedValue_Some_inside ptr pos 64 0 Hp ltac:(lia) He)
        as [Hin _].
      rewrite !wrap64_small in H by lia.
      destruct (getDecodedValue ptr (pos + 64) 64) as [enc1|] eqn:E1;
        simpl in H; [|discriminate].
      apply IH in H as (k & Hk & -> & Hz & He' & Hne');
        [|lia|lia|assumption|assumption].
      exists (k + 1). split; [lia|]. split; [lia|]. split; [|split].
      * intros j Hj. destruct (Z.lt_ge_cases j (pos + 64)).
        -- apply (field_zero_bits ptr pos He). lia.
        -- apply Hz. lia.
      * rewrite <- He'. f_equal. lia.
      * assumption.
    + injection H as <- <-.
      exists 0. rewrite Z.mul_0_r, !Z.add_0_r.
      split; [lia|]. split; [reflexivity|]. split; [lia|]. now split.
Qed.

(** The first one bit of a field that is not zero. *)
Lemma field_first_one (ptr : list Z) (pos enc : Z) :
  getDecodedValue ptr pos 64 = Some enc -> enc <> 0 ->
  1 <= logBaseTwo64 enc <= 64
  /\ unaryAt ptr pos (64 - logBaseTwo64 enc).
Proof.
  intros H Hne. apply getDecodedValue_spec in H as [Hr Hbits]; [|lia].
  pose proof (logBaseTwo64_range enc Hr) as Hl.
  rewrite logBaseTwo64_pos in * by lia.
  pose proof (Z.log2_nonneg enc) as Hl0.
  split; [lia|]. split.
  - intros j Hj. rewrite <- (Z.bits_above_log2 enc (pos + 64 - 1 - j)) by lia.
    rewrite <- Hbits by lia. f_equal. lia.
  - rewrite <- (Z.bit_log2 enc) by lia.
    rewrite <- Hbits by lia. f_equal. lia.
Qed.

Lemma getUnaryEncodedNumber_inv (ptr : list Z) (pos n siz : Z) :
  0 <= pos -> bitLength ptr < 2 ^ 64 ->
  getUnaryEncodedNumber ptr pos = Some (n, siz) ->
  0 <= n /\ siz = n + 1 /\ unaryAt ptr pos n
  /\ pos + 64 * (n / 64 + 1) <= bitLength ptr.
Proof.
  intros Hp Hb H. unfold getUnaryEncodedNumber in H.
  destruct (getDecodedValue ptr pos 64) as [enc|] eqn:E; simpl in H; [|discriminate].
  destruct (getUnary_loop (length ptr) ptr pos uint64ZERO enc)
    as [[val enc']|] eqn:L; simpl in H; [|discriminate].
  unfold uint64ZERO in L.
  apply getUnary_loop_inv in L as (k & Hk & -> & Hz & He' & Hne');
    [|lia|lia|assumption|assumption].
  destruct (field_first_one _ _ _ He' Hne') as [Hl [Hz1 Ho1]].
  apply getDecodedValue_Some_inside in He' as Hin; [|lia|lia].
  destruct Hin as [Hin _].
  rewrite (wrap64_small (64 - logBaseTwo64 enc')) in H by lia.
  rewrite (wrap64_small (0 + 64 * k + (64 - logBaseTwo64 enc'))) in H by lia.
  rewrite wrap64_small in H by lia.
  injection H as <- <-.
  set (z := 64 - logBaseTwo64 enc') in *.
  assert (Hq : (0 + 64 * k + z) / 64 = k) by divmod.
  split; [lia|]. split; [reflexivity|]. split; [|rewrite Hq; lia].
  split.
  - intros j Hj. destruct (Z.lt_ge_cases j (pos + 64 * k)).
    + apply Hz. lia.
    + apply Hz1. lia.
  - rewrite <- Ho1. f_equal. lia.
Qed.

(** X1: in an array of fewer than 2^64 bits, [getUnaryEncodedNumber] at
    [pos] returns the value [n] with the size [siz] exactly when the bits
    from [pos] on are [n] zero bits followed by a one bit, [siz] is [n + 1],
    and the array holds every whole 64-bit field the decoder fetches: the
    [n / 64 + 1] fields from [pos] on. *)
Theorem unary_decoder_accepts (ptr : list Z) (pos n siz : Z) :
  0 <= pos -> bitLength ptr < 2 ^ 64 ->
  getUnaryEncodedNumber ptr pos = Some (n, siz)
  <-> 0 <= n /\ siz = n + 1 /\ unaryAt ptr pos n
      /\ pos + 64 * (n / 64 + 1) <= bitLength ptr.
Proof.
  intros Hp Hb. split.
  - now apply getUnaryEncodedNumber_inv.
  - intros (Hn & -> & Hu & Hin).
    now apply getUnaryEncodedNumber_unaryAt.
Qed.

Lemma unary_decoder_accepts_witness :
  getUnaryEncodedNumber [0; 2 ^ 60; 7] 3 = Some (64, 65)
  <-> 0 <= 64 /\ 65 = 64 + 1 /\ unaryAt [0; 2 ^ 60; 7] 3 64
      /\ 3 + 64 * (64 / 64 + 1) <= bitLength [0; 2 ^ 60; 7].
Proof.
  apply (unary_decoder_accepts [0; 2 ^ 60; 7] 3 64 65).
  - lia.
  - vm_compute. reflexivity.
Defined.

(** X2: the unary decoder fetches a whole 64-bit field before it looks at
    any bit, and the generalized unary, gamma and delta decoders start with
    it: within the last 63 bits of the array all four read past the end of
    the array, whatever the bits are. *)
Theorem decoders_fetch_whole_field (ptr : list Z) (pos : Z) :
  0 <= pos -> bitLength ptr < pos + 64 ->
  getUnaryEncodedNumber ptr pos = None
  /\ getGeneralizedUnaryEncodedNumber ptr pos = None
  /\ getEliasGammaEncodedNumber ptr pos = None
  /\ getEliasDeltaEncodedNumber ptr pos = None.
Proof.
  intros Hp Hb.
  pose proof (getUnaryEncodedNumber_past_end ptr pos Hp Hb) as U.
  unfold getEliasDeltaEncodedNumber, getEliasGammaEncodedNumber,
    getGeneralizedUnaryEncodedNumber.
  rewrite U. repeat split; reflexivity.
Qed.

Lemma decoders_fetch_whole_field_witness :
  getUnaryEncodedNumber [2 ^ 62; 1] 65 = None
  /\ getGeneralizedUnaryEncodedNumber [2 ^ 62; 1] 65 = None
  /\ getEliasGammaEncodedNumber [2 ^ 62; 1] 65 = None
  /\ getEliasDeltaEncodedNumber [2 ^ 62; 1] 65 = None.
Proof.
  apply (decoders_fetch_whole_field [2 ^ 62; 1] 65).
  - lia.
  - vm_compute. reflexivity.
Defined.

(** X3: a code cut off before its one bit is not decoded: when every bit
    from [pos] to the end of the array is zero, the unary decoder goes on
    fetching fields until it reads past the end of the array, and so do the
    generalized unary, gamma and delta decoders. *)
Theorem unary_decoder_needs_one_bit (ptr : list Z) (pos : Z) :
  0 <= pos -> bitLength ptr < 2 ^ 64 ->
  (forall j, pos <= j < bitLength ptr -> getBit ptr j = Some false) ->
  getUnaryEncodedNumber ptr pos = None
  /\ getGeneralizedUnaryEncodedNumber ptr pos = None
  /\ getEliasGammaEncodedNumber ptr pos = None
  /\ getEliasDeltaEncodedNumber ptr pos = None.
Proof.
  intros Hp Hb Hz.
  assert (U : getUnaryEncodedNumber ptr pos = None).
  { destruct (getUnaryEncodedNumber ptr pos) as [[n siz]|] eqn:E;
      [|reflexivity].
    apply getUnaryEncodedNumber_inv in E as (Hn & _ & [_ Ho] & Hin);
      [|assumption..].
    assert (n < 64 * (n / 64 + 1)) by divmod.
    rewrite Hz in Ho by lia. discriminate Ho. }
  unfold getEliasDeltaEncodedNumber, getEliasGammaEncodedNumber,
    getGeneralizedUnaryEncodedNumber.
  rewrite U. repeat split; reflexivity.
Qed.

Lemma unary_decoder_needs_one_bit_witness :
  getUnaryEncodedNumber [2 ^ 64 - 1; 0; 0] 64 = None
  /\ getGeneralizedUnaryEncodedNumber [2 ^ 64 - 1; 0; 0] 64 = None
  /\ getEliasGammaEncodedNumber [2 ^ 64 - 1; 0; 0] 64 = None
  /\ getEliasDeltaEncodedNumber [2 ^ 64 - 1; 0; 0] 64 = None.
Proof.
  apply (unary_decoder_needs_one_bit [2 ^ 64 - 1; 0; 0] 64).
  - lia.
  - vm_compute. reflexivity.
  - intros j Hj. change (bitLength [2 ^ 64 - 1; 0; 0]) with 192 in Hj.
    unfold getBit.
    assert (H : j / 64 = 1 \/ j / 64 = 2) by divmod.
    destruct H as [-> | ->]; simpl; now rewrite Z.testbit_0_l.
Defined.

(** ** What the other unary-based decoders accept *)

Lemma logBaseTwo64_below (x k : Z) :
  0 <= k -> 0 <= x < 2 ^ k -> logBaseTwo64 x <= k.
Proof.
  intros Hk Hx. unfold logBaseTwo64. destruct (Z.eqb_spec x 0); [lia|].
  assert (Z.log2 x < k) by (apply Z.log2_lt_pow2; lia). lia.
Qed.

Lemma getDecodedValue_Some_fieldAt (ptr : list Z) (pos siz v : Z) :
  0 <= siz -> getDecodedValue ptr pos siz = Some v ->
  siz <= 64 /\ 0 <= v < 2 ^ siz /\ fieldAt ptr pos siz v.
Proof.
  intros Hs H. split.
  - unfold getDecodedValue in H. destruct (Z.leb_spec siz 64); [lia|discriminate].
  - apply getDecodedValue_spec in H as [Hr Hbits]; [|assumption].
    split; [assumption|]. intros j Hj.
    rewrite <- (Hbits (pos + siz - 1 - j)) by lia. f_equal. lia.
Qed.

Lemma getEliasGammaEncodedNumber_inv (ptr : list Z) (pos v siz : Z) :
  0 <= pos -> bitLength ptr < 2 ^ 64 ->
  getEliasGammaEncodedNumber ptr pos = Some (v, siz) ->
  exists b, 0 <= b <= 64 /\ siz = 2 * b + 1
    /\ unaryAt ptr pos b /\ pos + 64 * (b / 64 + 1) <= bitLength ptr
    /\ 0 <= v < 2 ^ b /\ fieldAt ptr (pos + b + 1) b v.
Proof.
  intros Hp Hb H. unfold getEliasGammaEncodedNumber in H.
  destruct (getUnaryEncodedNumber ptr pos) as [[b s]|] eqn:U;
    simpl in H; [|discriminate].
  apply getUnaryEncodedNumber_inv in U as (Hb0 & -> & Hu & Hin);
    [|assumption..].
  assert (b < 64 * (b / 64 + 1)) by divmod.
  rewrite (wrap64_small (pos + (b + 1))) in H by lia.
  destruct (getDecodedValue ptr (pos + (b + 1)) b) as [f|] eqn:F;
    simpl in H; [|discriminate].
  apply getDecodedValue_Some_fieldAt in F as (Hb64 & Hf & Hfield); [|lia].
  rewrite (wrap64_small (b + 1 + b)) in H by lia.
  injection H as <- <-.
  exists b. split; [lia|]. split; [lia|]. split; [assumption|].
  split; [assumption|]. split; [assumption|].
  now replace (pos + b + 1) with (pos + (b + 1)) by lia.
Qed.

(** X4: in an array of fewer than 2^64 bits, [getEliasGammaEncodedNumber]
    returns [v] with the size [siz] exactly when the bits from [pos] on are
    the unary code of some [b <= 64] followed by a field of [b] bits that
    holds [v], [siz] is [2 b + 1], and the array holds the 64-bit fields the
    unary decoder fetches.  The decoder does not ask that the field starts
    with a one bit. *)
Theorem gamma_decoder_accepts (ptr : list Z) (pos v siz : Z) :
  0 <= pos -> bitLength ptr < 2 ^ 64 ->
  getEliasGammaEncodedNumber ptr pos = Some (v, siz)
  <-> exists b, 0 <= b <= 64 /\ siz = 2 * b + 1
        /\ unaryAt ptr pos b /\ pos + 64 * (b / 64 + 1) <= bitLength ptr
        /\ 0 <= v < 2 ^ b /\ fieldAt ptr (pos + b + 1) b v.
Proof.
  intros Hp Hb. split.
  - now apply getEliasGammaEncodedNumber_inv.
  - intros (b & Hb64 & -> & Hu & Hin & Hv & Hf).
    rewrite (getEliasGammaEncodedNumber_of ptr pos b v) by assumption.
    now rewrite Z.mod_small by assumption.
Qed.

Lemma gamma_decoder_accepts_witness :
  getEliasGammaEncodedNumber [2 ^ 60 + 2 ^ 58; 0] 0 = Some (2, 7)
  <-> exists b, 0 <= b <= 64 /\ 7 = 2 * b + 1
        /\ unaryAt [2 ^ 60 + 2 ^ 58; 0] 0 b
        /\ 0 + 64 * (b / 64 + 1) <= bitLength [2 ^ 60 + 2 ^ 58; 0]
        /\ 0 <= 2 < 2 ^ b /\ fieldAt [2 ^ 60 + 2 ^ 58; 0] (0 + b + 1) b 2.
Proof.
  apply (gamma_decoder_accepts [2 ^ 60 + 2 ^ 58; 0] 0 2 7).
  - lia.
  - vm_compute. reflexivity.
Defined.

Lemma getEliasDeltaEncodedNumber_inv (ptr : list Z) (pos v siz : Z) :
  0 <= pos -> bitLength ptr < 2 ^ 64 ->
  getEliasDeltaEncodedNumber ptr pos = Some (v, siz) ->
  exists u g,
    0 <= u <= 64 /\ 1 <= g <= 64 /\ g < 2 ^ u /\ siz = 2 * u + g
    /\ unaryAt ptr pos u /\ fieldAt ptr (pos + u + 1) u g
    /\ 2 ^ (g - 1) <= v < 2 ^ g
    /\ fieldAt ptr (pos + 2 * u + 1) (g - 1) v.
Proof.
  intros Hp Hb H. unfold getEliasDeltaEncodedNumber in H.
  destruct (getEliasGammaEncodedNumber ptr pos) as [[g s]|] eqn:G;
    simpl in H; [|discriminate].
  apply getEliasGammaEncodedNumber_inv in G
      as (u & Hu64 & -> & Hu & Hin & Hg & Hgf); [|assumption..].
  assert (Hu2 : 2 ^ u <= 2 ^ 64) by (apply Z.pow_le_mono_r; lia).
  assert (Hg1 : 1 <= g).
  { destruct (Z.eq_dec g 0) as [->|]; [|lia]. exfalso.
    unfold shl64 in H. change (wrap64 (0 - 1)) with (2 ^ 64 - 1) in H.
    destruct (Z.ltb_spec (2 ^ 64 - 1) 64); [lia|]. simpl in H. discriminate H. }
  rewrite (wrap64_small (g - 1)) in H by lia.
  assert (Hg64 : g <= 64).
  { destruct (Z.le_gt_cases g 64); [assumption|]. exfalso.
    unfold shl64 in H. destruct (Z.ltb_spec (g - 1) 64); [lia|].
    simpl in H. discriminate H. }
  rewrite shl64_one in H by lia. simpl in H.
  assert (u < 64 * (u / 64 + 1)) by divmod.
  assert (Hu1 : 1 <= u).
  { destruct (Z.eq_dec u 0) as [->|]; [|lia]. change (2 ^ 0) with 1 in Hg. lia. }
  pose proof (Hgf (pos + 2 * u) ltac:(lia)) as Ho.
  apply getBit_Some_inside in Ho; [|lia].
  rewrite (wrap64_small (pos + (2 * u + 1))) in H by lia.
  rewrite (wrap64_small (2 * u + 1 + (g - 1))) in H by lia.
  destruct (getDecodedValue ptr (pos + (2 * u + 1)) (g - 1)) as [f|] eqn:F;
    simpl in H; [|discriminate].
  injection H as <- <-.
  apply getDecodedValue_Some_fieldAt in F as (_ & Hf & Hfield); [|lia].
  assert (Hpow : 0 < 2 ^ (g - 1)) by (apply Z.pow_pos_nonneg; lia).
  assert (Hl : forall k, Z.testbit (Z.lor (2 ^ (g - 1)) f) k
                         = (k =? g - 1) || Z.testbit f k).
  { intros k. rewrite Z.lor_spec. f_equal.
    destruct (Z.eqb_spec k (g - 1)) as [->|Hne].
    - apply Z.pow2_bits_true. lia.
    - apply Z.pow2_bits_false. lia. }
  assert (Hv : Z.lor (2 ^ (g - 1)) f = 2 ^ (g - 1) + f).
  { rewrite Z.add_nocarry_lxor.
    - apply Z.bits_inj'. intros k Hk. rewrite Z.lor_spec, Z.lxor_spec.
      destruct (Z.eqb_spec k (g - 1)) as [->|Hne].
      + rewrite (testbit_small f (g - 1)) by lia.
        now destruct (Z.testbit (2 ^ (g - 1)) (g - 1)).
      + rewrite Z.pow2_bits_false by lia. reflexivity.
    - apply Z.bits_inj'. intros k Hk. rewrite Z.land_spec, Z.bits_0.
      destruct (Z.eqb_spec k (g - 1)) as [->|Hne].
      + rewrite (testbit_small f (g - 1)) by lia. apply andb_false_r.
      + rewrite Z.pow2_bits_false by lia. reflexivity. }
  rewrite Hv.
  exists u, g. split; [assumption|]. split; [lia|]. split; [lia|].
  split; [lia|]. split; [assumption|]. split; [assumption|].
  split.
  - replace (2 ^ g) with (2 * 2 ^ (g - 1)); [lia|].
    rewrite <- Z.pow_succ_r by lia. f_equal. lia.
  - intros j Hj. replace (pos + 2 * u + 1) with (pos + (2 * u + 1)) in * by lia.
    rewrite Hfield by lia. f_equal. rewrite <- Hv, Hl.
    destruct (Z.eqb_spec (pos + (2 * u + 1) + (g - 1) - 1 - j) (g - 1)); [lia|].
    reflexivity.
Qed.



(** X6: the delta decoder sets the leading bit of the value itself, so it
    never returns 0; the value it returns is below 2^64, and no code it
    accepts is shorter than the code the encoder writes for that value,
    which has [2 * logBaseTwo64 (logBaseTwo64 v) + logBaseTwo64 v] bits. *)
Theorem delta_decoded_size (ptr : list Z) (pos v siz : Z) :
  0 <= pos -> bitLength ptr < 2 ^ 64 ->
  getEliasDeltaEncodedNumber ptr pos = Some (v, siz) ->
  1 <= v < 2 ^ 64
  /\ 2 * logBaseTwo64 (logBaseTwo64 v) + logBaseTwo64 v <= siz.
Proof.
  intros Hp Hb H.
  apply getEliasDeltaEncodedNumber_inv in H
    as (u & g & Hu & Hg & Hgu & -> & _ & _ & Hv & _); [|assumption..].
  assert (2 ^ g <= 2 ^ 64) by (apply Z.pow_le_mono_r; lia).
  assert (0 < 2 ^ (g - 1)) by (apply Z.pow_pos_nonneg; lia).
  assert (Hl : logBaseTwo64 v = g).
  { rewrite logBaseTwo64_pos by lia.
    assert (Z.log2 v = g - 1); [|lia].
    apply Z.log2_unique; [lia|].
    now replace (Z.succ (g - 1)) with g by lia. }
  rewrite Hl.
  pose proof (logBaseTwo64_below g u ltac:(lia) ltac:(lia)). lia.
Qed.

Lemma delta_decoded_size_witness :
  1 <= 3 < 2 ^ 64
  /\ 2 * logBaseTwo64 (logBaseTwo64 3) + logBaseTwo64 3 <= 8.
Proof.
  apply (delta_decoded_size [2 ^ 60 + 2 ^ 58 + 2 ^ 56; 0] 0 3 8).
  - lia.
  - vm_compute. reflexivity.
  - vm_compute. reflexivity.
Defined.

(** The loop of the generalized unary decoder that adds the thresholds back
    shifts by [w - 2], [w - 4], ...: it returns only if none of these
    counts wraps around. *)
Lemma genunary_restore_Some (m : nat) : forall (w val v : Z),
  0 <= w < 2 ^ 64 -> genunary_restore m w val = Some v ->
  2 * Z.of_nat m <= w.
Proof.
  induction m as [|m IH]; intros w val v Hw H; [simpl; lia|].
  cbn [genunary_restore] in H. unfold _genunary_step in H.
  destruct (Z.lt_ge_cases w 2) as [Hlt|Hge].
  - exfalso. unfold shl64 in H.
    assert (E : wrap64 (w - 2) = w - 2 + 2 ^ 64).
    { unfold wrap64. symmetry. apply (Z.mod_unique _ _ (-1)); lia. }
    rewrite E in H. destruct (Z.ltb_spec (w - 2 + 2 ^ 64) 64); [lia|].
    simpl in H. discriminate H.
  - rewrite (wrap64_small (w - 2)) in H by lia.
    destruct (shl64 uint64ONE (w - 2)) as [s|]; simpl in H; [|discriminate].
    apply IH in H; lia.
Qed.

Lemma getGeneralizedUnaryEncodedNumber_of
    (ptr : list Z) (pos r : Z) (m : nat) :
  0 <= pos -> genunary_width m <= 64 -> 0 <= r < 2 ^ genunary_width m ->
  unaryAt ptr pos (Z.of_nat m) ->
  fieldAt ptr (pos + Z.of_nat m + 1) (genunary_width m) r ->
  pos + 64 <= bitLength ptr -> bitLength ptr < 2 ^ 64 ->
  getGeneralizedUnaryEncodedNumber ptr pos
  = Some (r + genunary_base m, Z.of_nat m + 1 + genunary_width m).
Proof.
  intros Hp Hw Hr Hu Hf Hin Hb.
  pose proof (genunary_base_bound m Hw) as Hvb.
  pose proof (genunary_base_nonneg m) as Hb0.
  cbn [genunary_base] in Hvb.
  assert (Hm : Z.of_nat m <= 30) by (unfold genunary_width in Hw; lia).
  assert (Hww : 3 <= genunary_width m <= 63) by (unfold genunary_width in *; lia).
  pose proof (proj2 Hu) as Ho. apply getBit_Some_inside in Ho; [|lia].
  unfold getGeneralizedUnaryEncodedNumber.
  rewrite (getUnaryEncodedNumber_unaryAt ptr pos (Z.of_nat m));
    try assumption; try lia.
  2:{ rewrite Z.div_small by lia. lia. }
  simpl mbind. unfold _genunary_start, _genunary_step.
  rewrite (wrap64_small (Z.of_nat m * 2)) by lia.
  rewrite (wrap64_small (3 + Z.of_nat m * 2)) by lia.
  replace (3 + Z.of_nat m * 2) with (genunary_width m)
    by (unfold genunary_width; lia).
  rewrite (wrap64_small (pos + (Z.of_nat m + 1))) by lia.
  replace (pos + (Z.of_nat m + 1)) with (pos + Z.of_nat m + 1) by lia.
  rewrite (getDecodedValue_fieldAt ptr (pos + Z.of_nat m + 1)
             (genunary_width m) r); try assumption; try lia.
  simpl mbind. rewrite (Z.mod_small r) by assumption.
  rewrite Nat2Z.id.
  rewrite genunary_restore_spec by lia.
  simpl mbind. rewrite (wrap64_small (Z.of_nat m + 1)) by lia.
  rewrite wrap64_small by lia. reflexivity.
Qed.

Lemma getGeneralizedUnaryEncodedNumber_inv (ptr : list Z) (pos v siz : Z) :
  0 <= pos -> bitLength ptr < 2 ^ 64 ->
  getGeneralizedUnaryEncodedNumber ptr pos = Some (v, siz) ->
  exists m : nat,
    genunary_width m <= 64
    /\ siz = Z.of_nat m + 1 + genunary_width m
    /\ genunary_base m <= v < genunary_base (S m)
    /\ unaryAt ptr pos (Z.of_nat m)
    /\ fieldAt ptr (pos + Z.of_nat m + 1) (genunary_width m)
               (v - genunary_base m)
    /\ pos + 64 <= bitLength ptr.
Proof.
  intros Hp Hb H. unfold getGeneralizedUnaryEncodedNumber in H.
  destruct (getUnaryEncodedNumber ptr pos) as [[mz s]|] eqn:U;
    simpl in H; [|discriminate].
  apply getUnaryEncodedNumber_inv in U as (Hm0 & -> & Hu & Hin);
    [|assumption..].
  assert (Hmz : mz < 64 * (mz / 64 + 1)) by divmod.
  unfold _genunary_start, _genunary_step in H.
  rewrite (wrap64_small (pos + (mz + 1))) in H by lia.
  set (w := wrap64 (3 + wrap64 (mz * 2))) in *.
  assert (Hw : 0 <= w < 2 ^ 64) by (apply Z.mod_pos_bound; lia).
  destruct (getDecodedValue ptr (pos + (mz + 1)) w) as [f|] eqn:F;
    simpl in H; [|discriminate].
  apply getDecodedValue_Some_fieldAt in F as (Hw64 & Hf & Hfield); [|lia].
  destruct (genunary_restore (Z.to_nat mz) w f) as [v'|] eqn:R;
    simpl in H; [|discriminate].
  pose proof (genunary_restore_Some _ _ _ _ Hw R) as Hm.
  rewrite Z2Nat.id in Hm by assumption.
  assert (Ew : w = genunary_width (Z.to_nat mz)).
  { subst w. unfold genunary_width. rewrite Z2Nat.id by assumption.
    rewrite (wrap64_small (mz * 2)) by lia. rewrite wrap64_small by lia. lia. }
  clearbody w. subst w.
  set (m := Z.to_nat mz) in *.
  assert (Em : mz = Z.of_nat m) by (subst m; now rewrite Z2Nat.id).
  clearbody m. subst mz.
  pose proof (genunary_base_bound m Hw64) as Hvb.
  pose proof (genunary_base_nonneg m) as Hb0.
  cbn [genunary_base] in Hvb.
  rewrite genunary_restore_spec in R by lia.
  injection R as <-.
  rewrite (wrap64_small (Z.of_nat m + 1)) in H by lia.
  rewrite wrap64_small in H by lia.
  injection H as <- <-.
  exists m. split; [assumption|]. split; [reflexivity|].
  split; [cbn [genunary_base]; lia|]. split; [assumption|]. split.
  - replace (f + genunary_base m - genunary_base m) with f by lia.
    now replace (pos + Z.of_nat m + 1) with (pos + (Z.of_nat m + 1)) by lia.
  - lia.
Qed.

(** X7: in an array of fewer than 2^64 bits,
    [getGeneralizedUnaryEncodedNumber] returns [v] with the size [siz]
    exactly when the bits from [pos] on are the unary code of some bucket
    [m] of width [w = 3 + 2 m <= 64] followed by a field of [w] bits, [v] is
    the field plus the thresholds below bucket [m] (so [v] lies in bucket
    [m]), [siz] is [m + 1 + w], and 64 bits from [pos] on are in the array. *)
Theorem genunary_decoder_accepts (ptr : list Z) (pos v siz : Z) :
  0 <= pos -> bitLength ptr < 2 ^ 64 ->
  getGeneralizedUnaryEncodedNumber ptr pos = Some (v, siz)
  <-> exists m : nat,
        genunary_width m <= 64
        /\ siz = Z.of_nat m + 1 + genunary_width m
        /\ genunary_base m <= v < genunary_base (S m)
        /\ unaryAt ptr pos (Z.of_nat m)
        /\ fieldAt ptr (pos + Z.of_nat m + 1) (genunary_width m)
                   (v - genunary_base m)
        /\ pos + 64 <= bitLength ptr.
Proof.
  intros Hp Hb. split.
  - now apply getGeneralizedUnaryEncodedNumber_inv.
  - intros (m & Hw & -> & Hv & Hu & Hf & Hin).
    rewrite (getGeneralizedUnaryEncodedNumber_of ptr pos
               (v - genunary_base m) m); try assumption.
    + do 2 f_equal. lia.
    + cbn [genunary_base] in Hv. lia.
Qed.

Lemma genunary_decoder_accepts_witness :
  getGeneralizedUnaryEncodedNumber [2 ^ 60 + 2 ^ 58 + 2 ^ 56; 0] 0
  = Some (328, 13)
  <-> exists m : nat,
        genunary_width m <= 64
        /\ 13 = Z.of_nat m + 1 + genunary_width m
        /\ genunary_base m <= 328 < genunary_base (S m)
        /\ unaryAt [2 ^ 60 + 2 ^ 58 + 2 ^ 56; 0] 0 (Z.of_nat m)
        /\ fieldAt [2 ^ 60 + 2 ^ 58 + 2 ^ 56; 0] (0 + Z.of_nat m + 1)
                   (genunary_width m) (328 - genunary_base m)
        /\ 0 + 64 <= bitLength [2 ^ 60 + 2 ^ 58 + 2 ^ 56; 0].
Proof.
  apply (genunary_decoder_accepts [2 ^ 60 + 2 ^ 58 + 2 ^ 56; 0] 0 328 13).
  - lia.
  - vm_compute. reflexivity.
Defined.

(** ** Decoding and encoding again *)

Lemma unaryAt_bits_eq (ptr ptr' : list Z) (pos n j : Z) :
  unaryAt ptr pos n -> unaryAt ptr' pos n -> pos <= j < pos + (n + 1) ->
  getBit ptr' j = getBit ptr j.
Proof.
  intros [Hz Ho] [Hz' Ho'] Hj. destruct (Z.eq_dec j (pos + n)) as [->|].
  - congruence.
  - rewrite Hz, Hz' by lia. reflexivity.
Qed.

Lemma fieldAt_bits_eq (ptr ptr' : list Z) (pos siz val j : Z) :
  fieldAt ptr pos siz val -> fieldAt ptr' pos siz val -> pos <= j < pos + siz ->
  getBit ptr' j = getBit ptr j.
Proof. intros H H' Hj. rewrite H, H' by assumption. reflexivity. Qed.

(** X8: the unary code is the only code of its value: writing the value
    that [getUnaryEncodedNumber] returned back at the same position returns
    the same size and leaves every bit of the array as it was. *)
Theorem unary_decode_encode (ptr : list Z) (pos n siz : Z) :
  0 <= pos -> bitLength ptr < 2 ^ 64 ->
  getUnaryEncodedNumber ptr pos = Some (n, siz) ->
  exists ptr',
    setUnaryEncodedNumber ptr pos n = Some (ptr', siz)
    /\ length ptr' = length ptr
    /\ forall j, 0 <= j -> getBit ptr' j = getBit ptr j.
Proof.
  intros Hp Hb H.
  apply getUnaryEncodedNumber_inv in H as (Hn & -> & Hu & Hin);
    [|assumption..].
  assert (n < 64 * (n / 64 + 1)) by divmod.
  destruct (unary_encode_decode ptr pos n Hp Hn ltac:(lia) Hb)
    as (ptr' & E & Hu' & [Hlen Hout] & _).
  exists ptr'. split; [exact E|]. split; [exact Hlen|].
  intros j Hj.
  destruct (Z.lt_ge_cases j pos); [apply Hout; lia|].
  destruct (Z.lt_ge_cases j (pos + (n + 1))); [|apply Hout; lia].
  apply (unaryAt_bits_eq ptr ptr' pos n); [assumption..|lia].
Qed.

Lemma unary_decode_encode_witness :
  exists ptr',
    setUnaryEncodedNumber [0; 2 ^ 60; 7] 3 64 = Some (ptr', 65)
    /\ length ptr' = length [0; 2 ^ 60; 7]
    /\ forall j, 0 <= j -> getBit ptr' j = getBit [0; 2 ^ 60; 7] j.
Proof.
  apply (unary_decode_encode [0; 2 ^ 60; 7] 3 64 65).
  - lia.
  - vm_compute. reflexivity.
  - vm_compute. reflexivity.
Defined.

(** X9: the generalized unary code is the only code of its value as well:
    writing the value that [getGeneralizedUnaryEncodedNumber] returned back
    at the same position returns the same size and leaves every bit of the
    array as it was. *)
Theorem genunary_decode_encode (ptr : list Z) (pos v siz : Z) :
  0 <= pos -> bitLength ptr < 2 ^ 64 ->
  getGeneralizedUnaryEncodedNumber ptr pos = Some (v, siz) ->
  exists ptr',
    setGeneralizedUnaryEncodedNumber ptr pos v = Some (ptr', siz)
    /\ length ptr' = length ptr
    /\ forall j, 0 <= j -> getBit ptr' j = getBit ptr j.
Proof.
  intros Hp Hb H.
  apply getGeneralizedUnaryEncodedNumber_inv in H
    as (m & Hw & -> & Hv & Hu & Hf & Hin); [|assumption..].
  assert (Hww : 3 <= genunary_width m <= 64) by (unfold genunary_width in *; lia).
  assert (Hfit : pos + (Z.of_nat m + 1 + genunary_width m) <= bitLength ptr).
  { pose proof (Hf (pos + Z.of_nat m + genunary_width m) ltac:(lia)) as B.
    apply getBit_Some_inside in B; lia. }
  destruct (genunary_encode_decode ptr pos v m Hp Hw Hv Hfit Hb)
    as (ptr' & E & Hu' & Hf' & _ & [Hlen Hout] & _).
  exists ptr'. split; [exact E|]. split; [exact Hlen|].
  intros j Hj.
  destruct (Z.lt_ge_cases j pos); [apply Hout; lia|].
  destruct (Z.lt_ge_cases j (pos + (Z.of_nat m + 1 + genunary_width m)));
    [|apply Hout; lia].
  destruct (Z.lt_ge_cases j (pos + (Z.of_nat m + 1))).
  - apply (unaryAt_bits_eq ptr ptr' pos (Z.of_nat m)); [assumption..|lia].
  - apply (fieldAt_bits_eq ptr ptr' (pos + Z.of_nat m + 1)
             (genunary_width m) (v - genunary_base m)); [assumption..|lia].
Qed.

Lemma genunary_decode_encode_witness :
  exists ptr',
    setGeneralizedUnaryEncodedNumber [2 ^ 60 + 2 ^ 58 + 2 ^ 56; 0] 0 328
    = Some (ptr', 13)
    /\ length ptr' = length [2 ^ 60 + 2 ^ 58 + 2 ^ 56; 0]
    /\ forall j, 0 <= j ->
                 getBit ptr' j = getBit [2 ^ 60 + 2 ^ 58 + 2 ^ 56; 0] j.
Proof.
  apply (genunary_decode_encode [2 ^ 60 + 2 ^ 58 + 2 ^ 56; 0] 0 328 13).
  - lia.
  - vm_compute. reflexivity.
  - vm_compute. reflexivity.
Defined.

(** ** Codes written one after the other *)

(** A second code written where the first one ends leaves the first one
    readable. *)
Lemma pack_two (dec : list Z -> Z -> option (Z * Z)) (slack : Z)
    (ptr ptr1 ptr2 : list Z) (pos a s1 b s2 : Z) :
  0 <= pos -> 0 <= s1 -> 0 <= s2 -> 0 <= slack ->
  sameOutside ptr ptr1 pos s1 ->
  decodesWithin dec ptr1 pos a s1 slack ->
  sameOutside ptr1 ptr2 (pos + s1) s2 ->
  decodesWithin dec ptr2 (pos + s1) b s2 slack ->
  pos + s1 + s2 + slack <= bitLength ptr -> bitLength ptr < 2 ^ 64 ->
  dec ptr2 pos = Some (a, s1)
  /\ dec ptr2 (pos + s1) = Some (b, s2)
  /\ sameOutside ptr ptr2 pos (s1 + s2).
Proof.
  intros Hp Hs1 Hs2 Hsl Ho1 D1 Ho2 D2 Hin Hb.
  pose proof (sameOutside_bitLength _ _ _ _ Ho1) as L1.
  pose proof (sameOutside_bitLength _ _ _ _ Ho2) as L2.
  destruct Ho1 as [Hl1 Ho1]. destruct Ho2 as [Hl2 Ho2].
  split; [|split].
  - apply D1; [|lia..]. intros j Hj. apply Ho2; lia.
  - apply D2; [|lia..]. intros j Hj. reflexivity.
  - split; [congruence|]. intros j Hj Hn.
    rewrite Ho2 by lia. apply Ho1; lia.
Qed.

Lemma unary_confined (ptr : list Z) (pos n : Z) :
  0 <= pos -> 0 <= n ->
  pos + (n + 1) <= bitLength ptr -> bitLength ptr < 2 ^ 64 ->
  exists ptr',
    setUnaryEncodedNumber ptr pos n = Some (ptr', n + 1)
    /\ sameOutside ptr ptr' pos (n + 1)
    /\ decodesWithin getUnaryEncodedNumber ptr' pos n (n + 1) 63.
Proof.
  intros Hp Hn Hin Hb64.
  destruct (unary_encode_decode ptr pos n Hp Hn ltac:(lia) Hb64)
    as (ptr' & E & _ & Hout & D).
  exists ptr'. split; [exact E|]. split; [exact Hout|].
  intros ptr2 Hs Hd Hd64. apply D; [assumption| |assumption].
  assert (64 * (n / 64 + 1) <= n + 64) by divmod. lia.
Qed.

Lemma genunary_confined (ptr : list Z) (pos val : Z) (m : nat) :
  0 <= pos -> genunary_width m <= 64 ->
  genunary_base m <= val < genunary_base (S m) ->
  pos + (Z.of_nat m + 1 + genunary_width m) <= bitLength ptr ->
  bitLength ptr < 2 ^ 64 ->
  exists ptr',
    setGeneralizedUnaryEncodedNumber ptr pos val
    = Some (ptr', Z.of_nat m + 1 + genunary_width m)
    /\ sameOutside ptr ptr' pos (Z.of_nat m + 1 + genunary_width m)
    /\ decodesWithin getGeneralizedUnaryEncodedNumber ptr' pos val
                     (Z.of_nat m + 1 + genunary_width m) 63.
Proof.
  intros Hp Hw Hv Hin Hb64.
  destruct (genunary_encode_decode ptr pos val m Hp Hw Hv Hin Hb64)
    as (ptr' & E & _ & _ & _ & Hout & D).
  exists ptr'. split; [exact E|]. split; [exact Hout|].
  intros ptr2 Hs Hd Hd64. apply D; [assumption| |assumption].
  unfold genunary_width in *. lia.
Qed.

Lemma gamma_confined (ptr : list Z) (pos n : Z) :
  0 <= pos -> 0 <= n < 2 ^ 64 ->
  pos + (2 * logBaseTwo64 n + 1) <= bitLength ptr ->
  bitLength ptr < 2 ^ 64 ->
  exists ptr',
    setEliasGammaEncodedNumber ptr pos n
    = Some (ptr', 2 * logBaseTwo64 n + 1)
    /\ sameOutside ptr ptr' pos (2 * logBaseTwo64 n + 1)
    /\ decodesWithin getEliasGammaEncodedNumber ptr' pos n
                     (2 * logBaseTwo64 n + 1) 63.
Proof.
  intros Hp Hn Hin Hb64.
  destruct (gamma_encode_decode ptr pos n Hp Hn Hin Hb64)
    as (ptr' & E & _ & _ & Hout & D).
  exists ptr'. split; [exact E|]. split; [exact Hout|].
  intros ptr2 Hs Hd Hd64. apply D; [assumption| |assumption].
  pose proof (logBaseTwo64_range n Hn).
  assert (64 * (logBaseTwo64 n / 64 + 1) <= logBaseTwo64 n + 64) by divmod.
  lia.
Qed.

Lemma delta_size_pos (val : Z) :
  1 <= val < 2 ^ 64 ->
  1 <= logBaseTwo64 val <= 64
  /\ 1 <= logBaseTwo64 (logBaseTwo64 val) <= 7.
Proof.
  intros Hv.
  pose proof (logBaseTwo64_range val ltac:(lia)).
  pose proof (logBaseTwo64_pos val ltac:(lia)).
  pose proof (Z.log2_nonneg val).
  split; [lia|].
  pose proof (logBaseTwo64_pos (logBaseTwo64 val) ltac:(lia)).
  pose proof (Z.log2_nonneg (logBaseTwo64 val)).
  pose proof (logBaseTwo64_below (logBaseTwo64 val) 7 ltac:(lia)).
  change (2 ^ 7) with 128 in *. lia.
Qed.

Lemma fibonacci_confined (ptr : list Z) (pos val : Z) :
  0 <= pos -> 0 <= val -> val + 1 < 2 ^ 64 ->
  pos + fibCodeSize (val + 1) <= bitLength ptr ->
  bitLength ptr <= 2 ^ 50 ->
  exists ptr' siz,
    setFibonacciEncodedNumber ptr pos val = Some (ptr', siz)
    /\ siz = fibCodeSize (val + 1) /\ 2 <= siz <= 93
    /\ sameOutside ptr ptr' pos siz
    /\ decodesWithin getFibonacciEncodedNumber ptr' pos val siz 0.
Proof.
  intros Hp Hv Hv64 Hin Hb50.
  destruct (fibonacci_encode_decode ptr pos val Hp Hv Hv64 Hin Hb50)
    as (ptr' & top & E & Hsz & Hlt & _ & _ & _ & _ & _ & _ & Hout & D).
  exists ptr', (Z.of_nat top + 2). split; [exact E|].
  split; [now rewrite Hsz|]. split; [lia|]. split; [exact Hout|].
  intros ptr2 Hs _ _. now apply D.
Qed.

(** X10: two unary codes written one after the other are both read back:
    the second call writes from where the first code ends and leaves the
    first code as it is, provided the array has 63 bits after the second
    code for the decoder's 64-bit fetch. *)
Theorem unary_codes_pack (ptr : list Z) (pos a b : Z) :
  0 <= pos -> 0 <= a -> 0 <= b ->
  pos + (a + 1) + (b + 1) + 63 <= bitLength ptr -> bitLength ptr < 2 ^ 64 ->
  exists ptr1 ptr2,
    setUnaryEncodedNumber ptr pos a = Some (ptr1, a + 1)
    /\ setUnaryEncodedNumber ptr1 (pos + (a + 1)) b = Some (ptr2, b + 1)
    /\ getUnaryEncodedNumber ptr2 pos = Some (a, a + 1)
    /\ getUnaryEncodedNumber ptr2 (pos + (a + 1)) = Some (b, b + 1)
    /\ sameOutside ptr ptr2 pos (a + 1 + (b + 1)).
Proof.
  intros Hp Ha Hb Hin Hb64.
  destruct (unary_confined ptr pos a) as (ptr1 & E1 & Ho1 & D1); [lia..|].
  pose proof (sameOutside_bitLength _ _ _ _ Ho1) as L1.
  destruct (unary_confined ptr1 (pos + (a + 1)) b)
    as (ptr2 & E2 & Ho2 & D2); [lia..|].
  exists ptr1, ptr2. split; [exact E1|]. split; [exact E2|].
  apply (pack_two getUnaryEncodedNumber 63 ptr ptr1 ptr2); try assumption; lia.
Qed.

Lemma unary_codes_pack_witness :
  exists ptr1 ptr2,
    setUnaryEncodedNumber [2 ^ 64 - 1; 5; 0] 60 5 = Some (ptr1, 5 + 1)
    /\ setUnaryEncodedNumber ptr1 (60 + (5 + 1)) 0 = Some (ptr2, 0 + 1)
    /\ getUnaryEncodedNumber ptr2 60 = Some (5, 5 + 1)
    /\ getUnaryEncodedNumber ptr2 (60 + (5 + 1)) = Some (0, 0 + 1)
    /\ sameOutside [2 ^ 64 - 1; 5; 0] ptr2 60 (5 + 1 + (0 + 1)).
Proof.
  apply (unary_codes_pack [2 ^ 64 - 1; 5; 0] 60 5 0).
  - lia.
  - lia.
  - lia.
  - vm_compute. discriminate.
  - vm_compute. reflexivity.
Defined.

(** X11: two generalized unary codes written one after the other are both
    read back, for values [a] of bucket [ma] and [b] of bucket [mb] with
    widths of at most 64 bits, provided the array has 63 bits after the
    second code. *)
Theorem genunary_codes_pack (ptr : list Z) (pos a b : Z) (ma mb : nat) :
  0 <= pos ->
  genunary_width ma <= 64 -> genunary_base ma <= a < genunary_base (S ma) ->
  genunary_width mb <= 64 -> genunary_base mb <= b < genunary_base (S mb) ->
  let sa := Z.of_nat ma + 1 + genunary_width ma in
  let sb := Z.of_nat mb + 1 + genunary_width mb in
  pos + sa + sb + 63 <= bitLength ptr -> bitLength ptr < 2 ^ 64 ->
  exists ptr1 ptr2,
    setGeneralizedUnaryEncodedNumber ptr pos a = Some (ptr1, sa)
    /\ setGeneralizedUnaryEncodedNumber ptr1 (pos + sa) b = Some (ptr2, sb)
    /\ getGeneralizedUnaryEncodedNumber ptr2 pos = Some (a, sa)
    /\ getGeneralizedUnaryEncodedNumber ptr2 (pos + sa) = Some (b, sb)
    /\ sameOutside ptr ptr2 pos (sa + sb).
Proof.
  intros Hp Hwa Ha Hwb Hb sa sb Hin Hb64.
  assert (Hsa : 0 <= sa) by (subst sa; unfold genunary_width; lia).
  assert (Hsb : 0 <= sb) by (subst sb; unfold genunary_width; lia).
  destruct (genunary_confined ptr pos a ma) as (ptr1 & E1 & Ho1 & D1);
    [assumption..|fold sa; lia|assumption|].
  pose proof (sameOutside_bitLength _ _ _ _ Ho1) as L1.
  destruct (genunary_confined ptr1 (pos + sa) b mb) as (ptr2 & E2 & Ho2 & D2);
    [lia|assumption..|fold sb; lia|lia|].
  exists ptr1, ptr2. split; [exact E1|]. split; [exact E2|].
  apply (pack_two getGeneralizedUnaryEncodedNumber 63 ptr ptr1 ptr2);
    try assumption; lia.
Qed.

Lemma genunary_codes_pack_witness :
  exists ptr1 ptr2,
    setGeneralizedUnaryEncodedNumber [2 ^ 64 - 1; 5; 0] 60 100
    = Some (ptr1, 10)
    /\ setGeneralizedUnaryEncodedNumber ptr1 (60 + 10) 7 = Some (ptr2, 4)
    /\ getGeneralizedUnaryEncodedNumber ptr2 60 = Some (100, 10)
    /\ getGeneralizedUnaryEncodedNumber ptr2 (60 + 10) = Some (7, 4)
    /\ sameOutside [2 ^ 64 - 1; 5; 0] ptr2 60 (10 + 4).
Proof.
  apply (genunary_codes_pack [2 ^ 64 - 1; 5; 0] 60 100 7 2%nat 0%nat).
  - lia.
  - vm_compute. discriminate.
  - vm_compute. split; [discriminate|reflexivity].
  - vm_compute. discriminate.
  - vm_compute. split; [discriminate|reflexivity].
  - vm_compute. discriminate.
  - vm_compute. reflexivity.
Defined.

(** X12: two gamma codes written one after the other are both read back,
    for all values from 1 to 2^64 - 1, provided the array has 63 bits after
    the second code. *)
Theorem gamma_codes_pack (ptr : list Z) (pos a b : Z) :
  0 <= pos -> 1 <= a < 2 ^ 64 -> 1 <= b < 2 ^ 64 ->
  let sa := 2 * logBaseTwo64 a + 1 in
  let sb := 2 * logBaseTwo64 b + 1 in
  pos + sa + sb + 63 <= bitLength ptr -> bitLength ptr < 2 ^ 64 ->
  exists ptr1 ptr2,
    setEliasGammaEncodedNumber ptr pos a = Some (ptr1, sa)
    /\ setEliasGammaEncodedNumber ptr1 (pos + sa) b = Some (ptr2, sb)
    /\ getEliasGammaEncodedNumber ptr2 pos = Some (a, sa)
    /\ getEliasGammaEncodedNumber ptr2 (pos + sa) = Some (b, sb)
    /\ sameOutside ptr ptr2 pos (sa + sb).
Proof.
  intros Hp Ha Hb sa sb Hin Hb64.
  pose proof (logBaseTwo64_range a ltac:(lia)).
  pose proof (logBaseTwo64_range b ltac:(lia)).
  destruct (gamma_confined ptr pos a) as (ptr1 & E1 & Ho1 & D1);
    [assumption|lia|fold sa; lia|assumption|].
  pose proof (sameOutside_bitLength _ _ _ _ Ho1) as L1.
  destruct (gamma_confined ptr1 (pos + sa) b) as (ptr2 & E2 & Ho2 & D2);
    [subst sa; lia|lia|fold sb; lia|lia|].
  exists ptr1, ptr2. split; [exact E1|]. split; [exact E2|].
  apply (pack_two getEliasGammaEncodedNumber 63 ptr ptr1 ptr2);
    try assumption; subst sa sb; lia.
Qed.

Lemma gamma_codes_pack_witness :
  exists ptr1 ptr2,
    setEliasGammaEncodedNumber [2 ^ 64 - 1; 5; 0] 60 1000 = Some (ptr1, 21)
    /\ setEliasGammaEncodedNumber ptr1 (60 + 21) 1 = Some (ptr2, 3)
    /\ getEliasGammaEncodedNumber ptr2 60 = Some (1000, 21)
    /\ getEliasGammaEncodedNumber ptr2 (60 + 21) = Some (1, 3)
    /\ sameOutside [2 ^ 64 - 1; 5; 0] ptr2 60 (21 + 3).
Proof.
  apply (gamma_codes_pack [2 ^ 64 - 1; 5; 0] 60 1000 1).
  - lia.
  - lia.
  - lia.
  - vm_compute. discriminate.
  - vm_compute. reflexivity.
Defined.

(** X14: two Fibonacci codes written one after the other are both read
    back, for all values whose biased value is below 2^64, in an array of
    at most 2^50 bits.  The decoder needs no bit after the second code. *)
Theorem fibonacci_codes_pack (ptr : list Z) (pos a b : Z) :
  0 <= pos -> 0 <= a -> a + 1 < 2 ^ 64 -> 0 <= b -> b + 1 < 2 ^ 64 ->
  pos + fibCodeSize (a + 1) + fibCodeSize (b + 1) <= bitLength ptr ->
  bitLength ptr <= 2 ^ 50 ->
  exists ptr1 ptr2 sa sb,
    sa = fibCodeSize (a + 1) /\ sb = fibCodeSize (b + 1)
    /\ setFibonacciEncodedNumber ptr pos a = Some (ptr1, sa)
    /\ setFibonacciEncodedNumber ptr1 (pos + sa) b = Some (ptr2, sb)
    /\ getFibonacciEncodedNumber ptr2 pos = Some (a, sa)
    /\ getFibonacciEncodedNumber ptr2 (pos + sa) = Some (b, sb)
    /\ sameOutside ptr ptr2 pos (sa + sb).
Proof.
  intros Hp Ha Ha64 Hb Hb64 Hin Hb50.
  pose proof (ztop_range fibEntries (a + 1)) as Hta.
  pose proof (ztop_range fibEntries (b + 1)) as Htb.
  destruct (fibonacci_confined ptr pos a)
    as (ptr1 & sa & E1 & Hsa & Hra & Ho1 & D1); [assumption..|lia|assumption|].
  rewrite <- Hsa in Hin. clear Hta.
  pose proof (sameOutside_bitLength _ _ _ _ Ho1) as L1.
  destruct (fibonacci_confined ptr1 (pos + sa) b)
    as (ptr2 & sb & E2 & Hsb & Hrb & Ho2 & D2); [lia|assumption..|lia|lia|].
  rewrite <- Hsb in Hin. clear Htb.
  exists ptr1, ptr2, sa, sb.
  split; [exact Hsa|]. split; [exact Hsb|].
  split; [exact E1|]. split; [exact E2|].
  apply (pack_two getFibonacciEncodedNumber 0 ptr ptr1 ptr2);
    try assumption; lia.
Qed.

Lemma fibonacci_codes_pack_witness :
  exists ptr1 ptr2 sa sb,
    sa = fibCodeSize (1000 + 1) /\ sb = fibCodeSize (0 + 1)
    /\ setFibonacciEncodedNumber [2 ^ 64 - 1; 5] 60 1000 = Some (ptr1, sa)
    /\ setFibonacciEncodedNumber ptr1 (60 + sa) 0 = Some (ptr2, sb)
    /\ getFibonacciEncodedNumber ptr2 60 = Some (1000, sa)
    /\ getFibonacciEncodedNumber ptr2 (60 + sa) = Some (0, sb)
    /\ sameOutside [2 ^ 64 - 1; 5] ptr2 60 (sa + sb).
Proof.
  apply (fibonacci_codes_pack [2 ^ 64 - 1; 5] 60 1000 0).
  - lia.
  - lia.
  - lia.
  - lia.
  - lia.
  - vm_compute. discriminate.
  - vm_compute. discriminate.
Defined.

(** ** The values a coder can store *)

Lemma genunary_base_mono (a b : nat) :
  (a <= b)%nat -> genunary_base a <= genunary_base b.
Proof.
  induction 1 as [|b Hab IH]; [lia|].
  cbn [genunary_base].
  assert (0 < 2 ^ genunary_width b)
    by (apply Z.pow_pos_nonneg; unfold genunary_width; lia).
  lia.
Qed.

Lemma genunary_bucket_exists (k : nat) (val : Z) :
  0 <= val < genunary_base k ->
  exists m, (m < k)%nat /\ genunary_base m <= val < genunary_base (S m).
Proof.
  induction k as [|k IH]; intros Hv; [simpl in Hv; lia|].
  destruct (Z.lt_ge_cases val (genunary_base k)) as [Hlt|Hge].
  - destruct IH as (m & Hm & Hr); [lia|]. exists m. split; [lia|assumption].
  - exists k. split; [lia|]. lia.
Qed.

(** From the width 65 on the search of the encoder has no shift left. *)
Lemma genunary_search_beyond (d : nat) :
  forall (fuel m0 : nat) (val0 : Z),
  (m0 + d = 30)%nat ->
  genunary_base (S (m0 + d)) <= val0 < 2 ^ 64 ->
  genunary_search fuel (val0 - genunary_base m0) (genunary_width m0)
                  (2 ^ genunary_width m0) (Z.of_nat m0) = None.
Proof.
  induction d as [|d IH]; intros fuel m0 val0 Hm Hv.
  - rewrite Nat.add_0_r in *.
    pose proof (genunary_base_nonneg m0) as Hb0.
    cbn [genunary_base] in Hv.
    destruct fuel as [|fuel]; simpl genunary_search;
      (destruct (Z.leb_spec (2 ^ genunary_width m0) (val0 - genunary_base m0));
       [|lia]); [reflexivity|].
    unfold _genunary_step, shl64.
    rewrite (wrap64_small (genunary_width m0 + 2))
      by (unfold genunary_width; lia).
    destruct (Z.ltb_spec (genunary_width m0 + 2) 64);
      [unfold genunary_width in *; lia|reflexivity].
  - pose proof (genunary_base_nonneg m0) as Hb0.
    pose proof (genunary_base_mono (S m0) (S (m0 + S d)) ltac:(lia)) as Hmono.
    cbn [genunary_base] in Hmono.
    assert (Hpos : 0 < 2 ^ genunary_width m0)
      by (apply Z.pow_pos_nonneg; unfold genunary_width; lia).
    destruct fuel as [|fuel]; simpl genunary_search;
      (destruct (Z.leb_spec (2 ^ genunary_width m0) (val0 - genunary_base m0));
       [|cbn [genunary_base] in Hv; lia]); [reflexivity|].
    unfold _genunary_step.
    rewrite (wrap64_small (genunary_width m0 + 2))
      by (unfold genunary_width in *; lia).
    rewrite shl64_one by (unfold genunary_width in *; lia). simpl.
    rewrite (wrap64_small (val0 - genunary_base m0 - 2 ^ genunary_width m0))
      by lia.
    rewrite (wrap64_small (Z.of_nat m0 + 1)) by lia.
    replace (m0 + S d)%nat with (S m0 + d)%nat in Hv by lia.
    specialize (IH fuel (S m0) val0 ltac:(lia) Hv).
    cbn [genunary_base] in IH. rewrite genunary_width_succ in IH.
    replace (Z.of_nat (S m0)) with (Z.of_nat m0 + 1) in IH by lia.
    replace (val0 - (genunary_base m0 + 2 ^ genunary_width m0))
      with (val0 - genunary_base m0 - 2 ^ genunary_width m0) in IH by lia.
    exact IH.
Qed.

(** X15: the generalized unary coder stores the values below
    12297829382473034408, the sum of the thresholds 2^3 + 2^5 + ... + 2^63:
    with room for 94 bits every such value is written in 4 to 94 bits and
    read back.  For every larger value below 2^64 the search of the encoder
    reaches the width 65 and shifts a 64-bit word by 65: no code is
    written. *)
Theorem genunary_encodable_range (ptr : list Z) (pos val : Z) :
  0 <= pos -> 0 <= val < 2 ^ 64 ->
  pos + 94 <= bitLength ptr -> bitLength ptr < 2 ^ 64 ->
  genunary_base 31 = 12297829382473034408
  /\ (val < genunary_base 31 ->
      exists ptr' siz,
        setGeneralizedUnaryEncodedNumber ptr pos val = Some (ptr', siz)
        /\ 4 <= siz <= 94
        /\ getGeneralizedUnaryEncodedNumber ptr' pos = Some (val, siz))
  /\ (genunary_base 31 <= val ->
      setGeneralizedUnaryEncodedNumber ptr pos val = None).
Proof.
  intros Hp Hv Hin Hb64. split; [reflexivity|]. split.
  - intros Hlt.
    destruct (genunary_bucket_exists 31 val ltac:(lia)) as (m & Hm & Hr).
    assert (Hw : genunary_width m <= 64) by (unfold genunary_width; lia).
    destruct (genunary_encode_decode ptr pos val m Hp Hw Hr)
      as (ptr' & E & _ & _ & _ & Hout & D);
      [unfold genunary_width; lia|assumption|].
    exists ptr', (Z.of_nat m + 1 + genunary_width m).
    split; [exact E|]. split; [unfold genunary_width; lia|].
    apply D.
    + intros j Hj. reflexivity.
    + rewrite (sameOutside_bitLength _ _ _ _ Hout). lia.
    + now rewrite (sameOutside_bitLength _ _ _ _ Hout).
  - intros Hge. unfold setGeneralizedUnaryEncodedNumber.
    generalize 32%nat. intros fuel.
    unfold _genunary_start, uint64ZERO. rewrite shl64_one by lia. simpl mbind.
    pose proof (genunary_search_beyond 30 fuel 0 val eq_refl) as Hs.
    change (genunary_base (S (0 + 30))) with (genunary_base 31) in Hs.
    specialize (Hs ltac:(lia)).
    change (genunary_base 0) with 0 in Hs.
    rewrite Z.sub_0_r in Hs. change (genunary_width 0) with 3 in Hs.
    change (Z.of_nat 0) with 0 in Hs.
    rewrite Hs. reflexivity.
Qed.

Lemma genunary_encodable_range_witness :
  genunary_base 31 = 12297829382473034408
  /\ (2 ^ 63 < genunary_base 31 ->
      exists ptr' siz,
        setGeneralizedUnaryEncodedNumber [0; 5; 0] 60 (2 ^ 63)
        = Some (ptr', siz)
        /\ 4 <= siz <= 94
        /\ getGeneralizedUnaryEncodedNumber ptr' 60 = Some (2 ^ 63, siz))
  /\ (genunary_base 31 <= 2 ^ 63 ->
      setGeneralizedUnaryEncodedNumber [0; 5; 0] 60 (2 ^ 63) = None).
Proof.
  apply (genunary_encodable_range [0; 5; 0] 60 (2 ^ 63)).
  - lia.
  - lia.
  - vm_compute. discriminate.
  - vm_compute. reflexivity.
Defined.

(** ** The room an encoder needs *)

Lemma setDecodedValue_outside (ptr : list Z) (pos siz val : Z) :
  0 <= pos -> 0 < siz -> bitLength ptr < pos + siz ->
  setDecodedValue ptr pos siz val = None.
Proof.
  intros Hp Hs Hb. destruct (setDecodedValue ptr pos siz val) eqn:E;
    [|reflexivity].
  apply setDecodedValue_Some_inside in E; [lia|assumption..].
Qed.



Lemma setEliasDeltaEncodedNumber_fits (ptr : list Z) (pos val : Z) :
  0 <= pos -> 1 <= val < 2 ^ 64 -> bitLength ptr < 2 ^ 64 ->
  (pos + (2 * logBaseTwo64 (logBaseTwo64 val) + logBaseTwo64 val)
   <= bitLength ptr ->
   exists ptr',
     setEliasDeltaEncodedNumber ptr pos val
     = Some (ptr', 2 * logBaseTwo64 (logBaseTwo64 val) + logBaseTwo64 val))
  /\ (bitLength ptr
      < pos + (2 * logBaseTwo64 (logBaseTwo64 val) + logBaseTwo64 val) ->
      setEliasDeltaEncodedNumber ptr pos val = None).
Proof.
  intros Hp Hv Hb. pose proof (delta_size_pos val Hv) as [Hb1 Hg1]. split.
  - intros Hin.
    exact (setEliasDeltaEncodedNumber_inside ptr pos val Hp Hv Hin Hb).
  - intros Hout.
    destruct (setEliasDeltaEncodedNumber ptr pos val) as [[ptr' siz]|] eqn:E;
      [|reflexivity].
    exfalso. unfold setEliasDeltaEncodedNumber in E.
    set (b := logBaseTwo64 val) in *. clearbody b.
    destruct (setEliasGammaEncodedNumber ptr pos b) as [[p1 s1]|] eqn:G;
      simpl in E; [|discriminate].
    apply setEliasGammaEncodedNumber_spec in G
      as (-> & Hin1 & _ & _ & Ho); [|lia..].
    pose proof (sameOutside_bitLength _ _ _ _ Ho) as L.
    rewrite (wrap64_small (pos + _)) in E by lia.
    rewrite (wrap64_small (b - 1)) in E by lia.
    destruct (setDecodedValue p1 (pos + (2 * logBaseTwo64 b + 1)) (b - 1) val)
      as [p2|] eqn:F; simpl in E; [|discriminate].
    destruct (Z.eq_dec b 1) as [->|]; [lia|].
    apply setDecodedValue_Some_inside in F; lia.
Qed.

(** The encoder for a value of bucket [m], with its search carried out. *)
Lemma setGeneralizedUnaryEncodedNumber_bucket
    (ptr : list Z) (pos val : Z) (m : nat) :
  genunary_width m <= 64 ->
  genunary_base m <= val < genunary_base (S m) ->
  setGeneralizedUnaryEncodedNumber ptr pos val
  = '(ptr1, siz) ← setUnaryEncodedNumber ptr pos (Z.of_nat m);
    ptr2 ← setDecodedValue ptr1 (wrap64 (pos + siz)) (genunary_width m)
                           (val - genunary_base m);
    Some (ptr2, wrap64 (wrap64 (Z.of_nat m + 1) + genunary_width m)).
Proof.
  intros Hw Hv. unfold setGeneralizedUnaryEncodedNumber.
  assert (Hfuel : (m <= 32)%nat) by (unfold genunary_width in Hw; lia).
  revert Hfuel. generalize 32%nat. intros fuel Hfuel.
  unfold _genunary_start, uint64ZERO. rewrite shl64_one by lia. bind_step.
  pose proof (genunary_search_spec m fuel 0 val Hfuel) as Hs.
  cbn [Nat.add] in Hs. change (genunary_base 0) with 0 in Hs.
  rewrite Z.sub_0_r in Hs. change (genunary_width 0) with 3 in Hs.
  change (Z.of_nat 0) with 0 in Hs.
  rewrite Hs by assumption. reflexivity.
Qed.

Lemma setGeneralizedUnaryEncodedNumber_fits
    (ptr : list Z) (pos val : Z) (m : nat) :
  0 <= pos -> genunary_width m <= 64 ->
  genunary_base m <= val < genunary_base (S m) ->
  bitLength ptr < 2 ^ 64 ->
  (pos + (Z.of_nat m + 1 + genunary_width m) <= bitLength ptr ->
   exists ptr',
     setGeneralizedUnaryEncodedNumber ptr pos val
     = Some (ptr', Z.of_nat m + 1 + genunary_width m))
  /\ (bitLength ptr < pos + (Z.of_nat m + 1 + genunary_width m) ->
      setGeneralizedUnaryEncodedNumber ptr pos val = None).
Proof.
  intros Hp Hw Hv Hb. split.
  - intros Hin.
    destruct (genunary_encode_decode ptr pos val m Hp Hw Hv Hin Hb)
      as (ptr' & E & _).
    now exists ptr'.
  - intros Hout.
    destruct (setGeneralizedUnaryEncodedNumber ptr pos val)
      as [[ptr' siz]|] eqn:E; [|reflexivity].
    exfalso.
    rewrite (setGeneralizedUnaryEncodedNumber_bucket ptr pos val m Hw Hv) in E.
    destruct (setUnaryEncodedNumber ptr pos (Z.of_nat m)) as [[p1 s1]|] eqn:U;
      simpl in E; [|discriminate].
    apply setUnaryEncodedNumber_spec in U as (-> & Hin1 & _ & Ho);
      [|lia..].
    pose proof (sameOutside_bitLength _ _ _ _ Ho) as L.
    rewrite (wrap64_small (pos + _)) in E by lia.
    destruct (setDecodedValue p1 (pos + (Z.of_nat m + 1)) (genunary_width m)
                (val - genunary_base m)) as [p2|] eqn:F;
      simpl in E; [|discriminate].
    apply setDecodedValue_Some_inside in F;
      [lia|lia|unfold genunary_width; lia].
Qed.



Lemma setFibonacciEncodedNumber_fits (ptr : list Z) (pos val : Z) :
  0 <= pos -> 0 <= val < 2 ^ 64 -> bitLength ptr < 2 ^ 64 ->
  (pos + fibCodeSize (wrap64 (val + 1)) <= bitLength ptr ->
   exists ptr',
     setFibonacciEncodedNumber ptr pos val
     = Some (ptr', fibCodeSize (wrap64 (val + 1))))
  /\ (bitLength ptr < pos + fibCodeSize (wrap64 (val + 1)) ->
      setFibonacciEncodedNumber ptr pos val = None).
Proof.
  intros Hp Hval Hb64. split.
  - intros Hin.
    destruct (setFibonacciEncodedNumber_spec ptr pos val Hp Hval Hin Hb64)
      as (ptr' & E & _).
    now exists ptr'.
  - intros Hout. unfold setFibonacciEncodedNumber.
    assert (Hv : 0 <= wrap64 (val + 1) < 2 ^ 64)
      by (unfold wrap64; apply Z.mod_pos_bound; lia).
    set (v := wrap64 (val + 1)) in *.
    pose proof fibonacciValuesLen_nat as HN.
    destruct (fib_loop_code (Z.to_nat fibonacciValuesLen) v ltac:(lia) Hv)
      as (st' & E & Hm & _).
    rewrite E. bind_step. rewrite Hm.
    pose proof (ztop_range (Z.to_nat fibonacciValuesLen) v) as Ht.
    set (t := ztop (Z.to_nat fibonacciValuesLen) v) in *.
    assert (Ht93 : 0 <= t <= 92) by lia.
    clearbody t. clearbody v. clear Ht HN.
    rewrite (wrap32_small (t + 1)) by lia.
    destruct (Z.ltb_spec 64 (t + 1)) as [Hbig|Hsmall].
    + destruct (setDecodedValue ptr pos 64 (fs_out1 st')) as [p1|] eqn:E1;
        [|reflexivity].
      bind_step.
      pose proof (setDecodedValue_bitLength _ _ _ _ _ E1) as Hbl1.
      apply setDecodedValue_Some_inside in E1 as [Hin1 _]; [|lia..].
      rewrite (wrap64_small (pos + 64)) by lia.
      rewrite setDecodedValue_outside by lia. reflexivity.
    + rewrite setDecodedValue_outside by lia. reflexivity.
Qed.

(** X18: the Fibonacci encoder returns exactly when the whole code fits in
    the array: with room for the code of the biased value it writes the code
    and reports its size, and with less room it writes past the end of the
    array. *)
Theorem fibonacci_encoder_returns_iff_code_fits (ptr : list Z) (pos val : Z) :
  0 <= pos -> 0 <= val < 2 ^ 64 -> bitLength ptr < 2 ^ 64 ->
  (pos + fibCodeSize (wrap64 (val + 1)) <= bitLength ptr ->
   exists ptr',
     setFibonacciEncodedNumber ptr pos val
     = Some (ptr', fibCodeSize (wrap64 (val + 1))))
  /\ (bitLength ptr < pos + fibCodeSize (wrap64 (val + 1)) ->
      setFibonacciEncodedNumber ptr pos val = None).
Proof. exact (setFibonacciEncodedNumber_fits ptr pos val). Qed.

Lemma fibonacci_encoder_returns_iff_code_fits_witness :
  (60 + fibCodeSize (wrap64 (1000 + 1)) <= bitLength [0] ->
   exists ptr',
     setFibonacciEncodedNumber [0] 60 1000
     = Some (ptr', fibCodeSize (wrap64 (1000 + 1))))
  /\ (bitLength [0] < 60 + fibCodeSize (wrap64 (1000 + 1)) ->
      setFibonacciEncodedNumber [0] 60 1000 = None).
Proof.
  apply (fibonacci_encoder_returns_iff_code_fits [0] 60 1000).
  - lia.
  - lia.
  - vm_compute. reflexivity.
Defined.

(** ** The sizes of the Fibonacci codes *)

Lemma setFibonacciEncodedNumber_size (ptr ptr' : list Z) (pos val siz : Z) :
  0 <= pos -> 0 <= val < 2 ^ 64 -> bitLength ptr < 2 ^ 64 ->
  setFibonacciEncodedNumber ptr pos val = Some (ptr', siz) ->
  siz = fibCodeSize (wrap64 (val + 1)) /\ pos + siz <= bitLength ptr.
Proof.
  intros Hp Hval Hb64 H.
  destruct (setFibonacciEncodedNumber_fits ptr pos val Hp Hval Hb64)
    as [Hfit Hnot].
  destruct (Z.le_gt_cases (pos + fibCodeSize (wrap64 (val + 1)))
              (bitLength ptr)) as [Hin|Hout].
  - destruct (Hfit Hin) as [ptr'' E]. rewrite E in H.
    assert (Es : fibCodeSize (wrap64 (val + 1)) = siz) by congruence.
    split; [now symmetry|]. rewrite <- Es. exact Hin.
  - rewrite (Hnot ltac:(lia)) in H. discriminate H.
Qed.

Lemma fibZ_63 : fibZ 63 = 17167680177565.
Proof. vm_compute. reflexivity. Qed.

(** X19: for every value whose biased value is below 2^64 the Fibonacci
    code has from 2 to 93 bits, and it fits into one 64-bit word exactly
    when the biased value [val + 1] is below 17167680177565, the entry 63 of
    the table. *)
Theorem fibonacci_code_size (ptr ptr' : list Z) (pos val siz : Z) :
  0 <= pos -> 0 <= val -> val + 1 < 2 ^ 64 -> bitLength ptr < 2 ^ 64 ->
  setFibonacciEncodedNumber ptr pos val = Some (ptr', siz) ->
  2 <= siz <= 93 /\ (siz <= 64 <-> val + 1 < 17167680177565).
Proof.
  intros Hp Hv Hv64 Hb64 H.
  apply setFibonacciEncodedNumber_size in H as [-> _]; [|lia..].
  rewrite (wrap64_small (val + 1)) by lia.
  destruct (fibCode_spec (val + 1) ltac:(lia))
    as (t & -> & Ht & Hr & _).
  split; [lia|]. rewrite <- fibZ_63. split.
  - intros Hs.
    pose proof (fibZ_le_mono (S t) 63 ltac:(lia)). lia.
  - intros Hs.
    destruct (Nat.le_gt_cases t 62) as [|Hgt]; [lia|].
    pose proof (fibZ_le_mono 63 t ltac:(lia)). lia.
Qed.

Lemma fibonacci_code_size_witness :
  2 <= 64 <= 93 /\ (64 <= 64 <-> 17167680177563 + 1 < 17167680177565).
Proof.
  apply (fibonacci_code_size [0; 0] [12297829382473034411; 0] 0
           17167680177563 64).
  - lia.
  - lia.
  - lia.
  - vm_compute. reflexivity.
  - vm_compute. reflexivity.
Defined.

(** ** What the Fibonacci decoder accepts *)










(** ** The Fibonacci code is the only code of its value *)


Lemma ztop_S (k : nat) (v : Z) :
  ztop (S k) v = if fibZ k <=? v then Z.of_nat k + 1 else ztop k v.
Proof. reflexivity. Qed.









(** ** The ends of the range of the Fibonacci coder *)





(** X23: the decoder masks the word index [pos >> 6] with
    0x0000cfffffffffff, a mask whose bits 44 and 45 are clear: at the
    position [pos + 2^50] it reads the words it reads at [pos], and returns
    what it returns there. *)
Theorem fibonacci_decoder_position_mask (ptr : list Z) (pos : Z) :
  0 <= pos < 2 ^ 50 ->
  getFibonacciEncodedNumber ptr (pos + 2 ^ 50)
  = getFibonacciEncodedNumber ptr pos.
Proof.
  intros Hp. unfold getFibonacciEncodedNumber.
  destruct (fib_cursor_start pos Hp) as [Ew Es].
  assert (Ew' : Z.land (Z.shiftr (pos + 2 ^ 50) 6) 0x0000cfffffffffff
                = pos / 64).
  { rewrite Z.shiftr_div_pow2 by lia. change (2 ^ 6) with 64.
    assert (Hq : 0 <= pos / 64 < 2 ^ 44) by divmod.
    replace ((pos + 2 ^ 50) / 64) with (pos / 64 + 2 ^ 44) by divmod.
    change 0x0000cfffffffffff with (Z.lor (Z.ones 44) (3 * 2 ^ 46)).
    apply Z.bits_inj'. intros k Hk.
    rewrite Z.land_spec, Z.lor_spec.
    destruct (Z.lt_ge_cases k 44).
    - rewrite Z.ones_spec_low by lia. simpl. rewrite andb_true_r.
      rewrite <- (Z.mod_pow2_bits_low (pos / 64 + 2 ^ 44) 44 k) by lia.
      rewrite <- Z.add_mod_idemp_r by lia.
      rewrite Z.mod_same, Z.add_0_r by lia.
      now rewrite Z.mod_small by lia.
    - rewrite (testbit_small (pos / 64) 44 k) by lia.
      rewrite Z.ones_spec_high by lia. simpl.
      destruct (Z.lt_ge_cases k 45).
      + assert (k = 44) as -> by lia. apply andb_false_r.
      + rewrite (testbit_small (pos / 64 + 2 ^ 44) 45 k); [reflexivity| |lia].
        change (2 ^ 45) with (2 * 2 ^ 44). lia. }
  assert (Es' : Z.land (pos + 2 ^ 50) 0x000000000000003f
                = Z.land pos 0x000000000000003f).
  { change 0x000000000000003f with (Z.ones 6). rewrite !Z.land_ones by lia.
    change (2 ^ 6) with 64. divmod. }
  rewrite Ew', Es', Ew. reflexivity.
Qed.

Lemma fibonacci_decoder_position_mask_witness :
  getFibonacciEncodedNumber [2 ^ 63 + 2 ^ 60 + 2 ^ 59] (0 + 2 ^ 50)
  = getFibonacciEncodedNumber [2 ^ 63 + 2 ^ 60 + 2 ^ 59] 0.
Proof.
  apply (fibonacci_decoder_position_mask [2 ^ 63 + 2 ^ 60 + 2 ^ 59] 0).
  lia.
Defined.

(** ** Codes inside codes *)

Lemma unaryAt_unique (ptr : list Z) (pos a b : Z) :
  0 <= a -> 0 <= b -> unaryAt ptr pos a -> unaryAt ptr pos b -> a = b.
Proof.
  intros Ha Hb [Hza Hoa] [Hzb Hob].
  destruct (Z.lt_trichotomy a b) as [Hlt|[Heq|Hgt]]; [|exact Heq|].
  - rewrite Hzb in Hoa by lia. discriminate Hoa.
  - rewrite Hza in Hob by lia. discriminate Hob.
Qed.

(** X24: a code the delta decoder accepts starts with a gamma code of the
    bit length of the value: whenever [getEliasDeltaEncodedNumber] returns
    [v], the gamma decoder at the same position returns the bit length
    [logBaseTwo64 v] with a size [2 u + 1], the unary decoder returns [u],
    and the size of the delta code is [2 u + logBaseTwo64 v]. *)
Theorem delta_code_length_prefix (ptr : list Z) (pos v siz : Z) :
  0 <= pos -> bitLength ptr < 2 ^ 64 ->
  getEliasDeltaEncodedNumber ptr pos = Some (v, siz) ->
  exists u,
    getEliasGammaEncodedNumber ptr pos = Some (logBaseTwo64 v, 2 * u + 1)
    /\ getUnaryEncodedNumber ptr pos = Some (u, u + 1)
    /\ siz = 2 * u + logBaseTwo64 v.
Proof.
  intros Hp Hb H. pose proof H as H'.
  apply getEliasDeltaEncodedNumber_inv in H
    as (u & g & Hu & Hg & Hgu & -> & Hun & Hgf & Hv & _); [|assumption..].
  assert (Hin : pos + 64 * (u / 64 + 1) <= bitLength ptr).
  { unfold getEliasDeltaEncodedNumber, getEliasGammaEncodedNumber in H'.
    destruct (getUnaryEncodedNumber ptr pos) as [[u' s']|] eqn:U;
      [|discriminate H'].
    apply getUnaryEncodedNumber_inv in U as (Hu0 & _ & Hun' & Hin);
      [|assumption..].
    now rewrite (unaryAt_unique ptr pos u u') by (assumption || lia). }
  assert (H2 : 2 ^ g <= 2 ^ 64) by (apply Z.pow_le_mono_r; lia).
  assert (Hpow : 0 < 2 ^ (g - 1)) by (apply Z.pow_pos_nonneg; lia).
  assert (Eg : logBaseTwo64 v = g).
  { rewrite logBaseTwo64_pos by lia.
    assert (Z.log2 v = g - 1); [|lia].
    apply Z.log2_unique; [lia|].
    now replace (Z.succ (g - 1)) with g by lia. }
  rewrite Eg. exists u. split; [|split; [|reflexivity]].
  - rewrite (getEliasGammaEncodedNumber_of ptr pos u g) by assumption.
    now rewrite Z.mod_small by lia.
  - apply getUnaryEncodedNumber_unaryAt; [assumption|lia|assumption..].
Qed.

Lemma delta_code_length_prefix_witness :
  exists u,
    getEliasGammaEncodedNumber [2 ^ 60 + 2 ^ 58 + 2 ^ 56; 0] 0
    = Some (logBaseTwo64 3, 2 * u + 1)
    /\ getUnaryEncodedNumber [2 ^ 60 + 2 ^ 58 + 2 ^ 56; 0] 0 = Some (u, u + 1)
    /\ 8 = 2 * u + logBaseTwo64 3.
Proof.
  apply (delta_code_length_prefix [2 ^ 60 + 2 ^ 58 + 2 ^ 56; 0] 0 3 8).
  - lia.
  - vm_compute. reflexivity.
  - vm_compute. reflexivity.
Defined.

(** ** Decoders move forward *)



(** ** No code is the beginning of another *)

(** Two codes that the decoder reads from their own bits alone, one the
    beginning of the other, are codes of the same value. *)
Lemma decodes_same (dec : list Z -> Z -> option (Z * Z)) (slack : Z)
    (pa pb : list Z) (pos a b sa sb : Z) :
  decodesWithin dec pa pos a sa slack ->
  decodesWithin dec pb pos b sb slack ->
  sameInside pa pb pos sa ->
  pos + sa + slack <= bitLength pb -> pos + sb + slack <= bitLength pb ->
  bitLength pb < 2 ^ 64 ->
  a = b /\ sa = sb.
Proof.
  intros Da Db Hs Ha Hb H64.
  pose proof (Da pb Hs Ha H64) as E1.
  assert (E2 : dec pb pos = Some (b, sb)).
  { apply Db; [|assumption..]. intros j Hj. reflexivity. }
  rewrite E1 in E2. injection E2 as -> ->. now split.
Qed.

Lemma unary_confined_Some (ptr pa : list Z) (pos a sa : Z) :
  0 <= pos -> 0 <= a -> bitLength ptr < 2 ^ 64 ->
  setUnaryEncodedNumber ptr pos a = Some (pa, sa) ->
  bitLength pa = bitLength ptr
  /\ decodesWithin getUnaryEncodedNumber pa pos a sa 63.
Proof.
  intros Hp Ha Hb H.
  pose proof H as H'.
  apply setUnaryEncodedNumber_spec in H' as (-> & Hin & _ & Hout);
    [|assumption..].
  destruct (unary_confined ptr pos a Hp Ha ltac:(lia) Hb) as (p' & E & _ & D).
  rewrite H in E. injection E as <-.
  split; [exact (sameOutside_bitLength _ _ _ _ Hout)|exact D].
Qed.

Lemma gamma_confined_Some (ptr pa : list Z) (pos a sa : Z) :
  0 <= pos -> 0 <= a < 2 ^ 64 -> bitLength ptr < 2 ^ 64 ->
  setEliasGammaEncodedNumber ptr pos a = Some (pa, sa) ->
  bitLength pa = bitLength ptr
  /\ decodesWithin getEliasGammaEncodedNumber pa pos a sa 63.
Proof.
  intros Hp Ha Hb H.
  pose proof H as H'.
  apply setEliasGammaEncodedNumber_spec in H' as (-> & Hin & _ & _ & Hout);
    [|assumption..].
  destruct (gamma_confined ptr pos a Hp Ha Hin Hb) as (p' & E & _ & D).
  rewrite H in E. injection E as <-.
  split; [exact (sameOutside_bitLength _ _ _ _ Hout)|exact D].
Qed.

Lemma genunary_confined_Some (ptr pa : list Z) (pos a sa : Z) :
  0 <= pos -> 0 <= a < genunary_base 31 -> bitLength ptr < 2 ^ 64 ->
  setGeneralizedUnaryEncodedNumber ptr pos a = Some (pa, sa) ->
  bitLength pa = bitLength ptr
  /\ decodesWithin getGeneralizedUnaryEncodedNumber pa pos a sa 63.
Proof.
  intros Hp Ha Hb H.
  destruct (genunary_bucket_exists 31 a Ha) as (m & Hm & Hr).
  assert (Hw : genunary_width m <= 64) by (unfold genunary_width; lia).
  destruct (setGeneralizedUnaryEncodedNumber_fits ptr pos a m Hp Hw Hr Hb)
    as [_ Hnot].
  destruct (Z.le_gt_cases (pos + (Z.of_nat m + 1 + genunary_width m))
              (bitLength ptr)) as [Hin|Hout].
  - destruct (genunary_confined ptr pos a m Hp Hw Hr Hin Hb)
      as (p' & E & Ho & D).
    rewrite H in E. injection E as <- ->.
    split; [exact (sameOutside_bitLength _ _ _ _ Ho)|exact D].
  - rewrite (Hnot ltac:(lia)) in H. discriminate H.
Qed.

Lemma fibonacci_confined_Some (ptr pa : list Z) (pos a sa : Z) :
  0 <= pos -> 0 <= a -> a + 1 < 2 ^ 64 -> bitLength ptr <= 2 ^ 50 ->
  setFibonacciEncodedNumber ptr pos a = Some (pa, sa) ->
  bitLength pa = bitLength ptr
  /\ decodesWithin getFibonacciEncodedNumber pa pos a sa 0.
Proof.
  intros Hp Ha Ha64 Hb H.
  pose proof H as H'.
  apply setFibonacciEncodedNumber_size in H' as [Hs Hin]; [|lia..].
  rewrite (wrap64_small (a + 1)) in Hs by lia.
  rewrite Hs in Hin.
  destruct (fibonacci_confined ptr pos a Hp Ha Ha64 Hin Hb)
    as (p' & s' & E & _ & _ & Ho & D).
  rewrite H in E.
  assert (Ep : pa = p') by congruence.
  assert (Es : sa = s') by congruence.
  subst p' s'.
  split; [exact (sameOutside_bitLength _ _ _ _ Ho)|exact D].
Qed.

(** X26: the unary, generalized unary and gamma codes are prefix codes:
    the code of a value [b] never starts with the whole code of another
    value [a], in arrays with 63 bits after the codes for the decoder's
    64-bit fetch.  The gamma values are those from 1 on. *)
Theorem unary_based_codes_are_prefix_codes :
  (forall (ptr1 ptr2 pa pb : list Z) (pos a b sa sb : Z),
      0 <= pos -> 0 <= a -> 0 <= b ->
      bitLength ptr1 < 2 ^ 64 -> bitLength ptr2 < 2 ^ 64 ->
      setUnaryEncodedNumber ptr1 pos a = Some (pa, sa) ->
      setUnaryEncodedNumber ptr2 pos b = Some (pb, sb) ->
      pos + sa + 63 <= bitLength pb -> pos + sb + 63 <= bitLength pb ->
      a <> b -> ~ sameInside pa pb pos sa)
  /\ (forall (ptr1 ptr2 pa pb : list Z) (pos a b sa sb : Z),
      0 <= pos -> 0 <= a < genunary_base 31 -> 0 <= b < genunary_base 31 ->
      bitLength ptr1 < 2 ^ 64 -> bitLength ptr2 < 2 ^ 64 ->
      setGeneralizedUnaryEncodedNumber ptr1 pos a = Some (pa, sa) ->
      setGeneralizedUnaryEncodedNumber ptr2 pos b = Some (pb, sb) ->
      pos + sa + 63 <= bitLength pb -> pos + sb + 63 <= bitLength pb ->
      a <> b -> ~ sameInside pa pb pos sa)
  /\ (forall (ptr1 ptr2 pa pb : list Z) (pos a b sa sb : Z),
      0 <= pos -> 1 <= a < 2 ^ 64 -> 1 <= b < 2 ^ 64 ->
      bitLength ptr1 < 2 ^ 64 -> bitLength ptr2 < 2 ^ 64 ->
      setEliasGammaEncodedNumber ptr1 pos a = Some (pa, sa) ->
      setEliasGammaEncodedNumber ptr2 pos b = Some (pb, sb) ->
      pos + sa + 63 <= bitLength pb -> pos + sb + 63 <= bitLength pb ->
      a <> b -> ~ sameInside pa pb pos sa).
Proof.
  split; [|split];
    intros ptr1 ptr2 pa pb pos a b sa sb Hp Ha Hb H1 H2 Ea Eb Ra Rb Hne Hs;
    apply Hne.
  - apply unary_confined_Some in Ea as [_ Da]; [|assumption..].
    apply unary_confined_Some in Eb as [Lb Db]; [|assumption..].
    apply (decodes_same getUnaryEncodedNumber 63 pa pb pos a b sa sb);
      try assumption; lia.
  - apply genunary_confined_Some in Ea as [_ Da]; [|assumption..].
    apply genunary_confined_Some in Eb as [Lb Db]; [|assumption..].
    apply (decodes_same getGeneralizedUnaryEncodedNumber 63
             pa pb pos a b sa sb); try assumption; lia.
  - apply gamma_confined_Some in Ea as [_ Da]; [|assumption|lia|assumption].
    apply gamma_confined_Some in Eb as [Lb Db]; [|assumption|lia|assumption].
    apply (decodes_same getEliasGammaEncodedNumber 63 pa pb pos a b sa sb);
      try assumption; lia.
Qed.

Lemma unary_based_codes_are_prefix_codes_witness :
  ~ sameInside [2305843009213693952; 0] [1152921504606846976; 0] 0 3
  /\ ~ sameInside [14987979559889010688; 0] [16140901064495857664; 0] 0 4
  /\ ~ sameInside [3458764513820540928; 0] [4035225266123964416; 0] 0 5.
Proof.
  destruct unary_based_codes_are_prefix_codes as (U & G & EG).
  split; [|split].
  - apply (U [0; 0] [0; 0] [2305843009213693952; 0]
             [1152921504606846976; 0] 0 2 3 3 4);
      try lia; vm_compute; (reflexivity || discriminate).
  - apply (G [0; 0] [0; 0] [14987979559889010688; 0]
             [16140901064495857664; 0] 0 5 6 4 4);
      try lia; vm_compute; try (reflexivity || discriminate);
      split; (reflexivity || discriminate).
  - apply (EG [0; 0] [0; 0] [3458764513820540928; 0]
              [4035225266123964416; 0] 0 2 3 5 5);
      try lia; vm_compute; (reflexivity || discriminate).
Defined.

(** X27: the Fibonacci codes are prefix codes as well: the code of a value
    [b] never starts with the whole code of another value [a]. *)
Theorem fibonacci_codes_are_prefix_codes
    (ptr1 ptr2 pa pb : list Z) (pos a b sa sb : Z) :
  0 <= pos -> 0 <= a -> a + 1 < 2 ^ 64 -> 0 <= b -> b + 1 < 2 ^ 64 ->
  bitLength ptr1 <= 2 ^ 50 -> bitLength ptr2 <= 2 ^ 50 ->
  setFibonacciEncodedNumber ptr1 pos a = Some (pa, sa) ->
  setFibonacciEncodedNumber ptr2 pos b = Some (pb, sb) ->
  pos + sa <= bitLength pb ->
  a <> b -> ~ sameInside pa pb pos sa.
Proof.
  intros Hp Ha Ha64 Hb Hb64 H1 H2 Ea Eb Ra Hne Hs. apply Hne.
  pose proof Eb as Eb'.
  apply setFibonacciEncodedNumber_size in Eb' as [_ Rb]; [|lia..].
  apply fibonacci_confined_Some in Ea as [_ Da]; [|assumption..].
  apply fibonacci_confined_Some in Eb as [Lb Db]; [|assumption..].
  apply (decodes_same getFibonacciEncodedNumber 0 pa pb pos a b sa sb);
    try assumption; lia.
Qed.

Lemma fibonacci_codes_are_prefix_codes_witness :
  ~ sameInside [12682136550675316736; 0] [1729382256910270464; 0] 0 4.
Proof.
  apply (fibonacci_codes_are_prefix_codes
           [0; 0] [0; 0] [12682136550675316736; 0] [1729382256910270464; 0]
           0 3 4 4 5);
    try lia; vm_compute; (reflexivity || discriminate).
Defined.

(** ** What the delta decoder accepts *)

Lemma getEliasDeltaEncodedNumber_of (ptr : list Z) (pos u g v : Z) :
  0 <= pos -> 0 <= u <= 64 -> 1 <= g <= 64 -> g < 2 ^ u ->
  unaryAt ptr pos u -> fieldAt ptr (pos + u + 1) u g ->
  2 ^ (g - 1) <= v < 2 ^ g ->
  fieldAt ptr (pos + 2 * u + 1) (g - 1) v ->
  pos + 64 * (u / 64 + 1) <= bitLength ptr -> bitLength ptr < 2 ^ 64 ->
  getEliasDeltaEncodedNumber ptr pos = Some (v, 2 * u + g).
Proof.
  intros Hp Hu Hg Hgu Hun Hgf Hv Hvf Hin Hb.
  assert (Hu1 : 1 <= u).
  { destruct (Z.eq_dec u 0) as [->|]; [|lia]. change (2 ^ 0) with 1 in Hgu. lia. }
  pose proof (Hgf (pos + 2 * u) ltac:(lia)) as B.
  apply getBit_Some_inside in B; [|lia].
  unfold getEliasDeltaEncodedNumber.
  rewrite (getEliasGammaEncodedNumber_of ptr pos u g) by assumption.
  rewrite (Z.mod_small g) by lia. bind_step. cbv zeta.
  rewrite (wrap64_small (g - 1)) by lia.
  rewrite shl64_one by lia. bind_step.
  rewrite (wrap64_small (pos + (2 * u + 1))) by lia.
  replace (pos + (2 * u + 1)) with (pos + 2 * u + 1) by lia.
  rewrite (getDecodedValue_fieldAt ptr (pos + 2 * u + 1) (g - 1) v)
    by (assumption || lia).
  bind_step. rewrite (wrap64_small (2 * u + 1 + (g - 1))) by lia.
  assert (Hpow : 0 < 2 ^ (g - 1)) by (apply Z.pow_pos_nonneg; lia).
  assert (El : Z.log2 v = g - 1).
  { apply Z.log2_unique; [lia|]. now replace (Z.succ (g - 1)) with g by lia. }
  pose proof (lor_leading_bit v ltac:(lia)) as Hl. rewrite El in Hl.
  rewrite Hl. do 2 f_equal. lia.
Qed.

(** X28: in an array of fewer than 2^64 bits, [getEliasDeltaEncodedNumber]
    returns [v] with the size [siz] exactly when the bits from [pos] on are
    the unary code of some [u <= 64], a field of [u] bits that holds a bit
    length [g] from 1 to 64, and a field of [g - 1] bits that holds [v]
    without its leading bit, [v] has [g] bits, [siz] is [2 u + g], and the
    array holds the 64-bit fields the unary decoder fetches. *)
Theorem delta_decoder_accepts (ptr : list Z) (pos v siz : Z) :
  0 <= pos -> bitLength ptr < 2 ^ 64 ->
  getEliasDeltaEncodedNumber ptr pos = Some (v, siz)
  <-> exists u g,
        0 <= u <= 64 /\ 1 <= g <= 64 /\ g < 2 ^ u /\ siz = 2 * u + g
        /\ unaryAt ptr pos u /\ fieldAt ptr (pos + u + 1) u g
        /\ 2 ^ (g - 1) <= v < 2 ^ g
        /\ fieldAt ptr (pos + 2 * u + 1) (g - 1) v
        /\ pos + 64 * (u / 64 + 1) <= bitLength ptr.
Proof.
  intros Hp Hb. split.
  - intros H. pose proof H as H'.
    apply getEliasDeltaEncodedNumber_inv in H
      as (u & g & Hu & Hg & Hgu & Hs & Hun & Hgf & Hv & Hvf);
      [|assumption..].
    exists u, g. repeat (split; [assumption|]).
    unfold getEliasDeltaEncodedNumber, getEliasGammaEncodedNumber in H'.
    destruct (getUnaryEncodedNumber ptr pos) as [[u' s']|] eqn:U;
      [|discriminate H'].
    apply getUnaryEncodedNumber_inv in U as (Hu0 & _ & Hun' & Hin);
      [|assumption..].
    assert (u' = u); [|now subst u'].
    destruct Hun as [Hz Ho], Hun' as [Hz' Ho'].
    destruct (Z.lt_trichotomy u' u) as [Hlt|[Heq|Hgt]]; [|exact Heq|].
    + rewrite Hz in Ho' by lia. discriminate Ho'.
    + rewrite Hz' in Ho by lia. discriminate Ho.
  - intros (u & g & Hu & Hg & Hgu & -> & Hun & Hgf & Hv & Hvf & Hin).
    now apply getEliasDeltaEncodedNumber_of.
Qed.

Lemma delta_decoder_accepts_witness :
  getEliasDeltaEncodedNumber [2 ^ 60 + 2 ^ 58 + 2 ^ 56; 0] 0 = Some (3, 8)
  <-> exists u g,
        0 <= u <= 64 /\ 1 <= g <= 64 /\ g < 2 ^ u /\ 8 = 2 * u + g
        /\ unaryAt [2 ^ 60 + 2 ^ 58 + 2 ^ 56; 0] 0 u
        /\ fieldAt [2 ^ 60 + 2 ^ 58 + 2 ^ 56; 0] (0 + u + 1) u g
        /\ 2 ^ (g - 1) <= 3 < 2 ^ g
        /\ fieldAt [2 ^ 60 + 2 ^ 58 + 2 ^ 56; 0] (0 + 2 * u + 1) (g - 1) 3
        /\ 0 + 64 * (u / 64 + 1) <= bitLength [2 ^ 60 + 2 ^ 58 + 2 ^ 56; 0].
Proof.
  apply (delta_decoder_accepts [2 ^ 60 + 2 ^ 58 + 2 ^ 56; 0] 0 3 8).
  - lia.
  - vm_compute. reflexivity.
Defined.

(** ** Larger values, longer codes *)

Lemma logBaseTwo64_mono (a b : Z) :
  0 <= a <= b -> logBaseTwo64 a <= logBaseTwo64 b.
Proof.
  intros H. unfold logBaseTwo64.
  destruct (Z.eqb_spec a 0), (Z.eqb_spec b 0); try lia.
  - pose proof (Z.log2_nonneg b). lia.
  - pose proof (Z.log2_le_mono a b ltac:(lia)). lia.
Qed.

Lemma ztop_mono (k : nat) (a b : Z) : a <= b -> ztop k a <= ztop k b.
Proof.
  intros Hab. induction k as [|k IH]; [reflexivity|].
  rewrite !ztop_S. pose proof (ztop_range k a).
  destruct (Z.leb_spec (fibZ k) a), (Z.leb_spec (fibZ k) b); lia.
Qed.

Lemma setEliasDeltaEncodedNumber_size (ptr pa : list Z) (pos a sa : Z) :
  0 <= pos -> 1 <= a < 2 ^ 64 -> bitLength ptr < 2 ^ 64 ->
  setEliasDeltaEncodedNumber ptr pos a = Some (pa, sa) ->
  sa = 2 * logBaseTwo64 (logBaseTwo64 a) + logBaseTwo64 a.
Proof.
  intros Hp Ha Hb H.
  destruct (setEliasDeltaEncodedNumber_fits ptr pos a Hp Ha Hb) as [Hfit Hnot].
  destruct (Z.le_gt_cases
              (pos + (2 * logBaseTwo64 (logBaseTwo64 a) + logBaseTwo64 a))
              (bitLength ptr)) as [Hin|Hout].
  - destruct (Hfit Hin) as [p' E]. rewrite H in E. now injection E.
  - rewrite (Hnot ltac:(lia)) in H. discriminate H.
Qed.

Lemma setGeneralizedUnaryEncodedNumber_size
    (ptr pa : list Z) (pos a sa : Z) (m : nat) :
  0 <= pos -> genunary_width m <= 64 ->
  genunary_base m <= a < genunary_base (S m) -> bitLength ptr < 2 ^ 64 ->
  setGeneralizedUnaryEncodedNumber ptr pos a = Some (pa, sa) ->
  sa = Z.of_nat m + 1 + genunary_width m.
Proof.
  intros Hp Hw Hr Hb H.
  destruct (setGeneralizedUnaryEncodedNumber_fits ptr pos a m Hp Hw Hr Hb)
    as [Hfit Hnot].
  destruct (Z.le_gt_cases (pos + (Z.of_nat m + 1 + genunary_width m))
              (bitLength ptr)) as [Hin|Hout].
  - destruct (Hfit Hin) as [p' E]. rewrite H in E. now injection E.
  - rewrite (Hnot ltac:(lia)) in H. discriminate H.
Qed.

(** X29: among the values a coder stores, a larger value never gets a
    shorter code: for [a <= b] the size the encoder reports for [a] is at
    most the size it reports for [b], wherever the two codes are written.
    The values are those below [genunary_base 31] for the generalized unary
    encoder, those from 1 to 2^64 - 1 for the gamma and the delta encoder,
    and those up to 2^64 - 2 for the Fibonacci encoder, whose size for
    2^64 - 1 is 1. *)
Theorem code_sizes_are_monotone :
  (forall (ptr1 ptr2 pa pb : list Z) (pos1 pos2 a b sa sb : Z),
      0 <= pos1 -> 0 <= pos2 ->
      bitLength ptr1 < 2 ^ 64 -> bitLength ptr2 < 2 ^ 64 ->
      0 <= a -> a <= b -> b < genunary_base 31 ->
      setGeneralizedUnaryEncodedNumber ptr1 pos1 a = Some (pa, sa) ->
      setGeneralizedUnaryEncodedNumber ptr2 pos2 b = Some (pb, sb) ->
      sa <= sb)
  /\ (forall (ptr1 ptr2 pa pb : list Z) (pos1 pos2 a b sa sb : Z),
      0 <= pos1 -> 0 <= pos2 ->
      bitLength ptr1 < 2 ^ 64 -> bitLength ptr2 < 2 ^ 64 ->
      1 <= a -> a <= b -> b < 2 ^ 64 ->
      setEliasGammaEncodedNumber ptr1 pos1 a = Some (pa, sa) ->
      setEliasGammaEncodedNumber ptr2 pos2 b = Some (pb, sb) ->
      sa <= sb)
  /\ (forall (ptr1 ptr2 : list Z) (pos1 pos2 a b sa sb : Z),
      0 <= pos1 -> 0 <= pos2 ->
      bitLength ptr1 < 2 ^ 64 -> bitLength ptr2 < 2 ^ 64 ->
      1 <= a -> a <= b -> b < 2 ^ 64 ->
      (snd <$> setEliasDeltaEncodedNumber ptr1 pos1 a) = Some sa ->
      (snd <$> setEliasDeltaEncodedNumber ptr2 pos2 b) = Some sb ->
      sa <= sb)
  /\ (forall (ptr1 ptr2 pa pb : list Z) (pos1 pos2 a b sa sb : Z),
      0 <= pos1 -> 0 <= pos2 ->
      bitLength ptr1 < 2 ^ 64 -> bitLength ptr2 < 2 ^ 64 ->
      0 <= a -> a <= b -> b + 1 < 2 ^ 64 ->
      setFibonacciEncodedNumber ptr1 pos1 a = Some (pa, sa) ->
      setFibonacciEncodedNumber ptr2 pos2 b = Some (pb, sb) ->
      sa <= sb).
Proof.
  split; [|split; [|split]];
    [intros ptr1 ptr2 pa pb pos1 pos2 a b sa sb Hp1 Hp2 H1 H2 Ha Hab Hb Ea Eb
    |intros ptr1 ptr2 pa pb pos1 pos2 a b sa sb Hp1 Hp2 H1 H2 Ha Hab Hb Ea Eb
    |intros ptr1 ptr2 pos1 pos2 a b sa sb Hp1 Hp2 H1 H2 Ha Hab Hb Ea Eb
    |intros ptr1 ptr2 pa pb pos1 pos2 a b sa sb Hp1 Hp2 H1 H2 Ha Hab Hb Ea Eb].
  - destruct (genunary_bucket_exists 31 a ltac:(lia)) as (ma & Hma & Hra).
    destruct (genunary_bucket_exists 31 b ltac:(lia)) as (mb & Hmb & Hrb).
    apply (setGeneralizedUnaryEncodedNumber_size _ _ _ _ _ ma) in Ea;
      [|assumption|unfold genunary_width; lia|assumption..].
    apply (setGeneralizedUnaryEncodedNumber_size _ _ _ _ _ mb) in Eb;
      [|assumption|unfold genunary_width; lia|assumption..].
    subst sa sb.
    assert (ma <= mb)%nat; [|unfold genunary_width; lia].
    destruct (Nat.le_gt_cases ma mb) as [|Hgt]; [assumption|].
    pose proof (genunary_base_mono (S mb) ma ltac:(lia)). lia.
  - apply setEliasGammaEncodedNumber_spec in Ea as (-> & _); [|lia..].
    apply setEliasGammaEncodedNumber_spec in Eb as (-> & _); [|lia..].
    pose proof (logBaseTwo64_mono a b ltac:(lia)). lia.
  - destruct (setEliasDeltaEncodedNumber ptr1 pos1 a) as [[pa sa']|] eqn:Ea';
      [|discriminate Ea].
    destruct (setEliasDeltaEncodedNumber ptr2 pos2 b) as [[pb sb']|] eqn:Eb';
      [|discriminate Eb].
    injection Ea as <-. injection Eb as <-.
    apply setEliasDeltaEncodedNumber_size in Ea'; [|lia..].
    apply setEliasDeltaEncodedNumber_size in Eb'; [|lia..].
    cbn [snd]. rewrite Ea', Eb'.
    pose proof (logBaseTwo64_mono a b ltac:(lia)) as M.
    pose proof (delta_size_pos a ltac:(lia)) as [Hla _].
    pose proof (logBaseTwo64_mono (logBaseTwo64 a) (logBaseTwo64 b)
                  ltac:(lia)).
    lia.
  - apply setFibonacciEncodedNumber_size in Ea as [-> _]; [|lia..].
    apply setFibonacciEncodedNumber_size in Eb as [-> _]; [|lia..].
    rewrite !wrap64_small by lia.
    pose proof (ztop_mono (Z.to_nat fibonacciValuesLen) (a + 1) (b + 1)
                  ltac:(lia)).
    lia.
Qed.

Lemma code_sizes_are_monotone_witness :
  4 <= 16 /\ 5 <= 21 /\ 6 <= 18 /\ 4 <= 16.
Proof.
  destruct code_sizes_are_monotone as (G & EG & ED & F).
  split; [|split; [|split]].
  - apply (G [0; 0] [0; 0] [12682136550675316736; 0] [5207287069147136; 0]
             0 7 3 1000 4 16);
      try lia; vm_compute; reflexivity.
  - apply (EG [0; 0] [0; 0] [4035225266123964416; 0] [139088220913664; 0]
              0 7 3 1000 5 21);
      try lia; vm_compute; reflexivity.
  - apply (ED [0; 0] [0; 0] 0 7 3 1000 6 18);
      try lia; vm_compute; reflexivity.
  - apply (F [0; 0] [0; 0] [12682136550675316736; 0] [74315990921379840; 0]
             0 7 3 1000 4 16);
      try lia; vm_compute; reflexivity.
Defined.

(** ** Gamma codes of the shortest size *)

(** X30: the gamma decoder accepts longer codes than the encoder writes,
    but a code of the encoder's size is the encoder's code: when the
    decoder returns a value [v >= 1] and the size it reports is the size
    [2 * logBaseTwo64 v + 1] of the code of [v], writing [v] back at the
    same position returns the same size and leaves every bit of the array
    as it was. *)
Theorem gamma_decode_encode (ptr : list Z) (pos v siz : Z) :
  0 <= pos -> bitLength ptr < 2 ^ 64 ->
  getEliasGammaEncodedNumber ptr pos = Some (v, siz) ->
  1 <= v -> siz = 2 * logBaseTwo64 v + 1 ->
  exists ptr',
    setEliasGammaEncodedNumber ptr pos v = Some (ptr', siz)
    /\ length ptr' = length ptr
    /\ forall j, 0 <= j -> getBit ptr' j = getBit ptr j.
Proof.
  intros Hp Hb H Hv1 Hs.
  apply getEliasGammaEncodedNumber_inv in H
    as (b & Hb64 & -> & Hu & _ & Hv & Hf); [|assumption..].
  assert (Eb : logBaseTwo64 v = b) by lia.
  assert (H2 : 2 ^ b <= 2 ^ 64) by (apply Z.pow_le_mono_r; lia).
  assert (Hb1 : 1 <= b).
  { rewrite <- Eb. rewrite logBaseTwo64_pos by lia.
    pose proof (Z.log2_nonneg v). lia. }
  assert (Hroom : pos + (2 * b + 1) <= bitLength ptr).
  { pose proof (Hf (pos + 2 * b) ltac:(lia)) as B.
    apply getBit_Some_inside in B; lia. }
  destruct (gamma_encode_decode ptr pos v Hp ltac:(lia)) as
    (ptr' & E & Hu' & Hf' & [Hlen Hout] & _);
    [rewrite Eb; exact Hroom|assumption|].
  rewrite Eb in E, Hu', Hf', Hout.
  exists ptr'. split; [exact E|]. split; [exact Hlen|].
  intros j Hj.
  destruct (Z.lt_ge_cases j pos); [apply Hout; lia|].
  destruct (Z.lt_ge_cases j (pos + (2 * b + 1))); [|apply Hout; lia].
  destruct (Z.lt_ge_cases j (pos + (b + 1))).
  - apply (unaryAt_bits_eq ptr ptr' pos b); [assumption..|lia].
  - apply (fieldAt_bits_eq ptr ptr' (pos + b + 1) b v); [assumption..|lia].
Qed.

Lemma gamma_decode_encode_witness :
  exists ptr',
    setEliasGammaEncodedNumber [4035225266123964416; 0] 0 3
    = Some (ptr', 5)
    /\ length ptr' = length [4035225266123964416; 0]
    /\ forall j, 0 <= j ->
                 getBit ptr' j = getBit [4035225266123964416; 0] j.
Proof.
  apply (gamma_decode_encode [4035225266123964416; 0] 0 3 5).
  - lia.
  - vm_compute. reflexivity.
  - vm_compute. reflexivity.
  - lia.
  - vm_compute. reflexivity.
Defined.

(** ** The bit range of a code, for every coder *)




